(** * Melfina: notarisation server over an Ethereum RPC endpoint

    A shallow embedding of [src/main.js] (the management script that deploys
    the [ProofOfExistence] contract or serves the two HTTP routes) and of the
    contract itself, followed by the properties of the submission engine
    ([sendTransaction], [pollTransaction]), of the two route handlers
    ([notarize], [verify]) and of the start-up configuration check
    ([parseEnv]).

    The numbers that the script handles are transaction counts and
    nonces, modelled as [N]; strings are byte strings.  What the script
    gets from its dependencies (web3, ethereumjs-tx, sha.js, abi-decoder,
    express) is modelled at the boundary: the endpoint by what the event
    loop delivers, the encoder as a given function, the digest and the
    log decoder by what the specification says of them. *)

From Stdlib Require Import ZArith NArith Lia List Bool Ascii String.
From Stdlib Require Import DecimalString HexadecimalString HexadecimalN.
From stdpp Require Import base option list strings gmap.
Import ListNotations.

Local Open Scope string_scope.

(* ===================================================================== *)
(** * JavaScript helpers used by the script *)
(* ===================================================================== *)

Module Js.

(** [s.indexOf(pat)]: position of the first occurrence, or [-1]. *)
Definition indexOf (s pat : string) : Z :=
  match String.index 0 pat s with
  | Some k => Z.of_nat k
  | None => (-1)%Z
  end.

(** The test the script writes as [s.indexOf(pat) > -1]. *)
Definition includes (s pat : string) : bool := (indexOf s pat >? -1)%Z.

(** [xs.join(sep)] on an array of strings. *)
Fixpoint join (sep : string) (xs : list string) : string :=
  match xs with
  | [] => EmptyString
  | [x] => x
  | x :: rest => x +:+ sep +:+ join sep rest
  end.

(** Truthiness of a string-or-undefined value, as in [!process.env[key]]
    and [contract.options.address || undefined]. *)
Definition truthy (v : option string) : bool :=
  match v with
  | None => false
  | Some s => negb (String.eqb s EmptyString)
  end.

(** Decimal rendering of a number inside a template literal. *)
Definition showN (n : N) : string :=
  DecimalString.NilZero.string_of_uint (N.to_uint n).

(** What is thrown, emitted as an ['error'] event or passed to [reject]:
    a string, or an [Error] object with its [name] and [message]. *)
Inductive error :=
| Str (s : string)
| Err (name message : string).

(** [error.toString()]: [Error.prototype.toString] for an object. *)
Definition toString (e : error) : string :=
  match e with
  | Str s => s
  | Err name message =>
      if String.eqb name EmptyString then message
      else if String.eqb message EmptyString then name
      else name +:+ ": " +:+ message
  end.

(** [n + 1] on a number that holds a natural.  A number is a double:
    the sum is exact below [2^53]; from [2^53] to [2^54] the doubles are
    the even naturals and [n + 1] lies half way between two of them, so
    that it is rounded to the one whose significand [n / 2] or
    [n / 2 + 1] is even; from [2^54] on the doubles are 4 or more apart
    and [n + 1] is rounded back to [n].  Only the naturals that are
    doubles stand for a number. *)
Definition add1 (n : N) : N :=
  if (n <? 2 ^ 53)%N then (n + 1)%N
  else if (n <? 2 ^ 54)%N then (if N.even (n / 2) then n else n + 2)%N
  else n.

(** [web3.utils.toHex] on a number: ['0x' + n.toString(16)]. *)
Definition toHex (n : N) : string :=
  "0x" +:+ HexadecimalString.NilZero.string_of_uint (N.to_hex_uint n).

(** [s] occurs inside [t]. *)
Definition occurs_in (s t : string) : Prop :=
  exists pre post, t = pre +:+ s +:+ post.

End Js.

(* ===================================================================== *)
(** * Start-up configuration: [parseEnv] and the task dispatch *)
(* ===================================================================== *)

Module Config.

(** [process.env] *)
Abbreviation environment := (gmap string string).

Definition required : list string :=
  ["ETH_ADDRESS"; "ETH_KEYFILE"; "ETH_PASSWORD"; "ETH_PROVIDER"].

(** [key => !process.env[key]] *)
Definition is_missing (env : environment) (key : string) : bool :=
  negb (Js.truthy (env !! key)).

Definition missingKeys (env : environment) : list string :=
  List.filter (is_missing env) required.

Definition error_message (keys : list string) : string :=
  Js.join ", " keys +:+ " environment variables must be set".

(** The immediately-invoked [parseEnv]: throws an [Error] carrying the
    combined message, or returns [process.env]. *)
Definition parseEnv (env : environment) : string + environment :=
  match missingKeys env with
  | [] => inr env
  | keys => inl (error_message keys)
  end.

(** The destructured configuration, with the two defaults of the pattern. *)
Record config := {
  contractAddress : option string;
  address : option string;
  keyfile : option string;
  password : option string;
  provider : string
}.

Definition destructure (env : environment) : config :=
  {| contractAddress := env !! "CONTRACT_ADDRESS";
     address := env !! "ETH_ADDRESS";
     keyfile := env !! "ETH_KEYFILE";
     password := env !! "ETH_PASSWORD";
     provider := default "http://localhost:8545" (env !! "ETH_PROVIDER") |}.

(** What the script has done once its top level has run:
    the exception of [parseEnv] aborts the module before the last line
    [task === 'deploy' ? deploy() : serve()] is reached. *)
Inductive startup :=
| Aborted (message : string)
| Deploying (cfg : config)
| Serving (cfg : config).

Definition main (env : environment) (task : string) : startup :=
  match parseEnv env with
  | inl message => Aborted message
  | inr e =>
      if String.eqb task "deploy" then Deploying (destructure e)
      else Serving (destructure e)
  end.

Definition serves (s : startup) : bool :=
  match s with Serving _ => true | _ => false end.

End Config.

(* ===================================================================== *)
(** * The digest of the facade: [shajs('sha256').update(value).digest('hex')] *)
(* ===================================================================== *)

Module Sha256.

Local Open Scope N_scope.

(** 32-bit words are [N] reduced modulo [2^32]. *)
Definition w32 (x : N) : N := N.land x 0xffffffff.
Definition add32 (x y : N) : N := w32 (x + y).
Definition rotr (n x : N) : N :=
  N.lor (N.shiftr x n) (w32 (N.shiftl x (32 - n))).

Definition ch (x y z : N) : N := N.lxor z (N.land x (N.lxor y z)).
Definition maj (x y z : N) : N := N.lor (N.land x y) (N.land z (N.lor x y)).
Definition sigma0 (x : N) : N := N.lxor (N.lxor (rotr 2 x) (rotr 13 x)) (rotr 22 x).
Definition sigma1 (x : N) : N := N.lxor (N.lxor (rotr 6 x) (rotr 11 x)) (rotr 25 x).
Definition gamma0 (x : N) : N := N.lxor (N.lxor (rotr 7 x) (rotr 18 x)) (N.shiftr x 3).
Definition gamma1 (x : N) : N := N.lxor (N.lxor (rotr 17 x) (rotr 19 x)) (N.shiftr x 10).

(** The constants of the standard are the first 32 bits of the
    fractional parts of the cube roots (for the round constants) and of
    the square roots (for the initial registers) of the first primes. *)
Definition divides (d n : N) : bool := (n mod d =? 0).

Definition prime (n : N) : bool :=
  (1 <? n) && forallb (fun d => negb (divides d n))
                      (map N.of_nat (seq 2 (N.to_nat n - 2))).

Definition primes : list N :=
  List.filter prime (map N.of_nat (seq 2 310)).

(** The largest [r] below [2^36] with [r^3 <= n]. *)
Definition cube_root (n : N) : N :=
  fold_left (fun r b => let c := r + 2 ^ N.of_nat b in
                        if c * c * c <=? n then c else r)
            (rev (seq 0 36)) 0.

Definition K : list N :=
  Eval vm_compute in map (fun p => w32 (cube_root (p * 2 ^ 96))) primes.

(** The eight working registers [_a] .. [_h]. *)
Record registers := Regs { ra : N; rb : N; rc : N; rd : N; re : N; rf : N; rg : N; rh : N }.

Definition fractional_sqrt (i : nat) : N :=
  w32 (N.sqrt (nth i primes 0 * 2 ^ 64)).

Definition init : registers :=
  Eval vm_compute in
    Regs (fractional_sqrt 0) (fractional_sqrt 1) (fractional_sqrt 2) (fractional_sqrt 3)
         (fractional_sqrt 4) (fractional_sqrt 5) (fractional_sqrt 6) (fractional_sqrt 7).

(** Big-endian 32-bit words of a block of bytes. *)
Fixpoint words (bytes : list N) : list N :=
  match bytes with
  | b0 :: b1 :: b2 :: b3 :: rest =>
      (N.shiftl b0 24 + N.shiftl b1 16 + N.shiftl b2 8 + b3) :: words rest
  | _ => []
  end.

(** The message schedule: [W] holds the words computed so far, most
    recent first, so that [W[i-2]], [W[i-7]], [W[i-15]] and [W[i-16]] are
    at positions 1, 6, 14 and 15. *)
Fixpoint extend (n : nat) (W : list N) : list N :=
  match n with
  | O => W
  | S n' =>
      let w := add32 (add32 (add32 (gamma1 (nth 1 W 0)) (nth 6 W 0))
                            (gamma0 (nth 14 W 0))) (nth 15 W 0) in
      extend n' (w :: W)
  end.

Definition schedule (block : list N) : list N :=
  rev (extend 48 (rev (words block))).

Definition round (r : registers) (kw : N * N) : registers :=
  let '(k, w) := kw in
  let T1 := add32 (add32 (add32 (add32 (rh r) (sigma1 (re r))) (ch (re r) (rf r) (rg r))) k) w in
  let T2 := add32 (sigma0 (ra r)) (maj (ra r) (rb r) (rc r)) in
  Regs (add32 T1 T2) (ra r) (rb r) (rc r) (add32 (rd r) T1) (re r) (rf r) (rg r).

(** [_update]: compress one 64-byte block into the registers. *)
Definition update (r : registers) (block : list N) : registers :=
  let r' := fold_left round (combine K (schedule block)) r in
  Regs (add32 (ra r') (ra r)) (add32 (rb r') (rb r)) (add32 (rc r') (rc r))
       (add32 (rd r') (rd r)) (add32 (re r') (re r)) (add32 (rf r') (rf r))
       (add32 (rg r') (rg r)) (add32 (rh r') (rh r)).

(** Padding: [0x80], zeros up to 56 modulo 64, then the bit length on
    eight bytes, most significant first. *)
Definition be64 (n : N) : list N :=
  map (fun i => N.land (N.shiftr n (8 * i)) 0xff) [7; 6; 5; 4; 3; 2; 1; 0].

Definition pad (msg : list N) : list N :=
  let len := N.of_nat (length msg) in
  let zeros := N.to_nat ((119 - len mod 64) mod 64) in
  msg ++ [0x80] ++ repeat 0 zeros ++ be64 (8 * len).

Fixpoint blocks (fuel : nat) (bytes : list N) (r : registers) : registers :=
  match fuel with
  | O => r
  | S fuel' =>
      match bytes with
      | [] => r
      | _ => blocks fuel' (skipn 64 bytes) (update r (firstn 64 bytes))
      end
  end.

Definition hash (msg : list N) : registers :=
  let padded := pad msg in
  blocks (length padded) padded init.

(** Hexadecimal rendering of the 32 digest bytes. *)
Definition hexdigit (n : N) : ascii :=
  match n with
  | 0 => "0" | 1 => "1" | 2 => "2" | 3 => "3" | 4 => "4" | 5 => "5" | 6 => "6" | 7 => "7"
  | 8 => "8" | 9 => "9" | 10 => "a" | 11 => "b" | 12 => "c" | 13 => "d" | 14 => "e"
  | _ => "f"
  end%char.

Definition nibble (w i : N) : ascii := hexdigit (N.land (N.shiftr w (4 * i)) 0xf).

Definition hex32 (w : N) (rest : string) : string :=
  String (nibble w 7) (String (nibble w 6) (String (nibble w 5) (String (nibble w 4)
  (String (nibble w 3) (String (nibble w 2) (String (nibble w 1) (String (nibble w 0) rest))))))).

Definition hex (r : registers) : string :=
  hex32 (ra r) (hex32 (rb r) (hex32 (rc r) (hex32 (rd r)
  (hex32 (re r) (hex32 (rf r) (hex32 (rg r) (hex32 (rh r) EmptyString))))))).

(** The bytes that [update] hashes: the text in UTF-8, which is how a
    [string] holds it here. *)
Definition bytes_of (s : string) : list N := map N_of_ascii (list_ascii_of_string s).

(** Modelled from the spec: the hex digest of the sha.js dependency, which
    is not under the repository's sources; the spec names it as the
    256-bit variant of SHA-2 rendered as a hex string, and the definitions
    above follow that standard (FIPS 180-4). *)
Definition digest (text : string) : string := hex (hash (bytes_of text)).

Definition is_hex (c : ascii) : bool :=
  existsb (Ascii.eqb c) (list_ascii_of_string "0123456789abcdef").

End Sha256.

(* ===================================================================== *)
(** * The contract: [ProofOfExistence.sol] *)
(* ===================================================================== *)

Module ProofOfExistence.

(** [mapping(string => bool) private proofs] *)
Abbreviation storage := (gmap string bool).

Inductive event :=
| OnNotarize (dataHash : string)
| OnVerify (dataHash : string) (notarized : bool).

(** A mapping reads [false] where nothing was written. *)
Definition read (proofs : storage) (dataHash : string) : bool :=
  default false (proofs !! dataHash).

Definition notarize (proofs : storage) (dataHash : string) : storage * list event :=
  (<[dataHash := true]> proofs, [OnNotarize dataHash]).

Definition verify (proofs : storage) (dataHash : string) : storage * list event * bool :=
  let notarized := read proofs dataHash in
  (proofs, [OnVerify dataHash notarized], notarized).

(** The functions the contract declares: the keys of [contract.methods]. *)
Definition methods : list string := ["notarize"; "verify"].

(** The events the contract declares, with the names and types of their
    parameters: what [abiDecoder.addABI(abi)] registers. *)
Definition events : list (string * list (string * string)) :=
  [ ("OnNotarize", [("dataHash", "string")]);
    ("OnVerify", [("dataHash", "string"); ("notarized", "bool")]) ].

End ProofOfExistence.

(* ===================================================================== *)
(** * The submission engine: [sendTransaction] and [pollTransaction] *)
(* ===================================================================== *)

(** [sendTransaction] registers three handlers on the object returned by
    [web3.eth.sendSignedTransaction] and returns a promise; what happens
    next is decided by what the event loop delivers and in which order.
    The model is therefore a machine that reacts to inputs: the state
    holds every invocation of [sendTransaction] made for a logical
    request (its arguments, its locals [nonce] and [txHash], its promise)
    and every invocation of [pollTransaction]; [step] runs the handler of
    one input to its next suspension point, and records the requests
    made to the endpoint, the timers set and the lines logged.  The
    endpoint may notify a submission of anything in any order, any number
    of times.

    Encoding the call, signing and serialising are calls of the web3 and
    ethereumjs-tx dependencies: the encoder is a function taken as given,
    and a transaction sent is recorded by the fields it was built from. *)

Module Engine.

Definition hash := string.

(** ** What the remote endpoint hands back *)

Inductive abi_value :=
| AString (s : string)
| ABool (b : bool).

(** A log entry of a receipt: the event that was emitted and its
    arguments, in declaration order. *)
Record log_entry := {
  log_event : string;
  log_args : list abi_value
}.

Record receipt := {
  transactionHash : hash;
  contractAddress : option string;
  logs : list log_entry
}.

(** The three notifications of [web3.eth.sendSignedTransaction]. *)
Inductive event :=
| TransactionHash (h : hash)
| Receipt (r : receipt)
| Error (e : Js.error).

(** What a submission promise is fulfilled with. *)
Inductive value :=
| VHash (h : hash)
| VReceipt (r : receipt).

(** ** What the script is given *)

(** An argument of a contract call: the digest for [notarize] and
    [verify], the options object [{ data: bin }] for a deployment. *)
Inductive param :=
| PString (s : string)
| PData (bin : string).

(** The arguments of [sendTransaction] other than [lastNonce];
    [immediate] and [silent] are the truthiness of what is passed. *)
Record request := {
  methodName : string;
  params : list param;
  immediate : bool;
  silent : bool
}.

(** [contract.deploy(params[0])] or [contract.methods[methodName](...params)]. *)
Inductive call :=
| Deployment (options : option param)
| Invocation (name : string) (args : list param).

(** The module-level constants the engine reads: the account, the
    contract object, and the ABI encoder of the web3 dependency. *)
Record web3 := {
  address : string;
  options_address : option string;
  methods : list string;
  encodeABI : call -> string
}.

(** ** The signed payload *)

Record Tx := {
  data : string;
  gasLimit : string;
  gasPrice : string;
  nonce : string;
  to : option string
}.

(** [!contract.methods[methodName]] *)
Definition deploy (w : web3) (name : string) : bool :=
  negb (existsb (String.eqb name) (methods w)).

Definition call_of (w : web3) (q : request) : call :=
  if deploy w (methodName q) then Deployment (head (params q))
  else Invocation (methodName q) (params q).

Definition build (w : web3) (q : request) (n : N) : Tx :=
  {| data := encodeABI w (call_of w q);
     gasLimit := Js.toHex 400000;
     gasPrice := Js.toHex 20000000000;
     nonce := Js.toHex n;
     to := if Js.truthy (options_address w) then options_address w else None |}.

(** ** Effects *)

Inductive action :=
| GetTransactionCount (account : string)
| SendSignedTransaction (tx : Tx)
| GetTransactionReceipt (h : option hash)
| SetTimeout (ms : N)
| Log (level message : string).

(** ** State of the running submissions *)

(** The promise returned by one invocation of [sendTransaction].
    [Follows k] is a promise resolved with the promise of invocation [k]:
    it is locked to it, and later calls of [resolve] and [reject] are
    ignored as they are once it is fulfilled or rejected. *)
Inductive promise :=
| Pending
| Fulfilled (v : value)
| Rejected (e : Js.error)
| Follows (k : nat).

(** One invocation of [sendTransaction]: its arguments and its locals.
    [a_nonce] is [None] while [getTransactionCount] is awaited. *)
Record attempt := {
  a_request : request;
  a_lastNonce : option N;
  a_nonce : option N;
  a_txHash : option hash;
  a_promise : promise
}.

(** One invocation of [pollTransaction], started by the error handler of
    invocation [p_owner]. *)
Inductive phase := Querying | Sleeping | Finished | Abandoned.

Record poller := {
  p_owner : nat;
  p_hash : option hash;
  p_phase : phase
}.

Record state := {
  attempts : list attempt;
  pollers : list poller;
  trace : list action
}.

Definition initial : state := {| attempts := []; pollers := []; trace := [] |}.

(** What the event loop delivers: the answers of the endpoint to the
    requests in flight, the notifications of a submission, and the
    expiry of a poller's timer. *)
Inductive input :=
| CountReply (i : nat) (n : N)
| CountFailure (i : nat) (e : Js.error)
| Emit (i : nat) (ev : event)
| ReceiptReply (j : nat) (r : option receipt)
| ReceiptFailure (j : nat) (e : Js.error)
| TimerFired (j : nat).

(** ** The handlers *)

(** [resolve] and [reject] act on a pending promise only. *)
Definition settle (p : promise) (a : attempt) : attempt :=
  match a_promise a with
  | Pending =>
      {| a_request := a_request a; a_lastNonce := a_lastNonce a;
         a_nonce := a_nonce a; a_txHash := a_txHash a; a_promise := p |}
  | _ => a
  end.

Definition set_nonce (n : N) (a : attempt) : attempt :=
  {| a_request := a_request a; a_lastNonce := a_lastNonce a;
     a_nonce := Some n; a_txHash := a_txHash a; a_promise := a_promise a |}.

Definition set_txHash (h : hash) (a : attempt) : attempt :=
  {| a_request := a_request a; a_lastNonce := a_lastNonce a;
     a_nonce := a_nonce a; a_txHash := Some h; a_promise := a_promise a |}.

Definition set_phase (f : phase) (p : poller) : poller :=
  {| p_owner := p_owner p; p_hash := p_hash p; p_phase := f |}.

Definition emit (st : state) (acts : list action) : state :=
  {| attempts := attempts st; pollers := pollers st; trace := trace st ++ acts |}.

Definition update_attempt (i : nat) (f : attempt -> attempt) (st : state) : state :=
  {| attempts := alter f i (attempts st); pollers := pollers st; trace := trace st |}.

Definition update_poller (j : nat) (f : poller -> poller) (st : state) : state :=
  {| attempts := attempts st; pollers := alter f j (pollers st); trace := trace st |}.

(** [!silent && log('info', message)] *)
Definition info (q : request) (message : string) : list action :=
  if silent q then [] else [Log "info" message].

(** [lastNonce + 1]: a number when [lastNonce] is one, [NaN] otherwise;
    the result is what [||] sees, [None] standing for a falsy value. *)
Definition next_nonce (lastNonce : option N) : option N :=
  match lastNonce with
  | None => None
  | Some n => if (Js.add1 n =? 0)%N then None else Some (Js.add1 n)
  end.

(** The part of [sendTransaction] that runs as soon as it is called:
    the nonce is [lastNonce + 1] and the transaction is sent, or the
    count of the account is requested and the function is suspended. *)
Definition sendTransaction (w : web3) (q : request) (lastNonce : option N)
    (st : state) : state :=
  match next_nonce lastNonce with
  | Some n =>
      {| attempts := attempts st ++
           [{| a_request := q; a_lastNonce := lastNonce; a_nonce := Some n;
               a_txHash := None; a_promise := Pending |}];
         pollers := pollers st;
         trace := trace st ++ [SendSignedTransaction (build w q n)] |}
  | None =>
      {| attempts := attempts st ++
           [{| a_request := q; a_lastNonce := lastNonce; a_nonce := None;
               a_txHash := None; a_promise := Pending |}];
         pollers := pollers st;
         trace := trace st ++ [GetTransactionCount (address w)] |}
  end.

(** [pollTransaction(hash)], up to its first [await]. *)
Definition pollTransaction (owner : nat) (h : option hash) (st : state) : state :=
  {| attempts := attempts st;
     pollers := pollers st ++ [{| p_owner := owner; p_hash := h; p_phase := Querying |}];
     trace := trace st ++ [GetTransactionReceipt h] |}.

(** [rpcCall.on('transactionHash', ...)] *)
Definition on_transactionHash (i : nat) (a : attempt) (h : hash) (st : state) : state :=
  let q := a_request a in
  let st := emit st (info q ("Function: " +:+ methodName q +:+ "() " +:+ h)) in
  let st := update_attempt i (set_txHash h) st in
  if immediate q then update_attempt i (settle (Fulfilled (VHash h))) st else st.

(** The three outcomes of the pattern matching on the error text. *)
Inductive verdict := TimedOut | Retryable | Fatal.

Definition classify (text : string) : verdict :=
  if Js.includes text "within 50 blocks" then TimedOut
  else if Js.includes text "known transaction" || Js.includes text "underpriced"
  then Retryable
  else Fatal.

(** [rpcCall.on('error', ...)] *)
Definition on_error (w : web3) (i : nat) (a : attempt) (n : N) (e : Js.error)
    (st : state) : state :=
  let q := a_request a in
  let error := Js.toString e in
  match classify error with
  | TimedOut =>
      let st := emit st (info q "Transaction not mined, polling") in
      pollTransaction i (a_txHash a) st
  | Retryable =>
      let st := emit st
        (info q ("Transaction known, retrying with nonce " +:+ Js.showN (Js.add1 n))) in
      let k := length (attempts st) in
      let retry := {| methodName := methodName q; params := params q;
                      immediate := immediate q; silent := false |} in
      let st := sendTransaction w retry (Some n) st in
      update_attempt i (settle (Follows k)) st
  | Fatal =>
      update_attempt i (settle (Rejected (Js.Str error))) st
  end.

(** [rpcCall.on('receipt', resolve)] *)
Definition on_receipt (i : nat) (r : receipt) (st : state) : state :=
  update_attempt i (settle (Fulfilled (VReceipt r))) st.

(** One turn of the event loop. *)
Definition step (w : web3) (st : state) (inp : input) : state :=
  match inp with
  | CountReply i n =>
      match attempts st !! i with
      | Some a =>
          match a_nonce a, a_promise a with
          | None, Pending =>
              emit (update_attempt i (set_nonce n) st)
                   [SendSignedTransaction (build w (a_request a) n)]
          | _, _ => st
          end
      | None => st
      end
  | CountFailure i e =>
      match attempts st !! i with
      | Some a =>
          match a_nonce a with
          | None => update_attempt i (settle (Rejected e)) st
          | Some _ => st
          end
      | None => st
      end
  | Emit i ev =>
      match attempts st !! i with
      | Some a =>
          match a_nonce a with
          | Some n =>
              match ev with
              | TransactionHash h => on_transactionHash i a h st
              | Receipt r => on_receipt i r st
              | Error e => on_error w i a n e st
              end
          | None => st
          end
      | None => st
      end
  | ReceiptReply j r =>
      match pollers st !! j with
      | Some p =>
          match p_phase p, r with
          | Querying, None =>
              emit (update_poller j (set_phase Sleeping) st) [SetTimeout 1000]
          | Querying, Some rcpt =>
              update_attempt (p_owner p) (settle (Fulfilled (VReceipt rcpt)))
                (update_poller j (set_phase Finished) st)
          | _, _ => st
          end
      | None => st
      end
  | ReceiptFailure j e =>
      match pollers st !! j with
      | Some p =>
          match p_phase p with
          | Querying => update_poller j (set_phase Abandoned) st
          | _ => st
          end
      | None => st
      end
  | TimerFired j =>
      match pollers st !! j with
      | Some p =>
          match p_phase p with
          | Sleeping =>
              emit (update_poller j (set_phase Querying) st)
                   [GetTransactionReceipt (p_hash p)]
          | _ => st
          end
      | None => st
      end
  end.

Definition run (w : web3) (st : state) (inputs : list input) : state :=
  fold_left (step w) inputs st.

(** ** The outcome of a submission *)

Inductive outcome :=
| Resolved (v : value)
| Failed (e : Js.error).

(** The settled value of a promise, through the promises it follows. *)
Fixpoint settled_in (fuel : nat) (l : list attempt) (i : nat) : option outcome :=
  match fuel with
  | O => None
  | S fuel' =>
      match l !! i with
      | None => None
      | Some a =>
          match a_promise a with
          | Pending => None
          | Fulfilled v => Some (Resolved v)
          | Rejected e => Some (Failed e)
          | Follows k => settled_in fuel' l k
          end
      end
  end.

Definition settled (st : state) (i : nat) : option outcome :=
  settled_in (length (attempts st)) (attempts st) i.

(** A logical request: a call of [sendTransaction] without [lastNonce],
    then what the event loop delivers. *)
Definition submit (w : web3) (q : request) (inputs : list input) : state :=
  run w (sendTransaction w q None initial) inputs.

Definition result (w : web3) (q : request) (inputs : list input) : option outcome :=
  settled (submit w q inputs) 0.

(** The transactions sent, in order. *)
Definition sent_of (t : list action) : list Tx :=
  omap (fun a => match a with SendSignedTransaction tx => Some tx | _ => None end) t.

Definition sent (st : state) : list Tx := sent_of (trace st).

(** The nonces of the invocations, in order of invocation. *)
Definition nonces (st : state) : list N := omap a_nonce (attempts st).

End Engine.

(* ===================================================================== *)
(** * The facade: the route handlers [notarize] and [verify], and [deploy] *)
(* ===================================================================== *)

Module Facade.

Import Engine.

(** What [req.body.value] or [req.query.value] evaluates to: nothing, a
    string, or something else (a number, a boolean, [null], an array or
    an object, given by its JSON text). *)
Inductive supplied :=
| Undefined
| Text (s : string)
| NonString (json : string).

(** [`${value}`] *)
Definition show (v : supplied) : string :=
  match v with
  | Undefined => "undefined"
  | Text s => s
  | NonString json => json
  end.

(** The sha.js dependency outside the strings: [update] reads
    [data.length], which throws a [TypeError] on [undefined]; what it
    makes of another value that is not a string is left to the library,
    as a function from the value to an exception or a digest. *)
Record shajs := {
  on_nonstring : string -> Js.error + string
}.

(** Modelled from the spec: sha.js is a dependency that is not part of
    the sources; a value that is not a string makes the computation of
    the digest raise an exception, here the [TypeError] of a library
    that asks for a string or a buffer. *)
Definition strict : shajs :=
  {| on_nonstring := fun _ => inl (Js.Err "TypeError" "Data must be a string or a buffer") |}.

(** [shajs('sha256').update(value).digest('hex')] *)
Definition valueHash (lib : shajs) (value : supplied) : Js.error + string :=
  match value with
  | Text s => inr (Sha256.digest s)
  | Undefined => inl (Js.Err "TypeError" "Cannot read property 'length' of undefined")
  | NonString json => on_nonstring lib json
  end.

(** The calls of the engine: [sendTransaction('notarize', [ valueHash ],
    undefined, true)], [sendTransaction('verify', [ valueHash ])] and
    [sendTransaction('deploy', [{ data: bin }], undefined, null, true)]. *)
Definition notarize_request (valueHash : string) : request :=
  {| methodName := "notarize"; params := [PString valueHash];
     immediate := true; silent := false |}.

Definition verify_request (valueHash : string) : request :=
  {| methodName := "verify"; params := [PString valueHash];
     immediate := false; silent := false |}.

Definition deploy_request (bin : string) : request :=
  {| methodName := "deploy"; params := [PData bin];
     immediate := false; silent := true |}.

(** ** Decoding the logs of a receipt *)

(** The log entry of an event the contract emits. *)
Definition log_of (e : ProofOfExistence.event) : log_entry :=
  match e with
  | ProofOfExistence.OnNotarize dataHash =>
      {| log_event := "OnNotarize"; log_args := [AString dataHash] |}
  | ProofOfExistence.OnVerify dataHash notarized =>
      {| log_event := "OnVerify"; log_args := [AString dataHash; ABool notarized] |}
  end.

Record decoded_param := {
  dp_name : string;
  dp_type : string;
  dp_value : abi_value
}.

Record decoded_log := {
  dl_name : string;
  dl_events : list decoded_param
}.

Definition decode_one (l : log_entry) : option decoded_log :=
  match List.find (fun d => String.eqb (fst d) (log_event l)) ProofOfExistence.events with
  | Some (name, declared) =>
      Some {| dl_name := name;
              dl_events := map (fun '(nt, v) =>
                                  {| dp_name := fst nt; dp_type := snd nt; dp_value := v |})
                               (combine declared (log_args l)) |}
  | None => None
  end.

(** Modelled from the spec: [abiDecoder.decodeLogs(logs)] of the
    abi-decoder dependency, which is not under the sources; the spec has
    it decode the emitted log entries against the contract's declared
    interface.  A log carries its event and arguments, the decoder finds
    the event among those declared and names and types the arguments; the
    entry of an event that is not declared is [undefined]. *)
Definition decodeLogs (logs : list log_entry) : list (option decoded_log) :=
  map decode_one logs.

(** [abiDecoder.decodeLogs(receipt.logs)[0].events[1].value], with the
    [TypeError] of reading a property of [undefined]. *)
Definition notarized_of (r : receipt) : Js.error + abi_value :=
  match decodeLogs (logs r) with
  | Some d :: _ =>
      match dl_events d with
      | _ :: p :: _ => inr (dp_value p)
      | _ => inl (Js.Err "TypeError" "Cannot read property 'value' of undefined")
      end
  | _ => inl (Js.Err "TypeError" "Cannot read property 'events' of undefined")
  end.

(** ** The handlers *)

(** What [res.send] is given. *)
Inductive payload :=
| OfEngine (v : value)
| Verdict (notarized : abi_value) (txHash : hash)
| OfError (e : Js.error).

(** What has become of a request once the event loop has delivered
    [inputs]: a response, an exception that left the handler, or nothing
    yet. *)
Inductive answer :=
| Responded (status : N) (p : payload)
| Uncaught (e : Js.error)
| Awaiting.

Record served := {
  reply : answer;
  said : list action;
  engine : state
}.

(** The [try] block of [notarize] once the engine has settled. *)
Definition notarize_then (value : supplied) (o : outcome) : answer * list action :=
  match o with
  | Resolved txHash =>
      (Responded 200 (OfEngine txHash), [Log "info" ("Notarized " +:+ show value)])
  | Failed error =>
      (Responded 500 (OfError error), [Log "fail" (Js.toString error)])
  end.

Definition quote : string := String (ascii_of_nat 34) EmptyString.

Definition notarize (lib : shajs) (w : web3) (value : supplied)
    (inputs : list input) : served :=
  match valueHash lib value with
  | inl e => {| reply := Uncaught e; said := []; engine := initial |}
  | inr h =>
      let started := [Log "info" ("Notarizing " +:+ quote +:+ show value +:+ quote)] in
      let st := submit w (notarize_request h) inputs in
      match settled st 0 with
      | None => {| reply := Awaiting; said := started; engine := st |}
      | Some o =>
          {| reply := fst (notarize_then value o);
             said := started ++ snd (notarize_then value o);
             engine := st |}
      end
  end.

(** [`${notarized}`] *)
Definition show_abi (v : abi_value) : string :=
  match v with
  | AString s => s
  | ABool true => "true"
  | ABool false => "false"
  end.

(** What the [try] block of [verify] reads in what the engine resolved
    with; a hash in place of a receipt has no [logs], which [decodeLogs]
    cannot filter. *)
Definition decode (v : value) : Js.error + (abi_value * hash) :=
  match v with
  | VReceipt receipt =>
      match notarized_of receipt with
      | inr notarized => inr (notarized, transactionHash receipt)
      | inl error => inl error
      end
  | VHash _ => inl (Js.Err "TypeError" "Cannot read property 'filter' of undefined")
  end.

(** The [try] block of [verify] once the engine has settled. *)
Definition verify_then (value : supplied) (o : outcome) : answer * list action :=
  match o with
  | Resolved receipt =>
      match decode receipt with
      | inr (notarized, txHash) =>
          (Responded 200 (Verdict notarized txHash),
           [Log "info" ("Verified " +:+ quote +:+ show value +:+ quote +:+ ": "
                        +:+ show_abi notarized)])
      | inl error =>
          (Responded 500 (OfError error), [Log "fail" (Js.toString error)])
      end
  | Failed error =>
      (Responded 500 (OfError error), [Log "fail" (Js.toString error)])
  end.

Definition verify (lib : shajs) (w : web3) (value : supplied)
    (inputs : list input) : served :=
  match valueHash lib value with
  | inl e => {| reply := Uncaught e; said := []; engine := initial |}
  | inr h =>
      let started := [Log "info" ("Verifying " +:+ quote +:+ show value +:+ quote)] in
      let st := submit w (verify_request h) inputs in
      match settled st 0 with
      | None => {| reply := Awaiting; said := started; engine := st |}
      | Some o =>
          {| reply := fst (verify_then value o);
             said := started ++ snd (verify_then value o);
             engine := st |}
      end
  end.

(** The contract object of the script, for a configured address. *)
Definition the_web3 (account : string) (contractAddress : option string)
    (encode : call -> string) : web3 :=
  {| address := account; options_address := contractAddress;
     methods := ProofOfExistence.methods; encodeABI := encode |}.

End Facade.

(* ===================================================================== *)
(** * Notions used to state and prove the properties of the engine *)
(* ===================================================================== *)

Module Reasoning.

Import Engine.

(** The invocation that the error handler starts for a retry. *)
Definition retry_of (a : attempt) (n : N) : attempt :=
  {| a_request := {| methodName := methodName (a_request a);
                     params := params (a_request a);
                     immediate := immediate (a_request a);
                     silent := false |};
     a_lastNonce := Some n; a_nonce := Some (Js.add1 n);
     a_txHash := None; a_promise := Pending |}.

(** What [resolve] and [reject] are given by the handlers of the
    notifications and by a poller, other than a retry. *)
Definition final (p : promise) : Prop :=
  match p with
  | Fulfilled (VReceipt _) | Rejected _ => True
  | _ => False
  end.

(** The shapes of a turn, as far as the invocations go. *)
Inductive attempts_step (l : list attempt) : list attempt -> Prop :=
| as_same : attempts_step l l
| as_nonce i a n :
    l !! i = Some a -> a_nonce a = None -> a_promise a = Pending ->
    attempts_step l (alter (set_nonce n) i l)
| as_settle i p :
    final p -> attempts_step l (alter (settle p) i l)
| as_hash i a h :
    l !! i = Some a ->
    attempts_step l (alter (set_txHash h) i l)
| as_early i a h :
    l !! i = Some a -> immediate (a_request a) = true ->
    attempts_step l (alter (settle (Fulfilled (VHash h))) i (alter (set_txHash h) i l))
| as_retry (i : nat) a n :
    l !! i = Some a -> a_nonce a = Some n ->
    attempts_step l (alter (settle (Follows (length l))) i (l ++ [retry_of a n])%list).

(** What is kept of an invocation by every turn. *)
Definition evolves (a a' : attempt) : Prop :=
  a_request a' = a_request a /\
  a_lastNonce a' = a_lastNonce a /\
  (forall n, a_nonce a = Some n -> a_nonce a' = Some n) /\
  (a_promise a <> Pending -> a_promise a' = a_promise a).

(** Every invocation carries the operation, the arguments and the
    [immediate] flag of the logical request; a promise follows a later
    invocation only, one whose [lastNonce] is the nonce of the follower;
    an invocation given a [lastNonce] uses the next number; and an
    invocation waits for the transaction count only while it is alone. *)
Record consistent (q : request) (l : list attempt) : Prop := {
  same_request : forall i a, l !! i = Some a ->
    methodName (a_request a) = methodName q /\
    params (a_request a) = params q /\
    immediate (a_request a) = immediate q;
  follows_later : forall i a k, l !! i = Some a -> a_promise a = Follows k ->
    (i < k < length l)%nat /\
    exists n, a_nonce a = Some n /\ forall b, l !! k = Some b -> a_lastNonce b = Some n;
  retry_nonce : forall i a m, l !! i = Some a -> a_lastNonce a = Some m ->
    a_nonce a = Some (Js.add1 m);
  awaiting_alone : forall i a, l !! i = Some a -> a_nonce a = None ->
    length l = 1%nat
}.

(** The promise of invocation [i] stands for the promise of invocation
    [j]: it is that promise, or it follows a promise that stands for it. *)
Inductive stands_for (l : list attempt) : nat -> nat -> Prop :=
| stands_here i : stands_for l i i
| stands_further i a k j :
    l !! i = Some a -> a_promise a = Follows k -> stands_for l k j ->
    stands_for l i j.

(** What the event loop delivers to poller [j] while the endpoint has no
    receipt yet: [k] times [null] and the expiry of the timer. *)
Definition poll_rounds (j k : nat) : list input :=
  concat (repeat [ReceiptReply j None; TimerFired j] k).

(** What poller [j] does in those rounds: it sets its timer to 1000 ms
    and asks again for the receipt of hash [h]. *)
Definition poll_actions (h : option hash) (k : nat) : list action :=
  concat (repeat [SetTimeout 1000; GetTransactionReceipt h] k).

(** What leaves the promise of invocation [i] alone: anything but a
    notification of that invocation and a receipt returned to a poller. *)
Definition idle (i : nat) (inp : input) : bool :=
  match inp with
  | Emit i' _ => negb (Nat.eqb i' i)
  | ReceiptReply _ (Some _) => false
  | _ => true
  end.

(** The invocations whose submission has notified an error. *)
Definition errored (inp : input) : option nat :=
  match inp with
  | Emit i (Error _) => Some i
  | _ => None
  end.

Definition errors_of (inputs : list input) : list nat := omap errored inputs.

End Reasoning.

(* ===================================================================== *)
(** * The endpoint, as far as the receipts go *)
(* ===================================================================== *)

Module Endpoint.

Import Engine.




End Endpoint.

(* ===================================================================== *)
(** * Sample values *)
(* ===================================================================== *)

Module Examples.

Import Engine.

(** A stand-in for the ABI encoder. *)
Definition show_param (p : param) : string :=
  match p with
  | PString s => s
  | PData bin => bin
  end.

Definition encode (c : call) : string :=
  match c with
  | Deployment None => "deploy()"
  | Deployment (Some p) => "deploy(" +:+ show_param p +:+ ")"
  | Invocation name args => name +:+ "(" +:+ Js.join "," (map show_param args) +:+ ")"
  end.

Definition account : string := "0xb0447e3e270e5595c30074f8c101233fa02b427d".

(** The script run with [CONTRACT_ADDRESS] set, and without it. *)
Definition served : web3 :=
  Facade.the_web3 account (Some "0x58df3b0e6cbf1ae0691c51322252b6a3d52aa6f2") encode.

Definition unset : web3 := Facade.the_web3 account None encode.

Definition lib : Facade.shajs := Facade.strict.

Definition txHash1 : hash := "0x9fc76417374aa880d4449a1f7f31ec597f00b1f6f3dd2d66f4c9c6c445836d8b".
Definition txHash2 : hash := "0x88df016429689c079f3b2f6ad39fa052532c56795b733da78a91ebe6a713944b".

Definition receipt1 : receipt :=
  {| transactionHash := txHash1; contractAddress := None; logs := [] |}.

Definition receipt2 : receipt :=
  {| transactionHash := txHash2; contractAddress := None; logs := [] |}.

Definition underpriced : Js.error :=
  Js.Err "Error" "Returned error: replacement transaction underpriced".

Definition timed_out : Js.error :=
  Js.Err "Error" "Transaction was not mined within 50 blocks, please make sure your transaction was properly sent. Be aware that it might still be mined!".

Definition reverted : Js.error :=
  Js.Err "Error" "Transaction has been reverted by the EVM".

Definition insufficient_funds : Js.error := Js.Str "insufficient funds".

(** A text with a retry pattern and the time-out pattern. *)
Definition underpriced_and_late : Js.error :=
  Js.Str "replacement transaction underpriced; previous one not mined within 50 blocks".

Definition store_hello : request := Facade.notarize_request (Sha256.digest "hello").
Definition check_hello : request := Facade.verify_request (Sha256.digest "hello").

(** What a ledger that accepts at once notifies of a transaction: the
    hash [h], and then the receipt with the logs of the events that the
    transaction emitted. *)
Definition accepted (h : hash) (events : list ProofOfExistence.event) : list input :=
  [Emit 0 (TransactionHash h);
   Emit 0 (Receipt {| transactionHash := h; contractAddress := None;
                      logs := map Facade.log_of events |})].

(** What [encode] wrote for a call, read back: the name before the
    bracket and the text between the brackets. *)
Fixpoint split_at (c : ascii) (s : string) : option (string * string) :=
  match s with
  | EmptyString => None
  | String x rest =>
      if Ascii.eqb x c then Some (EmptyString, rest)
      else match split_at c rest with
           | Some (before, after) => Some (String x before, after)
           | None => None
           end
  end.

Fixpoint remove_last (s : string) : string :=
  match s with
  | EmptyString => EmptyString
  | String x EmptyString => EmptyString
  | String x rest => String x (remove_last rest)
  end.

Definition decode (data : string) : option (string * string) :=
  match split_at "(" data with
  | Some (name, rest) => Some (name, remove_last rest)
  | None => None
  end.

(** The ledger executes a transaction: one sent to the address of the
    contract runs the function that its data calls. *)
Definition execute (proofs : ProofOfExistence.storage) (tx : Tx)
    : ProofOfExistence.storage * list ProofOfExistence.event :=
  match to tx, options_address served, decode (data tx) with
  | Some recipient, Some contract, Some (name, dataHash) =>
      if negb (String.eqb recipient contract) then (proofs, [])
      else if String.eqb name "notarize" then ProofOfExistence.notarize proofs dataHash
      else if String.eqb name "verify" then fst (ProofOfExistence.verify proofs dataHash)
      else (proofs, [])
  | _, _, _ => (proofs, [])
  end.

(** The two operations of the facade against that ledger: the handler
    is run until the count is answered, the ledger executes the
    transaction that the handler's engine has sent, and the handler is
    notified the hash and the receipt with the logs of the events
    emitted.  The result is the ledger afterwards and the response. *)
Definition store (proofs : ProofOfExistence.storage) (c : N) (h : hash) (text : string)
    : ProofOfExistence.storage * Facade.answer :=
  let waiting := Facade.notarize lib served (Facade.Text text) [CountReply 0 c] in
  match sent (Facade.engine waiting) with
  | [tx] =>
      (fst (execute proofs tx),
       Facade.reply (Facade.notarize lib served (Facade.Text text)
                       (CountReply 0 c :: accepted h (snd (execute proofs tx)))))
  | _ => (proofs, Facade.reply waiting)
  end.

Definition check (proofs : ProofOfExistence.storage) (c : N) (h : hash) (text : string)
    : ProofOfExistence.storage * Facade.answer :=
  let waiting := Facade.verify lib served (Facade.Text text) [CountReply 0 c] in
  match sent (Facade.engine waiting) with
  | [tx] =>
      (fst (execute proofs tx),
       Facade.reply (Facade.verify lib served (Facade.Text text)
                       (CountReply 0 c :: accepted h (snd (execute proofs tx)))))
  | _ => (proofs, Facade.reply waiting)
  end.

End Examples.

(* ===================================================================== *)
(** * Calls of the contract, one after the other *)
(* ===================================================================== *)

Module Chain.

Import ProofOfExistence.

(** A transaction that calls one of the two functions of the contract. *)
Inductive call :=
| Notarize (dataHash : string)
| Verify (dataHash : string).

Definition apply (proofs : storage) (c : call) : storage * list event :=
  match c with
  | Notarize dataHash => notarize proofs dataHash
  | Verify dataHash => fst (verify proofs dataHash)
  end.

(** The storage after the calls and the events emitted, in order. *)
Fixpoint run (proofs : storage) (calls : list call) : storage * list event :=
  match calls with
  | [] => (proofs, [])
  | c :: rest =>
      (fst (run (fst (apply proofs c)) rest),
       (snd (apply proofs c) ++ snd (run (fst (apply proofs c)) rest))%list)
  end.

Definition notarizes (dataHash : string) (c : call) : bool :=
  match c with
  | Notarize d => String.eqb d dataHash
  | Verify _ => false
  end.

(** The storage after texts have been stored through the handler of
    [notarize], one after the other, against the ledger that accepts at
    once; each comes with the count and the hash the ledger answers. *)
Definition stored (proofs : storage) (ops : list (N * Engine.hash * string)) : storage :=
  fold_left (fun p op => fst (Examples.store p (fst (fst op)) (snd (fst op)) (snd op)))
            ops proofs.

Definition stores (dataHash : string) (op : N * Engine.hash * string) : bool :=
  String.eqb (Sha256.digest (snd op)) dataHash.

End Chain.

(* ===================================================================== *)
(** * The task [deploy] of the script *)
(* ===================================================================== *)

Module Script.

Import Engine.

(** What the task writes: [console.log(contractAddress)], or a line of
    [log]. *)
Inductive output :=
| Print (text : option string)
| Logged (level message : string).

(** The body of [deploy] once the engine has settled: the
    [contractAddress] of what it resolved with is printed, which a hash
    does not have; a failure is logged. *)
Definition deploy_then (o : outcome) : list output :=
  match o with
  | Resolved (VReceipt receipt) => [Print (contractAddress receipt)]
  | Resolved (VHash _) => [Print None]
  | Failed error => [Logged "fail" (Js.toString error)]
  end.

Definition deploy (w : web3) (bin : string) (inputs : list input) : list output :=
  match result w (Facade.deploy_request bin) inputs with
  | None => []
  | Some o => deploy_then o
  end.

(** The lines that the engine logs. *)
Definition logged (t : list action) : list (string * string) :=
  omap (fun a => match a with Log level message => Some (level, message) | _ => None end) t.

(** The requests for the transaction count. *)
Definition counts (t : list action) : list string :=
  omap (fun a => match a with GetTransactionCount account => Some account | _ => None end) t.

(** The hashes whose receipt is asked for. *)
Definition polled (t : list action) : list (option hash) :=
  omap (fun a => match a with GetTransactionReceipt h => Some h | _ => None end) t.

(** A delivery that is neither a failure of the count nor the
    notification of an error. *)
Definition smooth (inp : input) : bool :=
  match inp with
  | CountFailure _ _ => false
  | Emit _ (Error _) => false
  | _ => true
  end.

(** The levels that [log] has a colour for: the keys of [colors]. *)
Definition colors : list string := ["fail"; "info"; "warn"].

(** What the event loop delivers to poller [j]. *)
Definition to_poller (j : nat) (inp : input) : bool :=
  match inp with
  | ReceiptReply j' _ | ReceiptFailure j' _ | TimerFired j' => Nat.eqb j' j
  | _ => false
  end.

(** An endpoint that refuses every transaction: invocation [i] is
    notified the first error, the next invocation the second one, and so
    on. *)
Fixpoint refusals (i : nat) (errors : list Js.error) : list input :=
  match errors with
  | [] => []
  | e :: rest => Emit i (Error e) :: refusals (S i) rest
  end.

End Script.

(* ===================================================================== *)
(** * The stand-alone server: its [sendTransaction] *)
(* ===================================================================== *)

Module Standalone.

Import Engine.

(** The stand-alone server has the account and the address of the
    contract written in, and calls the contract's methods only: there is
    no deployment, no [silent] argument, the handler of the hash polls
    for the receipt itself and the handler of the errors knows of no
    time-out.  The poller is the one of the script.  The field [silent]
    of a request is not read, and [a_nonce] is the nonce of the
    transaction an invocation has sent. *)

(** Calling [contract.methods[methodName]] when there is no such method. *)
Definition not_a_function : Js.error :=
  Js.Err "TypeError" "contract.methods[methodName] is not a function".

Definition build (w : web3) (q : request) (n : N) : Tx :=
  {| data := encodeABI w (Invocation (methodName q) (params q));
     gasLimit := Js.toHex 400000;
     gasPrice := Js.toHex 20000000000;
     nonce := Js.toHex n;
     to := if Js.truthy (options_address w) then options_address w else None |}.

(** The part of [sendTransaction] that runs as soon as it is called. *)
Definition sendTransaction (w : web3) (q : request) (lastNonce : option N)
    (st : state) : state :=
  match next_nonce lastNonce with
  | Some n =>
      if deploy w (methodName q) then
        {| attempts := attempts st ++
             [{| a_request := q; a_lastNonce := lastNonce; a_nonce := None;
                 a_txHash := None; a_promise := Rejected not_a_function |}];
           pollers := pollers st;
           trace := trace st |}
      else
        {| attempts := attempts st ++
             [{| a_request := q; a_lastNonce := lastNonce; a_nonce := Some n;
                 a_txHash := None; a_promise := Pending |}];
           pollers := pollers st;
           trace := trace st ++ [SendSignedTransaction (build w q n)] |}
  | None =>
      {| attempts := attempts st ++
           [{| a_request := q; a_lastNonce := lastNonce; a_nonce := None;
               a_txHash := None; a_promise := Pending |}];
         pollers := pollers st;
         trace := trace st ++ [GetTransactionCount (address w)] |}
  end.

(** [rpcCall.on('transactionHash', async hash => ...)] *)
Definition on_transactionHash (i : nat) (a : attempt) (h : hash) (st : state) : state :=
  let q := a_request a in
  let st := emit st [Log "info" ("Function: " +:+ methodName q +:+ "() " +:+ h)] in
  let st := update_attempt i (set_txHash h) st in
  let st := if immediate q then update_attempt i (settle (Fulfilled (VHash h))) st else st in
  pollTransaction i (Some h) st.

Definition retryable (text : string) : bool :=
  Js.includes text "known transaction" || Js.includes text "underpriced".

(** [rpcCall.on('error', ...)] *)
Definition on_error (w : web3) (i : nat) (a : attempt) (n : N) (e : Js.error)
    (st : state) : state :=
  let q := a_request a in
  let error := Js.toString e in
  if retryable error then
    let st := emit st
      [Log "info" ("Transaction known, retrying with nonce " +:+ Js.showN (Js.add1 n))] in
    let k := length (attempts st) in
    let st := sendTransaction w q (Some n) st in
    update_attempt i (settle (Follows k)) st
  else update_attempt i (settle (Rejected (Js.Str error))) st.

(** One turn of the event loop; the answer to a failed count and what is
    delivered to a poller are handled as in the script. *)
Definition step (w : web3) (st : state) (inp : input) : state :=
  match inp with
  | CountReply i n =>
      match attempts st !! i with
      | Some a =>
          match a_nonce a, a_promise a with
          | None, Pending =>
              if deploy w (methodName (a_request a))
              then update_attempt i (settle (Rejected not_a_function)) st
              else emit (update_attempt i (set_nonce n) st)
                        [SendSignedTransaction (build w (a_request a) n)]
          | _, _ => st
          end
      | None => st
      end
  | Emit i ev =>
      match attempts st !! i with
      | Some a =>
          match a_nonce a with
          | Some n =>
              match ev with
              | TransactionHash h => on_transactionHash i a h st
              | Receipt r => on_receipt i r st
              | Error e => on_error w i a n e st
              end
          | None => st
          end
      | None => st
      end
  | _ => Engine.step w st inp
  end.

Definition run (w : web3) (st : state) (inputs : list input) : state :=
  fold_left (step w) inputs st.

Definition submit (w : web3) (q : request) (inputs : list input) : state :=
  run w (sendTransaction w q None initial) inputs.

Definition result (w : web3) (q : request) (inputs : list input) : option outcome :=
  settled (submit w q inputs) 0.

(** The contract object and the account of the stand-alone server. *)
Definition the_web3 (encode : call -> string) : web3 :=
  {| address := "0xb0447e3e270e5595c30074f8c101233fa02b427d";
     options_address := Some "0x58df3b0e6cbf1ae0691c51322252b6a3d52aa6f2";
     methods := ProofOfExistence.methods;
     encodeABI := encode |}.

End Standalone.

(* ===================================================================== *)
(** * The page: the script of [index.html] *)
(* ===================================================================== *)

Module Page.

(** An entry of the log: its message, and the content and the classes of
    its status. *)
Record entry := {
  message : string;
  status : string;
  classes : list string
}.

Definition spinner : string :=
  "<i class=" +:+ Facade.quote +:+ "fas fa-cog fa-spin" +:+ Facade.quote +:+ "></i>".

(** [classList.add] *)
Definition add_class (c : string) (cs : list string) : list string :=
  if existsb (String.eqb c) cs then cs else (cs ++ [c])%list.

(** [createLogEntry(message)], and the three functions it returns. *)
Definition createLogEntry (message : string) : entry :=
  {| message := message; status := spinner; classes := ["status"; "load"] |}.

Definition ok (label : string) (e : entry) : entry :=
  {| message := message e; status := label; classes := add_class "ok" (classes e) |}.

Definition fail (label : string) (e : entry) : entry :=
  {| message := message e; status := label; classes := add_class "fail" (classes e) |}.

Definition tx (hash : string) (e : entry) : entry :=
  {| message := message e;
     status := "<a href=" +:+ Facade.quote +:+ "https://rinkeby.etherscan.io/tx/" +:+ hash
               +:+ Facade.quote +:+ " class=" +:+ Facade.quote +:+ "accent" +:+ Facade.quote
               +:+ " target=" +:+ Facade.quote +:+ "_blank" +:+ Facade.quote
               +:+ ">TRANSACTION</a>";
     classes := add_class "ok" (classes e) |}.

(** The two buttons. *)
Inductive kind := Notarize | Verify.

(** What [fetch] is called with: the value of the JSON body of the POST,
    or the URL of the GET, into which the text goes as it is. *)
Inductive request :=
| PostNotarize (value : string)
| GetVerify (url : string).

(** What comes back: [fetch] rejects, or there is a response, with
    [response.ok]; of the body, [text] is what [response.text()] gives
    and [fields] what destructuring [response.json()] gives, the
    truthiness of [notarized] and [txHash] as a template renders it, or
    nothing when that throws. *)
Inductive reply :=
| Unreachable
| Response (ok : bool) (text : string) (fields : option (bool * string)).

(** A call of [notarize] or [verify] that is waiting for [fetch]: its
    entry [sendEntry], by its position in the log, or none once the log
    has been emptied, and whether it has been answered. *)
Record flight := {
  f_kind : kind;
  f_entry : option nat;
  f_done : bool
}.

Record page := {
  input : string;
  count : string;
  log : list entry;
  flights : list flight;
  fetches : list request
}.

(** The page as it is loaded. *)
Definition initial : page :=
  {| input := EmptyString; count := "0 Chars"; log := []; flights := []; fetches := [] |}.

(** What happens to the page: the user edits the text, clicks a button,
    or the answer to the [i]-th call of [fetch] arrives. *)
Inductive event :=
| Input (value : string)
| Click (k : kind)
| Reply (i : nat) (r : reply).

(** [updateCount]; a text is the sequence of its code units. *)
Definition chars (value : string) : string :=
  Js.showN (N.of_nat (String.length value)) +:+ " Chars".

Definition detach (f : flight) : flight :=
  {| f_kind := f_kind f; f_entry := None; f_done := f_done f |}.

Definition finish (f : flight) : flight :=
  {| f_kind := f_kind f; f_entry := f_entry f; f_done := true |}.

(** [notarize] and [verify] up to [await fetch(...)]. *)
Definition click (k : kind) (p : page) : page :=
  {| input := input p;
     count := count p;
     log := [ok "OK" (createLogEntry "Building transaction");
             createLogEntry "Sending transaction"];
     flights := (map detach (flights p) ++ [{| f_kind := k; f_entry := Some 1%nat;
                                               f_done := false |}])%list;
     fetches := (fetches p ++
                 [match k with
                  | Notarize => PostNotarize (input p)
                  | Verify => GetVerify ("/verify?value=" +:+ input p)
                  end])%list |}.

(** [sendEntry.ok()] and [sendEntry.fail()]: seen in the log when the
    entry is still in it. *)
Definition on_entry (f : flight) (g : entry -> entry) (l : list entry) : list entry :=
  match f_entry f with
  | Some j => alter g j l
  | None => l
  end.

(** The rest of the [try] block, and the [catch] block. *)
Definition succeed (i : nat) (f : flight) (more : list entry) (p : page) : page :=
  {| input := EmptyString;
     count := count p;
     log := (on_entry f (ok "OK") (log p) ++ more)%list;
     flights := alter finish i (flights p);
     fetches := fetches p |}.

Definition give_in (i : nat) (f : flight) (p : page) : page :=
  {| input := input p;
     count := count p;
     log := on_entry f (fail "FAIL") (log p);
     flights := alter finish i (flights p);
     fetches := fetches p |}.

Definition answer (i : nat) (f : flight) (r : reply) (p : page) : page :=
  match r with
  | Response true text fields =>
      match f_kind f with
      | Notarize =>
          succeed i f [ok "OK" (createLogEntry "Cleaning up");
                       tx text (createLogEntry "Complete")] p
      | Verify =>
          match fields with
          | Some (notarized, txHash) =>
              succeed i f [ok "OK" (createLogEntry "Cleaning up");
                           (if (notarized : bool)
                            then ok "TRUE" (createLogEntry "Verified?")
                            else fail "FALSE" (createLogEntry "Verified?"));
                           tx txHash (createLogEntry "Complete")] p
          | None => give_in i f p
          end
      end
  | _ => give_in i f p
  end.

Definition step (p : page) (ev : event) : page :=
  match ev with
  | Input value =>
      {| input := value; count := chars value; log := log p;
         flights := flights p; fetches := fetches p |}
  | Click k => click k p
  | Reply i r =>
      match flights p !! i with
      | Some f => if f_done f then p else answer i f r p
      | None => p
      end
  end.

Definition run (p : page) (events : list event) : page := fold_left step events p.

(** The text that the user has typed last. *)
Definition typed (events : list event) : string :=
  fold_left (fun value ev => match ev with Input v => v | _ => value end)
            events EmptyString.

Definition is_input (ev : event) : bool :=
  match ev with Input _ => true | _ => false end.

End Page.

(* ===================================================================== *)
(** * Properties *)
(* ===================================================================== *)

Local Open Scope list_scope.

(** ** Numbers *)

Section NumberFacts.

Lemma add1_exact (n : N) : (n < 2 ^ 53)%N -> Js.add1 n = (n + 1)%N.
Proof. intros H. unfold Js.add1. apply N.ltb_lt in H. now rewrite H. Qed.

Lemma add1_le (n : N) : (n <= Js.add1 n)%N.
Proof.
  unfold Js.add1. destruct (n <? 2 ^ 53)%N; [lia |].
  destruct (n <? 2 ^ 54)%N; [| lia]. destruct (N.even (n / 2)); lia.
Qed.

Lemma add1_lt (n : N) : (n < 2 ^ 53)%N -> (n < Js.add1 n)%N.
Proof. intros H. rewrite add1_exact by exact H. lia. Qed.

Lemma add1_nonzero (n : N) : Js.add1 n <> 0%N.
Proof.
  unfold Js.add1. destruct (N.ltb_spec n (2 ^ 53)) as [H|H]; [lia |].
  assert (0 < 2 ^ 53)%N by reflexivity.
  destruct (n <? 2 ^ 54)%N; [| lia]. destruct (N.even (n / 2)); lia.
Qed.

(** From [2^53] on the sum does not move. *)
Example add1_stuck : Js.add1 (2 ^ 53) = (2 ^ 53)%N.
Proof. reflexivity. Qed.

Example add1_last_exact : Js.add1 (2 ^ 53 - 1) = (2 ^ 53)%N.
Proof. reflexivity. Qed.

(** [lastNonce + 1] taken [k] times, and where it is the sum. *)
Lemma iter_add1_succ (k : nat) (c : N) :
  Nat.iter (S k) Js.add1 c = Js.add1 (Nat.iter k Js.add1 c).
Proof. reflexivity. Qed.

Lemma iter_add1_le (k : nat) (c : N) : (c <= Nat.iter k Js.add1 c)%N.
Proof.
  induction k as [|k IH]; [cbn; lia |].
  rewrite iter_add1_succ. pose proof (add1_le (Nat.iter k Js.add1 c)). lia.
Qed.

(** Below [2^53] a nonce is left behind for good. *)
Lemma iter_add1_above (k : nat) (c : N) :
  (c < 2 ^ 53)%N -> (c < Nat.iter (S k) Js.add1 c)%N.
Proof.
  intros H. rewrite Nat.iter_succ_r.
  pose proof (add1_lt c H). pose proof (iter_add1_le k (Js.add1 c)). lia.
Qed.

Lemma iter_add1_exact (k : nat) (c : N) :
  (c + N.of_nat k <= 2 ^ 53)%N -> Nat.iter k Js.add1 c = (c + N.of_nat k)%N.
Proof.
  induction k as [|k IH]; intros H.
  - cbn. rewrite N.add_0_r. reflexivity.
  - rewrite iter_add1_succ, IH by lia. rewrite add1_exact by lia. lia.
Qed.

End NumberFacts.

(** ** Strings *)

Section StringFacts.

Lemma app_cons (x : ascii) (a b : string) : String x a +:+ b = String x (a +:+ b).
Proof. reflexivity. Qed.

Lemma app_nil_l (a : string) : EmptyString +:+ a = a.
Proof. reflexivity. Qed.

Lemma app_assoc_s (a b c : string) : (a +:+ b) +:+ c = a +:+ (b +:+ c).
Proof.
  induction a as [|x a IH]; [reflexivity |].
  now rewrite !app_cons, IH.
Qed.

Lemma app_empty_r (a : string) : a +:+ EmptyString = a.
Proof.
  induction a as [|x a IH]; [reflexivity |].
  now rewrite app_cons, IH.
Qed.

Lemma occurs_in_refl (s : string) : Js.occurs_in s s.
Proof. exists EmptyString, EmptyString. now rewrite app_nil_l, app_empty_r. Qed.

Lemma occurs_in_app_l (s t u : string) : Js.occurs_in s t -> Js.occurs_in s (t +:+ u).
Proof.
  intros (pre & post & ->). exists pre, (post +:+ u).
  now rewrite !app_assoc_s.
Qed.

Lemma occurs_in_app_r (s t u : string) : Js.occurs_in s t -> Js.occurs_in s (u +:+ t).
Proof.
  intros (pre & post & ->). exists (u +:+ pre), post.
  now rewrite !app_assoc_s.
Qed.

(** Every element of an array occurs in its [join]. *)
Lemma join_occurs (sep : string) (xs : list string) (x : string) :
  In x xs -> Js.occurs_in x (Js.join sep xs).
Proof.
  induction xs as [|y ys IH]; simpl; [tauto |].
  intros [-> | Hin].
  - destruct ys; [apply occurs_in_refl | apply occurs_in_app_l, occurs_in_refl].
  - destruct ys as [|z zs]; [destruct Hin |].
    apply occurs_in_app_r, occurs_in_app_r, IH, Hin.
Qed.

End StringFacts.

(** ** Start-up configuration *)

Section ConfigFacts.

Import Config.

Lemma is_missing_spec (env : environment) (key : string) :
  is_missing env key = true <-> env !! key = None \/ env !! key = Some EmptyString.
Proof.
  unfold is_missing, Js.truthy. destruct (env !! key) as [s|]; simpl.
  - rewrite negb_involutive. split.
    + intros H. apply String.eqb_eq in H. subst. now right.
    + intros [H | H]; [discriminate | injection H as ->; reflexivity].
  - split; [now left | reflexivity].
Qed.

Lemma missingKeys_spec (env : environment) (key : string) :
  In key (missingKeys env) <-> In key required /\ is_missing env key = true.
Proof. unfold missingKeys. apply filter_In. Qed.

(** With nothing missing the script goes on to its task. *)
Lemma main_starts (env : environment) (task : string) :
  missingKeys env = [] ->
  main env task = (if String.eqb task "deploy" then Deploying (destructure env)
                   else Serving (destructure env)).
Proof. intros H. unfold main, parseEnv. now rewrite H. Qed.

(** C8: if any required environment value is missing, the script stops
    at start-up, before the server is started, with one error whose
    message is the list of all the missing required names joined by
    [", "] followed by [" environment variables must be set"]: every
    missing required name is in that list and occurs in the message. *)
Theorem parseEnv_reports_all_missing (env : environment) (task : string) :
  (exists key, In key required /\ is_missing env key = true) ->
  exists message,
    parseEnv env = inl message /\
    main env task = Aborted message /\
    serves (main env task) = false /\
    message = Js.join ", " (missingKeys env) +:+ " environment variables must be set" /\
    forall key, In key required -> is_missing env key = true ->
                In key (missingKeys env) /\ Js.occurs_in key message.
Proof.
  intros (key0 & Hreq0 & Hmiss0).
  assert (Hin0 : In key0 (missingKeys env)) by (apply missingKeys_spec; auto).
  exists (error_message (missingKeys env)).
  assert (Hparse : parseEnv env = inl (error_message (missingKeys env))).
  { unfold parseEnv. destruct (missingKeys env); [destruct Hin0 | reflexivity]. }
  split; [exact Hparse |].
  unfold main. rewrite Hparse. repeat split.
  - apply missingKeys_spec; auto.
  - unfold error_message. apply occurs_in_app_l, join_occurs, missingKeys_spec; auto.
Qed.

Lemma parseEnv_reports_all_missing_witness :
  let env : environment := {[ "ETH_ADDRESS" := "0xb0447e3e" ]} in
  exists message,
    parseEnv env = inl message /\
    main env "serve" = Aborted message /\
    serves (main env "serve") = false /\
    message = Js.join ", " (missingKeys env) +:+ " environment variables must be set" /\
    forall key, In key required -> is_missing env key = true ->
                In key (missingKeys env) /\ Js.occurs_in key message.
Proof.
  apply (parseEnv_reports_all_missing {[ "ETH_ADDRESS" := "0xb0447e3e" ]} "serve").
  exists "ETH_KEYFILE". split; [simpl; tauto | vm_compute; reflexivity].
Defined.

Example parseEnv_three_missing :
  parseEnv {[ "ETH_ADDRESS" := "0xb0447e3e" ]}
  = inl "ETH_KEYFILE, ETH_PASSWORD, ETH_PROVIDER environment variables must be set".
Proof. vm_compute. reflexivity. Qed.

Example parseEnv_empty_counts_as_missing :
  parseEnv (<[ "ETH_PASSWORD" := EmptyString ]> (<[ "ETH_KEYFILE" := "{}" ]>
           (<[ "ETH_PROVIDER" := "http://localhost:8545" ]> {[ "ETH_ADDRESS" := "0xb0447e3e" ]})))
  = inl "ETH_PASSWORD environment variables must be set".
Proof. vm_compute. reflexivity. Qed.

End ConfigFacts.

(** ** The digest *)

Section DigestFacts.

Import Sha256.

Lemma hexdigit_is_hex (n : N) : is_hex (hexdigit n) = true.
Proof.
  destruct n as [|p]; [reflexivity |].
  do 5 (try destruct p as [p|p|]); reflexivity.
Qed.

Lemma hex32_length (w : N) (rest : string) :
  String.length (hex32 w rest) = (8 + String.length rest)%nat.
Proof. reflexivity. Qed.

Lemma hex_length (r : registers) : String.length (hex r) = 64%nat.
Proof. reflexivity. Qed.

Lemma hex_is_hex (r : registers) :
  forallb is_hex (list_ascii_of_string (hex r)) = true.
Proof.
  unfold hex, hex32, nibble. cbn [list_ascii_of_string forallb].
  rewrite !hexdigit_is_hex. reflexivity.
Qed.

Example round_constants :
  length K = 64%nat /\ nth 0 K 0%N = 0x428a2f98%N /\ nth 63 K 0%N = 0xc67178f2%N.
Proof. repeat split; reflexivity. Qed.

Example initial_registers : ra init = 0x6a09e667%N /\ rh init = 0x5be0cd19%N.
Proof. split; reflexivity. Qed.

Example digest_hello :
  digest "hello" = "2cf24dba5fb0a30e26e83b2ac5b9e29e1b161e5c1fa7425e73043362938b9824".
Proof. vm_compute. reflexivity. Qed.

Example digest_empty :
  digest EmptyString = "e3b0c44298fc1c149afbf4c8996fb92427ae41e4649b934ca495991b7852b855".
Proof. vm_compute. reflexivity. Qed.

Example digest_two_blocks :
  digest "abcdbcdecdefdefgefghfghighijhijkijkljklmklmnlmnomnopnopq"
  = "248d6a61d20638b8e5c026930c3e6039a33ce45964ff2167f6ecedd419db06c1".
Proof. vm_compute. reflexivity. Qed.

(** C7: the digest is a function of the text (equal texts give equal
    digests), it is always a string of 64 lower-case hexadecimal
    characters, and the two handlers compute it in the same way: for a
    text [t], [notarize] and [verify] both hand [digest t] to the engine
    as the only argument of the operation.  Nothing is said of distinct
    texts. *)
Theorem digest_deterministic_fixed_length (t : string) :
  (forall t', t' = t -> digest t' = digest t) /\
  String.length (digest t) = 64%nat /\
  forallb is_hex (list_ascii_of_string (digest t)) = true /\
  (forall lib, Facade.valueHash lib (Facade.Text t) = inr (digest t)) /\
  (forall lib w inputs,
      Facade.engine (Facade.notarize lib w (Facade.Text t) inputs)
      = Engine.submit w (Facade.notarize_request (digest t)) inputs /\
      Facade.engine (Facade.verify lib w (Facade.Text t) inputs)
      = Engine.submit w (Facade.verify_request (digest t)) inputs) /\
  Engine.params (Facade.notarize_request (digest t)) = [Engine.PString (digest t)] /\
  Engine.params (Facade.verify_request (digest t)) = [Engine.PString (digest t)].
Proof.
  split; [intros t' ->; reflexivity |].
  split; [apply hex_length |].
  split; [apply hex_is_hex |].
  split; [reflexivity |].
  split; [| split; reflexivity].
  intros lib w inputs. unfold Facade.notarize, Facade.verify. cbn [Facade.valueHash].
  split.
  - destruct (Engine.settled _ 0); reflexivity.
  - destruct (Engine.settled _ 0); reflexivity.
Qed.

End DigestFacts.

(** ** The engine: how one turn of the event loop changes the invocations *)

Section EngineSteps.

Import Engine Reasoning.

Variable w : web3.

Lemma next_nonce_some (n : N) : next_nonce (Some n) = Some (Js.add1 n).
Proof.
  unfold next_nonce.
  destruct (N.eqb_spec (Js.add1 n) 0) as [H0|H0]; [| reflexivity].
  now apply add1_nonzero in H0.
Qed.

Lemma step_attempts (st : state) (inp : input) :
  attempts_step (attempts st) (attempts (step w st inp)).
Proof.
  destruct inp as [i n | i e | i ev | j r | j e | j]; cbn [step].
  - destruct (attempts st !! i) as [a|] eqn:Ha; [| apply as_same].
    destruct (a_nonce a) eqn:Hn; [apply as_same |].
    destruct (a_promise a) eqn:Hp; try apply as_same.
    cbn. eapply as_nonce; eauto.
  - destruct (attempts st !! i) as [a|] eqn:Ha; [| apply as_same].
    destruct (a_nonce a) eqn:Hn; [apply as_same |].
    cbn. apply as_settle. exact I.
  - destruct (attempts st !! i) as [a|] eqn:Ha; [| apply as_same].
    destruct (a_nonce a) as [n|] eqn:Hn; [| apply as_same].
    destruct ev as [h | r | e].
    + unfold on_transactionHash.
      destruct (immediate (a_request a)) eqn:Him; cbn.
      * eapply as_early; eauto.
      * eapply as_hash; eauto.
    + cbn. apply as_settle. exact I.
    + unfold on_error. destruct (classify (Js.toString e)).
      * cbn. apply as_same.
      * unfold sendTransaction. rewrite next_nonce_some. cbn.
        eapply (as_retry _ i a n); eauto.
      * cbn. apply as_settle. exact I.
  - destruct (pollers st !! j) as [p|] eqn:Hp; [| apply as_same].
    destruct (p_phase p), r; try apply as_same.
    cbn. apply as_settle. exact I.
  - destruct (pollers st !! j) as [p|] eqn:Hp; [| apply as_same].
    destruct (p_phase p); apply as_same.
  - destruct (pollers st !! j) as [p|] eqn:Hp; [| apply as_same].
    destruct (p_phase p); apply as_same.
Qed.

Lemma evolves_refl (a : attempt) : evolves a a.
Proof. repeat split; auto. Qed.

Lemma evolves_trans (a b c : attempt) : evolves a b -> evolves b c -> evolves a c.
Proof.
  intros (R1 & L1 & N1 & P1) (R2 & L2 & N2 & P2). repeat split.
  - congruence.
  - congruence.
  - auto.
  - intros H. rewrite P2; [auto | rewrite P1; auto].
Qed.

Lemma evolves_settle (p : promise) (a : attempt) : evolves a (settle p a).
Proof.
  unfold settle. destruct (a_promise a) eqn:Hp; repeat split; auto.
  cbn. congruence.
Qed.

Lemma evolves_set_txHash (h : hash) (a : attempt) : evolves a (set_txHash h a).
Proof. repeat split; auto. Qed.

Lemma evolves_set_nonce (n : N) (a : attempt) :
  a_nonce a = None -> evolves a (set_nonce n a).
Proof. intros H. repeat split; auto. cbn. congruence. Qed.

Lemma attempts_step_evolves (l l' : list attempt) (i : nat) (a : attempt) :
  attempts_step l l' -> l !! i = Some a ->
  exists a', l' !! i = Some a' /\ evolves a a'.
Proof.
  intros Hs Ha. destruct Hs as [| j b n Hb Hn Hp | j p Hf | j b h Hb | j b h Hb Him | j b n Hb Hn].
  - eauto using evolves_refl.
  - rewrite list_lookup_alter. case_decide; subst.
    + rewrite Ha. cbn. eexists; split; eauto. apply evolves_set_nonce. congruence.
    + eauto using evolves_refl.
  - rewrite list_lookup_alter. case_decide; subst.
    + rewrite Ha. cbn. eauto using evolves_settle.
    + eauto using evolves_refl.
  - rewrite list_lookup_alter. case_decide; subst.
    + rewrite Ha. cbn. eauto using evolves_set_txHash.
    + eauto using evolves_refl.
  - destruct (decide (j = i)) as [-> | Hne].
    + rewrite !list_lookup_alter_eq, Ha. cbn. eexists; split; eauto.
      eapply evolves_trans; [apply evolves_set_txHash | apply evolves_settle].
    + rewrite !list_lookup_alter_ne by done. eauto using evolves_refl.
  - rewrite list_lookup_alter. case_decide; subst.
    + rewrite (lookup_app_l_Some _ _ _ _ Ha). cbn. eauto using evolves_settle.
    + rewrite (lookup_app_l_Some _ _ _ _ Ha). eauto using evolves_refl.
Qed.

Lemma step_evolves (st : state) (inp : input) (i : nat) (a : attempt) :
  attempts st !! i = Some a ->
  exists a', attempts (step w st inp) !! i = Some a' /\ evolves a a'.
Proof. apply attempts_step_evolves, step_attempts. Qed.

Lemma run_evolves (inputs : list input) (st : state) (i : nat) (a : attempt) :
  attempts st !! i = Some a ->
  exists a', attempts (run w st inputs) !! i = Some a' /\ evolves a a'.
Proof.
  revert st a. induction inputs as [|inp inputs IH]; intros st a Ha.
  - eauto using evolves_refl.
  - destruct (step_evolves st inp i a Ha) as (b & Hb & Hab).
    destruct (IH _ _ Hb) as (c & Hc & Hbc).
    exists c. split; [exact Hc | eapply evolves_trans; eauto].
Qed.

Lemma run_app (st : state) (xs ys : list input) :
  run w st (xs ++ ys) = run w (run w st xs) ys.
Proof. unfold run. apply fold_left_app. Qed.

End EngineSteps.

(** ** The engine: what holds of the invocations of one logical request *)

Section EngineInvariant.

Import Engine Reasoning.

Variable w : web3.
Variable q : request.

Local Abbreviation consistent := (consistent q).

Lemma lookup_alter_Some {A : Type} (f : A -> A) (l : list A) (i j : nat) (x : A) :
  alter f i l !! j = Some x ->
  exists y, l !! j = Some y /\ ((j = i /\ x = f y) \/ (j <> i /\ x = y)).
Proof.
  rewrite list_lookup_alter. case_decide as Hd.
  - subst. destruct (l !! j) as [y|]; [| discriminate].
    cbn. intros [= <-]. eauto.
  - intros H. exists x. split; [exact H |]. right. split; congruence.
Qed.

(** A change of one invocation that creates no new link keeps the
    invocations consistent. *)
Lemma consistent_alter (l : list attempt) (i : nat) (f : attempt -> attempt) :
  consistent l ->
  (forall a, l !! i = Some a ->
     a_request (f a) = a_request a /\
     a_lastNonce (f a) = a_lastNonce a /\
     (forall k, a_promise (f a) = Follows k -> a_promise a = Follows k) /\
     (forall n, a_nonce a = Some n -> a_nonce (f a) = Some n) /\
     (a_nonce (f a) = None -> a_nonce a = None)) ->
  consistent (alter f i l).
Proof.
  intros [R F N A] Hf. split.
  - intros j a' Hj. apply lookup_alter_Some in Hj as (a & Ha & [[-> ->] | [_ ->]]).
    + destruct (Hf a Ha) as (-> & _). eauto.
    + eauto.
  - intros j a' k Hj Hp. rewrite length_alter.
    apply lookup_alter_Some in Hj as (a & Ha & [[-> ->] | [Hne ->]]).
    + destruct (Hf a Ha) as (_ & _ & HF & HN & _).
      destruct (F i a k Ha (HF k Hp)) as (Hlt & n & Hn & Hb).
      split; [exact Hlt |]. exists n. split; [auto |].
      intros b Hk. rewrite list_lookup_alter_ne in Hk by lia. auto.
    + destruct (F j a k Ha Hp) as (Hlt & n & Hn & Hb).
      split; [exact Hlt |]. exists n. split; [auto |].
      intros b' Hk. apply lookup_alter_Some in Hk as (b & Hk & [[-> ->] | [_ ->]]).
      * destruct (Hf b Hk) as (_ & -> & _). auto.
      * auto.
  - intros j a' m Hj Hl.
    apply lookup_alter_Some in Hj as (a & Ha & [[-> ->] | [_ ->]]).
    + destruct (Hf a Ha) as (_ & HL & _ & HN & _). rewrite HL in Hl. eauto.
    + eauto.
  - intros j a' Hj Hn. rewrite length_alter.
    apply lookup_alter_Some in Hj as (a & Ha & [[-> ->] | [_ ->]]).
    + destruct (Hf a Ha) as (_ & _ & _ & _ & HN). eauto.
    + eauto.
Qed.

(** A retry appended to the invocations. *)
Lemma consistent_retry (l : list attempt) (i : nat) (a : attempt) (n : N) :
  consistent l -> l !! i = Some a -> a_nonce a = Some n ->
  consistent (l ++ [retry_of a n]).
Proof.
  intros [R F N A] Ha Hn. split.
  - intros j b Hj. apply lookup_app_Some in Hj as [Hj | [_ Hj]]; [eauto |].
    apply list_lookup_singleton_Some in Hj as [_ <-]. cbn. eauto.
  - intros j b k Hj Hp. rewrite length_app. cbn [length].
    apply lookup_app_Some in Hj as [Hj | [_ Hj]].
    + destruct (F j b k Hj Hp) as (Hlt & m & Hm & Hb).
      split; [lia |]. exists m. split; [exact Hm |].
      intros c Hc. rewrite lookup_app_l in Hc by lia. auto.
    + apply list_lookup_singleton_Some in Hj as [_ <-]. discriminate.
  - intros j b m Hj Hl. apply lookup_app_Some in Hj as [Hj | [_ Hj]]; [eauto |].
    apply list_lookup_singleton_Some in Hj as [_ <-]. cbn in *. congruence.
  - intros j b Hj Hb. apply lookup_app_Some in Hj as [Hj | [_ Hj]].
    + pose proof (A j b Hj Hb) as Hone.
      pose proof (lookup_lt_Some _ _ _ Ha) as Hi.
      pose proof (lookup_lt_Some _ _ _ Hj) as Hj'.
      assert (j = i) by lia. subst. congruence.
    + apply list_lookup_singleton_Some in Hj as [_ <-]. discriminate.
Qed.

(** The promise of an invocation resolved with the promise of its retry. *)
Lemma consistent_link (l : list attempt) (i k : nat) (a : attempt) (n : N) :
  consistent l -> l !! i = Some a -> a_nonce a = Some n ->
  (i < k < length l)%nat ->
  (forall b, l !! k = Some b -> a_lastNonce b = Some n) ->
  consistent (alter (settle (Follows k)) i l).
Proof.
  intros C Ha Hn Hk Hb.
  destruct (a_promise a) eqn:Hp.
  2-4: apply consistent_alter; [exact C |];
       intros a0 Ha0; assert (a0 = a) by congruence; subst a0;
       unfold settle; rewrite Hp; repeat split; auto; intros; congruence.
  destruct C as [R F N A]. split.
  - intros j a' Hj. apply lookup_alter_Some in Hj as (a0 & Ha0 & [[-> ->] | [_ ->]]).
    + replace (a_request (settle (Follows k) a0)) with (a_request a0); [eauto |].
      unfold settle. destruct (a_promise a0); reflexivity.
    + eauto.
  - intros j a' k' Hj Hp'. rewrite length_alter.
    apply lookup_alter_Some in Hj as (a0 & Ha0 & [[-> ->] | [Hne ->]]).
    + assert (a0 = a) by congruence. subst a0.
      unfold settle in Hp'. rewrite Hp in Hp'. cbn in Hp'. injection Hp' as <-.
      split; [exact Hk |]. exists n. split.
      * unfold settle. rewrite Hp. exact Hn.
      * intros b Hk'. rewrite list_lookup_alter_ne in Hk' by lia. auto.
    + destruct (F j a0 k' Ha0 Hp') as (Hlt & m & Hm & Hb').
      split; [exact Hlt |]. exists m. split; [exact Hm |].
      intros b' Hk'. apply lookup_alter_Some in Hk' as (b & Hk' & [[-> ->] | [_ ->]]).
      * replace (a_lastNonce (settle (Follows k) b)) with (a_lastNonce b); [auto |].
        unfold settle. destruct (a_promise b); reflexivity.
      * auto.
  - intros j a' m Hj Hl.
    apply lookup_alter_Some in Hj as (a0 & Ha0 & [[-> ->] | [_ ->]]); [| eauto].
    replace (a_nonce (settle (Follows k) a0)) with (a_nonce a0).
    + apply (N i a0 m Ha0). revert Hl. unfold settle. destruct (a_promise a0); auto.
    + unfold settle. destruct (a_promise a0); reflexivity.
  - intros j a' Hj Hn'. rewrite length_alter.
    apply lookup_alter_Some in Hj as (a0 & Ha0 & [[-> ->] | [_ ->]]); [| eauto].
    apply (A i a0 Ha0). revert Hn'. unfold settle. destruct (a_promise a0); auto.
Qed.

Lemma settle_final_keeps (p : promise) (a : attempt) :
  final p ->
  a_request (settle p a) = a_request a /\
  a_lastNonce (settle p a) = a_lastNonce a /\
  (forall k, a_promise (settle p a) = Follows k -> a_promise a = Follows k) /\
  (forall n, a_nonce a = Some n -> a_nonce (settle p a) = Some n) /\
  (a_nonce (settle p a) = None -> a_nonce a = None).
Proof.
  intros Hf. unfold settle.
  destruct (a_promise a) eqn:Hp; repeat split; auto; cbn; try congruence.
  intros k ->. destruct Hf.
Qed.

Lemma consistent_step (l l' : list attempt) :
  attempts_step l l' -> consistent l -> consistent l'.
Proof.
  intros Hs C.
  destruct Hs as [| i a n Ha Hn Hp | i p Hf | i a h Ha | i a h Ha Him | i a n Ha Hn].
  - exact C.
  - apply consistent_alter; [exact C |]. intros a0 Ha0.
    assert (a0 = a) by congruence. subst a0.
    repeat split; auto; cbn; congruence.
  - apply consistent_alter; [exact C |]. intros a0 _. now apply settle_final_keeps.
  - apply consistent_alter; [exact C |]. intros a0 _. repeat split; auto.
  - apply consistent_alter; [apply consistent_alter; [exact C |] |].
    + intros a0 _. repeat split; auto.
    + intros a0 _. unfold settle.
      destruct (a_promise a0) eqn:Hp; repeat split; auto; cbn; congruence.
  - pose proof (lookup_lt_Some _ _ _ Ha) as Hi.
    apply (consistent_link _ i _ a n).
    + eapply consistent_retry; eauto.
    + now apply lookup_app_l_Some.
    + exact Hn.
    + rewrite length_app. cbn. lia.
    + intros b Hb. rewrite lookup_app_r in Hb by lia.
      replace (length l - length l)%nat with 0%nat in Hb by lia.
      cbn in Hb. injection Hb as <-. reflexivity.
Qed.

Lemma consistent_fresh :
  consistent (attempts (sendTransaction w q None initial)).
Proof.
  cbn. split.
  - intros i a Hi. apply list_lookup_singleton_Some in Hi as [_ <-]. cbn. auto.
  - intros i a k Hi. apply list_lookup_singleton_Some in Hi as [_ <-]. discriminate.
  - intros i a m Hi. apply list_lookup_singleton_Some in Hi as [_ <-]. discriminate.
  - reflexivity.
Qed.

Lemma consistent_run (inputs : list input) (st : state) :
  consistent (attempts st) -> consistent (attempts (run w st inputs)).
Proof.
  revert st. induction inputs as [|inp inputs IH]; intros st C; [exact C |].
  cbn. apply IH. eapply consistent_step; [apply step_attempts | exact C].
Qed.

Lemma consistent_submit (inputs : list input) :
  consistent (attempts (submit w q inputs)).
Proof. apply consistent_run, consistent_fresh. Qed.

End EngineInvariant.

(** ** The engine: the outcome of a promise *)

Section EngineOutcome.

Import Engine Reasoning.

Variable w : web3.
Variable q : request.

Lemma settled_in_mono (l : list attempt) (f f' : nat) (i : nat) (o : outcome) :
  settled_in f l i = Some o -> (f <= f')%nat -> settled_in f' l i = Some o.
Proof.
  revert f' i. induction f as [|f IH]; intros f' i H Hle; [discriminate |].
  destruct f' as [|f']; [lia |].
  cbn in *. destruct (l !! i) as [a|]; [| discriminate].
  destruct (a_promise a); auto. apply IH; [exact H | lia].
Qed.

(** Links point forward, so as many unfoldings as there are invocations
    reach the end of every chain of links. *)
Lemma settled_in_enough (l : list attempt) :
  consistent q l ->
  forall f i, (length l - i <= f)%nat -> settled_in f l i = settled_in (S f) l i.
Proof.
  intros C. induction f as [|f IH]; intros i Hf.
  - cbn. rewrite (lookup_ge_None_2 l i) by lia. reflexivity.
  - change (settled_in (S (S f)) l i) with
      (match l !! i with
       | None => None
       | Some a => match a_promise a with
                   | Pending => None
                   | Fulfilled v => Some (Resolved v)
                   | Rejected e => Some (Failed e)
                   | Follows k => settled_in (S f) l k
                   end
       end).
    cbn [settled_in]. destruct (l !! i) as [a|] eqn:Ha; [| reflexivity].
    destruct (a_promise a) eqn:Hp; try reflexivity.
    destruct (follows_later q l C i a k Ha Hp) as (Hlt & _).
    apply IH. lia.
Qed.

Lemma settled_unfold (st : state) (i : nat) :
  consistent q (attempts st) ->
  settled st i =
  match attempts st !! i with
  | None => None
  | Some a =>
      match a_promise a with
      | Pending => None
      | Fulfilled v => Some (Resolved v)
      | Rejected e => Some (Failed e)
      | Follows k => settled st k
      end
  end.
Proof.
  intros C. unfold settled.
  destruct (attempts st !! i) as [a|] eqn:Ha.
  - pose proof (lookup_lt_Some _ _ _ Ha) as Hi.
    destruct (length (attempts st)) as [|f] eqn:Hlen; [lia |].
    cbn [settled_in]. rewrite Ha.
    destruct (a_promise a) eqn:Hp; try reflexivity.
    destruct (follows_later q _ C i a k Ha Hp) as (Hlt & _).
    apply settled_in_enough; [exact C | lia].
  - destruct (length (attempts st)); cbn; [reflexivity | now rewrite Ha].
Qed.

Lemma settled_pending (st : state) (i : nat) (a : attempt) :
  attempts st !! i = Some a -> a_promise a = Pending -> settled st i = None.
Proof.
  intros Ha Hp. unfold settled.
  destruct (length (attempts st)); cbn; [reflexivity |]. now rewrite Ha, Hp.
Qed.

Lemma settled_fulfilled (st : state) (i : nat) (a : attempt) (v : value) :
  attempts st !! i = Some a -> a_promise a = Fulfilled v ->
  settled st i = Some (Resolved v).
Proof.
  intros Ha Hp. unfold settled. pose proof (lookup_lt_Some _ _ _ Ha).
  destruct (length (attempts st)); [lia |]. cbn. now rewrite Ha, Hp.
Qed.

Lemma settled_rejected (st : state) (i : nat) (a : attempt) (e : Js.error) :
  attempts st !! i = Some a -> a_promise a = Rejected e ->
  settled st i = Some (Failed e).
Proof.
  intros Ha Hp. unfold settled. pose proof (lookup_lt_Some _ _ _ Ha).
  destruct (length (attempts st)); [lia |]. cbn. now rewrite Ha, Hp.
Qed.

(** A promise that is settled stays as it is. *)
Lemma settled_in_kept (l l' : list attempt) :
  (forall i a, l !! i = Some a -> exists a', l' !! i = Some a' /\ evolves a a') ->
  forall f i o, settled_in f l i = Some o -> settled_in f l' i = Some o.
Proof.
  intros He. induction f as [|f IH]; intros i o H; [discriminate |].
  cbn in *. destruct (l !! i) as [a|] eqn:Ha; [| discriminate].
  destruct (He i a Ha) as (a' & -> & (_ & _ & _ & Hp)).
  destruct (a_promise a) eqn:Hpa; try discriminate; rewrite Hp by discriminate; auto.
Qed.

Lemma evolution_length (l l' : list attempt) :
  (forall i a, l !! i = Some a -> exists a', l' !! i = Some a' /\ evolves a a') ->
  (length l <= length l')%nat.
Proof.
  intros He. destruct l as [|a0 l0] eqn:El; [cbn; lia |]. rewrite <- El in *.
  assert (Hlast : is_Some (l !! (length l - 1)%nat)).
  { apply lookup_lt_is_Some. subst l. cbn. lia. }
  destruct Hlast as (a & Ha). destruct (He _ _ Ha) as (a' & Ha' & _).
  apply lookup_lt_Some in Ha'. lia.
Qed.

Lemma settled_kept (st : state) (inputs : list input) (i : nat) (o : outcome) :
  settled st i = Some o -> settled (run w st inputs) i = Some o.
Proof.
  intros H. unfold settled in *.
  assert (He : forall i a, attempts st !! i = Some a ->
                 exists a', attempts (run w st inputs) !! i = Some a' /\ evolves a a')
    by (intros; now apply run_evolves).
  eapply settled_in_mono.
  - eapply settled_in_kept; eauto.
  - now apply evolution_length.
Qed.

(** A promise has the outcome of the promise it stands for. *)
Lemma stands_for_settled (st : state) (i j : nat) :
  consistent q (attempts st) -> stands_for (attempts st) i j ->
  settled st i = settled st j.
Proof.
  intros C H. induction H as [i | i a k j Ha Hp _ IH]; [reflexivity |].
  rewrite (settled_unfold st i C), Ha, Hp. exact IH.
Qed.

Lemma stands_for_kept (l l' : list attempt) (i j : nat) :
  (forall i a, l !! i = Some a -> exists a', l' !! i = Some a' /\ evolves a a') ->
  stands_for l i j -> stands_for l' i j.
Proof.
  intros He H. induction H as [i | i a k j Ha Hp _ IH]; [constructor |].
  destruct (He i a Ha) as (a' & Ha' & (_ & _ & _ & Hk)).
  eapply stands_further; [exact Ha' | | exact IH].
  rewrite Hk; [exact Hp | congruence].
Qed.

Lemma stands_for_run (st : state) (inputs : list input) (i j : nat) :
  stands_for (attempts st) i j -> stands_for (attempts (run w st inputs)) i j.
Proof. apply stands_for_kept. intros. now apply run_evolves. Qed.

Lemma stands_for_step (st : state) (inp : input) (i j : nat) :
  stands_for (attempts st) i j -> stands_for (attempts (step w st inp)) i j.
Proof. apply (stands_for_run st [inp]). Qed.

Lemma stands_for_trans (l : list attempt) (i j k : nat) :
  stands_for l i j -> stands_for l j k -> stands_for l i k.
Proof.
  intros H1 H2. induction H1 as [i | i a k' j Ha Hp _ IH]; [exact H2 |].
  eapply stands_further; eauto.
Qed.

End EngineOutcome.

(** ** The pattern matching on the error text *)

Section ErrorText.

Import Engine.

Lemma substring_prefix (p s : string) :
  substring 0 (String.length p) s = p -> exists post, s = p +:+ post.
Proof.
  revert s. induction p as [|c p IH]; intros s H.
  - exists s. reflexivity.
  - destruct s as [|c' s]; [discriminate |].
    cbn in H. injection H as -> H. destruct (IH s H) as (post & ->).
    exists post. reflexivity.
Qed.

Lemma substring_occurs (p s : string) (m : nat) :
  substring m (String.length p) s = p -> Js.occurs_in p s.
Proof.
  revert s. induction m as [|m IH]; intros s H.
  - destruct (substring_prefix p s H) as (post & ->).
    exists EmptyString, post. reflexivity.
  - destruct s as [|c s].
    + cbn in H. subst p. exists EmptyString, EmptyString. reflexivity.
    + cbn in H. destruct (IH s H) as (pre & post & ->).
      exists (String c pre), post. reflexivity.
Qed.

Lemma substring_of_prefix (p post : string) :
  substring 0 (String.length p) (p +:+ post) = p.
Proof.
  induction p as [|c p IH].
  - cbn. destruct post; reflexivity.
  - rewrite app_cons. cbn. now rewrite IH.
Qed.

Lemma substring_of_occurrence (pre p post : string) :
  substring (String.length pre) (String.length p) (pre +:+ p +:+ post) = p.
Proof.
  induction pre as [|c pre IH].
  - rewrite app_nil_l. apply substring_of_prefix.
  - rewrite app_cons. cbn. exact IH.
Qed.

(** [s.indexOf(p) > -1] says that [p] occurs in [s]. *)
Lemma includes_spec (s p : string) :
  p <> EmptyString -> (Js.includes s p = true <-> Js.occurs_in p s).
Proof.
  intros Hp. unfold Js.includes, Js.indexOf.
  destruct (index 0 p s) as [k|] eqn:Hi.
  - split; intros _.
    + eapply substring_occurs, index_correct1, Hi.
    + apply Z.gtb_lt. lia.
  - split; [discriminate |].
    intros (pre & post & ->). exfalso.
    apply (index_correct3 0 (String.length pre) p _ Hi Hp); [lia |].
    apply substring_of_occurrence.
Qed.


Lemma classify_retryable (text : string) :
  Js.includes text "within 50 blocks" = false ->
  Js.includes text "known transaction" || Js.includes text "underpriced" = true ->
  classify text = Retryable.
Proof. intros H1 H2. unfold classify. now rewrite H1, H2. Qed.

Lemma classify_fatal (text : string) :
  Js.includes text "within 50 blocks" = false ->
  Js.includes text "known transaction" = false ->
  Js.includes text "underpriced" = false ->
  classify text = Fatal.
Proof. intros H1 H2 H3. unfold classify. now rewrite H1, H2, H3. Qed.

Example classify_underpriced :
  classify (Js.toString (Js.Err "Error" "Returned error: replacement transaction underpriced"))
  = Retryable.
Proof. reflexivity. Qed.

Example classify_known :
  classify "Error: Returned error: known transaction: 5f0a" = Retryable.
Proof. reflexivity. Qed.

Example classify_timeout :
  classify "Error: Transaction was not mined within 50 blocks, please make sure your transaction was properly sent."
  = TimedOut.
Proof. reflexivity. Qed.

Example classify_funds : classify "insufficient funds" = Fatal.
Proof. reflexivity. Qed.

End ErrorText.

(** ** The engine: what each handler does *)

Section EngineHandlers.

Import Engine Reasoning.

Variable w : web3.

Lemma build_ext (q q' : request) (n : N) :
  methodName q = methodName q' -> params q = params q' -> build w q n = build w q' n.
Proof. intros Hm Hp. unfold build, call_of. now rewrite Hm, Hp. Qed.

(** A notification of a retryable error: the handler logs, calls
    [sendTransaction] with the nonce of this invocation as [lastNonce],
    and resolves its promise with the promise of that call. *)
Lemma step_retry (st : state) (i : nat) (a : attempt) (n : N) (e : Js.error) :
  attempts st !! i = Some a -> a_nonce a = Some n ->
  classify (Js.toString e) = Retryable ->
  step w st (Emit i (Error e)) =
  {| attempts := alter (settle (Follows (length (attempts st)))) i
                       (attempts st ++ [retry_of a n]);
     pollers := pollers st;
     trace := (trace st ++
               info (a_request a)
                    ("Transaction known, retrying with nonce " +:+ Js.showN (Js.add1 n))) ++
              [SendSignedTransaction (build w (a_request (retry_of a n)) (Js.add1 n))] |}.
Proof.
  intros Ha Hn Hc. cbn [step]. rewrite Ha, Hn. unfold on_error. rewrite Hc.
  unfold sendTransaction. rewrite next_nonce_some. reflexivity.
Qed.

(** A notification of a fatal error: the handler rejects with the text
    of the error and does nothing else. *)
Lemma step_fatal (st : state) (i : nat) (a : attempt) (n : N) (e : Js.error) :
  attempts st !! i = Some a -> a_nonce a = Some n ->
  classify (Js.toString e) = Fatal ->
  step w st (Emit i (Error e)) =
  {| attempts := alter (settle (Rejected (Js.Str (Js.toString e)))) i (attempts st);
     pollers := pollers st;
     trace := trace st |}.
Proof.
  intros Ha Hn Hc. cbn [step]. rewrite Ha, Hn. unfold on_error. rewrite Hc.
  reflexivity.
Qed.

(** A notification of the time-out: the handler logs and starts a poller
    with the hash it holds at that time. *)
Lemma step_timed_out (st : state) (i : nat) (a : attempt) (n : N) (e : Js.error) :
  attempts st !! i = Some a -> a_nonce a = Some n ->
  classify (Js.toString e) = TimedOut ->
  step w st (Emit i (Error e)) =
  {| attempts := attempts st;
     pollers := pollers st ++ [{| p_owner := i; p_hash := a_txHash a; p_phase := Querying |}];
     trace := (trace st ++ info (a_request a) "Transaction not mined, polling") ++
              [GetTransactionReceipt (a_txHash a)] |}.
Proof.
  intros Ha Hn Hc. cbn [step]. rewrite Ha, Hn. unfold on_error. rewrite Hc.
  reflexivity.
Qed.

(** A notification of the hash. *)
Lemma step_hash (st : state) (i : nat) (a : attempt) (n : N) (h : hash) :
  attempts st !! i = Some a -> a_nonce a = Some n ->
  step w st (Emit i (TransactionHash h)) =
  {| attempts :=
       (if immediate (a_request a)
        then alter (settle (Fulfilled (VHash h))) i (alter (set_txHash h) i (attempts st))
        else alter (set_txHash h) i (attempts st));
     pollers := pollers st;
     trace := trace st ++
              info (a_request a)
                   ("Function: " +:+ methodName (a_request a) +:+ "() " +:+ h) |}.
Proof.
  intros Ha Hn. cbn [step]. rewrite Ha, Hn. unfold on_transactionHash.
  destruct (immediate (a_request a)); reflexivity.
Qed.

(** A pending promise takes what it is settled with. *)
Lemma lookup_settle (l : list attempt) (i : nat) (a : attempt) (p : promise) :
  l !! i = Some a -> a_promise a = Pending ->
  exists a', alter (settle p) i l !! i = Some a' /\ a_promise a' = p /\
             a_nonce a' = a_nonce a /\ a_request a' = a_request a.
Proof.
  intros Ha Hp. rewrite list_lookup_alter_eq, Ha. cbn.
  eexists; split; [reflexivity |]. unfold settle. rewrite Hp. cbn. auto.
Qed.

End EngineHandlers.

(** ** The engine: the transactions sent are the payloads of the nonces *)

Section EngineSent.

Import Engine Reasoning.

Variable w : web3.
Variable q : request.

Lemma nonces_alter (f : attempt -> attempt) (i : nat) (l : list attempt) :
  (forall a, a_nonce (f a) = a_nonce a) ->
  omap a_nonce (alter f i l) = omap a_nonce l.
Proof.
  intros Hf. revert i. induction l as [|a l IH]; intros [|i]; cbn; try reflexivity.
  - now rewrite Hf.
  - now rewrite IH.
Qed.

Lemma nonce_settle (p : promise) (a : attempt) : a_nonce (settle p a) = a_nonce a.
Proof. unfold settle. destruct (a_promise a); reflexivity. Qed.

Lemma nonce_set_txHash (h : hash) (a : attempt) : a_nonce (set_txHash h a) = a_nonce a.
Proof. reflexivity. Qed.

Lemma sent_of_app (t t' : list action) : sent_of (t ++ t') = sent_of t ++ sent_of t'.
Proof. apply omap_app. Qed.

Lemma sent_of_info (r : request) (message : string) : sent_of (info r message) = [].
Proof. unfold info. destruct (silent r); reflexivity. Qed.

Lemma paired_step (st : state) (inp : input) :
  consistent q (attempts st) ->
  sent st = map (build w q) (nonces st) ->
  sent (step w st inp) = map (build w q) (nonces (step w st inp)).
Proof.
  intros C H. unfold sent, nonces in *.
  destruct inp as [i n | i e | i ev | j r | j e | j]; cbn [step].
  - destruct (attempts st !! i) as [a|] eqn:Ha; [| exact H].
    destruct (a_nonce a) eqn:Hn; [exact H |].
    destruct (a_promise a) eqn:Hp; try exact H.
    pose proof (awaiting_alone q _ C i a Ha Hn) as Hone.
    destruct (attempts st) as [|a0 [|a1 l]] eqn:Hl; try discriminate.
    destruct i as [|i]; [| discriminate]. cbn in Ha. injection Ha as ->.
    cbn -[sent_of] in H. rewrite Hn in H. cbn -[sent_of] in H.
    cbn -[sent_of]. rewrite Hl. cbn -[sent_of]. rewrite sent_of_app, H. cbn.
    f_equal. apply build_ext; eapply (same_request q [a] C 0%nat a); reflexivity.
  - destruct (attempts st !! i) as [a|] eqn:Ha; [| exact H].
    destruct (a_nonce a) eqn:Hn; [exact H |].
    cbn -[sent_of]. rewrite nonces_alter by apply nonce_settle. exact H.
  - destruct (attempts st !! i) as [a|] eqn:Ha; [| exact H].
    destruct (a_nonce a) as [n|] eqn:Hn; [| exact H].
    destruct ev as [h | r | e].
    + unfold on_transactionHash. destruct (immediate (a_request a)); cbn -[sent_of];
        rewrite sent_of_app, sent_of_info, app_nil_r;
        rewrite !nonces_alter by auto using nonce_settle, nonce_set_txHash; exact H.
    + cbn -[sent_of]. rewrite nonces_alter by apply nonce_settle. exact H.
    + unfold on_error. destruct (classify (Js.toString e)).
      * cbn -[sent_of]. rewrite !sent_of_app, sent_of_info. cbn -[sent_of]. now rewrite !app_nil_r.
      * unfold sendTransaction. rewrite next_nonce_some. cbn -[sent_of].
        rewrite nonces_alter by apply nonce_settle.
        rewrite omap_app, List.map_app, !sent_of_app, sent_of_info, app_nil_r, H. cbn.
        f_equal. f_equal. apply build_ext; cbn -[sent_of]; eapply (same_request q _ C i a); eauto.
      * cbn -[sent_of]. rewrite nonces_alter by apply nonce_settle. exact H.
  - destruct (pollers st !! j) as [p|] eqn:Hp; [| exact H].
    destruct (p_phase p), r; try exact H; cbn -[sent_of].
    + rewrite nonces_alter by apply nonce_settle. exact H.
    + rewrite sent_of_app. cbn -[sent_of]. now rewrite app_nil_r.
  - destruct (pollers st !! j) as [p|] eqn:Hp; [| exact H].
    destruct (p_phase p); exact H.
  - destruct (pollers st !! j) as [p|] eqn:Hp; [| exact H].
    destruct (p_phase p); try exact H.
    cbn -[sent_of]. rewrite sent_of_app. cbn -[sent_of]. now rewrite app_nil_r.
Qed.

Lemma paired_run (inputs : list input) (st : state) :
  consistent q (attempts st) ->
  sent st = map (build w q) (nonces st) ->
  sent (run w st inputs) = map (build w q) (nonces (run w st inputs)).
Proof.
  revert st. induction inputs as [|inp inputs IH]; intros st C H; [exact H |].
  cbn. apply IH.
  - eapply consistent_step; [apply step_attempts | exact C].
  - now apply paired_step.
Qed.

Lemma paired_submit (inputs : list input) :
  sent (submit w q inputs) = map (build w q) (nonces (submit w q inputs)).
Proof. apply paired_run; [apply consistent_fresh | reflexivity]. Qed.

End EngineSent.

(** ** The signed payload across the invocations of a logical request *)

Section Payload.

Import Engine Reasoning.

Lemma to_hex_uint_nonnil (n : N) : N.to_hex_uint n <> Hexadecimal.Nil.
Proof.
  destruct n as [|p]; [discriminate |]. cbn. apply HexadecimalPos.Unsigned.to_uint_nonnil.
Qed.

(** Distinct numbers have distinct renderings. *)
Lemma toHex_inj (n m : N) : Js.toHex n = Js.toHex m -> n = m.
Proof.
  unfold Js.toHex. intros H. apply String.app_inj in H.
  apply HexadecimalN.Unsigned.to_uint_inj.
  assert (Hs : Some (N.to_hex_uint n) = Some (N.to_hex_uint m)).
  { rewrite <- (HexadecimalString.NilZero.usu _ (to_hex_uint_nonnil n)).
    rewrite <- (HexadecimalString.NilZero.usu _ (to_hex_uint_nonnil m)).
    now rewrite H. }
  now injection Hs.
Qed.

Example gas_limit_hex : Js.toHex 400000 = "0x61a80".
Proof. reflexivity. Qed.

Example gas_price_hex : Js.toHex 20000000000 = "0x4a817c800".
Proof. reflexivity. Qed.

(** C4, as amended: across all the invocations of a logical request the
    transactions sent are the payloads built from the request for the
    nonces of the invocations, in order, and such a payload has the
    encoded call of the request as data, the rendering of 400000 as gas
    limit, the rendering of 20000000000 as gas price, the rendering of
    the nonce as nonce (distinct nonces giving distinct payloads), and
    the configured address of the contract as recipient: only the nonce
    varies.  The recipient is absent exactly when no address is
    configured for the contract, whatever the operation. *)
Theorem payload_frame (w : web3) (q : request) (inputs : list input) :
  sent (submit w q inputs) = map (build w q) (nonces (submit w q inputs)) /\
  forall n,
    data (build w q n) = encodeABI w (call_of w q) /\
    gasLimit (build w q n) = Js.toHex 400000 /\
    gasPrice (build w q n) = Js.toHex 20000000000 /\
    nonce (build w q n) = Js.toHex n /\
    (forall m, build w q n = build w q m -> n = m) /\
    (Js.truthy (options_address w) = true -> to (build w q n) = options_address w) /\
    (to (build w q n) = None <-> Js.truthy (options_address w) = false).
Proof.
  split; [apply paired_submit |].
  intros n. repeat split; try reflexivity.
  - intros m H. apply toHex_inj. exact (f_equal nonce H).
  - cbn. now intros ->.
  - cbn. destruct (Js.truthy (options_address w)) eqn:Ht; [| reflexivity].
    intros H. rewrite H in Ht. discriminate.
  - cbn. now intros ->.
Qed.

(** The claim as stated fails: a deployment started with a contract
    address configured is sent to that address, and a call of [notarize]
    started without one has no recipient. *)
Lemma recipient_counterexample :
  deploy Examples.served "deploy" = true /\
  map to (sent (submit Examples.served (Facade.deploy_request "0x6060") [CountReply 0 7]))
  = [Some "0x58df3b0e6cbf1ae0691c51322252b6a3d52aa6f2"] /\
  deploy Examples.unset "notarize" = false /\
  map to (sent (submit Examples.unset Examples.store_hello [CountReply 0 7])) = [None].
Proof. vm_compute. repeat split; reflexivity. Qed.

End Payload.

(** ** The nonce and the retry *)

Section Retry.

Import Engine Reasoning.

Variable w : web3.
Variable q : request.

Lemma submit_app (xs ys : list input) :
  submit w q (xs ++ ys) = run w (submit w q xs) ys.
Proof. unfold submit. apply run_app. Qed.

Lemma submit_snoc (xs : list input) (inp : input) (ys : list input) :
  submit w q (xs ++ inp :: ys) = run w (step w (submit w q xs) inp) ys.
Proof. now rewrite submit_app. Qed.

(** Along the links the nonce grows. *)
Lemma chain_nonce (l : list attempt) (i j : nat) :
  consistent q l -> stands_for l i j ->
  forall a b n, l !! i = Some a -> a_nonce a = Some n -> l !! j = Some b ->
  exists m, a_nonce b = Some m /\ (n <= m)%N /\
            (i <> j -> (n < 2 ^ 53)%N -> (n < m)%N).
Proof.
  intros C H. induction H as [i | i a0 k j Ha0 Hp0 Hs IH]; intros a b n Ha Hn Hb.
  - assert (b = a) by congruence. subst b. exists n. repeat split; [exact Hn | lia | tauto].
  - assert (a0 = a) by congruence. subst a0.
    destruct (follows_later q l C i a k Ha Hp0) as (Hlt & n' & Hn' & Hlast).
    assert (n' = n) by congruence. subst n'.
    destruct (lookup_lt_is_Some_2 l k) as (bk & Hbk); [lia |].
    pose proof (retry_nonce q l C k bk n Hbk (Hlast bk Hbk)) as Hnk.
    destruct (IH bk b (Js.add1 n) Hbk Hnk Hb) as (m & Hm & Hle & _).
    pose proof (add1_le n) as Hge.
    exists m. repeat split; [exact Hm | lia |].
    intros _ Hsafe. pose proof (add1_lt n Hsafe). lia.
Qed.

(** The scenario of a transport that answers the first submission with a
    retryable error and the second with a receipt. *)
Lemma retry_scenario (c : N) (e : Js.error) (r : receipt) :
  classify (Js.toString e) = Retryable ->
  let inputs := [CountReply 0 c; Emit 0 (Error e); Emit 1 (Receipt r)] in
  result w q inputs = Some (Resolved (VReceipt r)) /\
  nonces (submit w q inputs) = [c; Js.add1 c] /\
  sent (submit w q inputs) = [build w q c; build w q (Js.add1 c)].
Proof.
  intros Hc inputs.
  assert (Hn : nonces (submit w q inputs) = [c; Js.add1 c]).
  { unfold inputs, submit, run. cbn -[Js.add1]. unfold on_error. rewrite Hc.
    unfold sendTransaction. rewrite next_nonce_some. reflexivity. }
  split; [| split; [exact Hn |]].
  - unfold result, inputs, submit, run. cbn -[Js.add1]. unfold on_error. rewrite Hc.
    unfold sendTransaction. rewrite next_nonce_some. reflexivity.
  - rewrite paired_submit, Hn. reflexivity.
Qed.

End Retry.

(** ** The nonces when a submission notifies at most one error *)

Section NonceSequence.

Import Engine Reasoning.

Variable w : web3.
Variable q : request.

(** A turn starts an invocation only as the retry of a notified error. *)
Lemma step_grows (st : state) (inp : input) :
  length (attempts (step w st inp)) = length (attempts st) \/
  exists i e a n,
    inp = Emit i (Error e) /\ attempts st !! i = Some a /\ a_nonce a = Some n /\
    length (attempts (step w st inp)) = S (length (attempts st)) /\
    attempts (step w st inp) !! length (attempts st) = Some (retry_of a n).
Proof.
  destruct inp as [i c | i e | i ev | j r | j e | j]; cbn [step].
  - destruct (attempts st !! i) as [a|]; [| now left].
    destruct (a_nonce a); [now left |]. destruct (a_promise a); try now left.
    left. cbn. apply length_alter.
  - destruct (attempts st !! i) as [a|]; [| now left].
    destruct (a_nonce a); [now left |]. left. cbn. apply length_alter.
  - destruct (attempts st !! i) as [a|] eqn:Ha; [| now left].
    destruct (a_nonce a) as [n|] eqn:Hn; [| now left].
    destruct ev as [h | r | e].
    + left. unfold on_transactionHash. destruct (immediate (a_request a)); cbn;
        now rewrite ?length_alter.
    + left. cbn. apply length_alter.
    + destruct (classify (Js.toString e)) eqn:Hc.
      * left. unfold on_error. now rewrite Hc.
      * right. exists i, e, a, n.
        pose proof (lookup_lt_Some _ _ _ Ha) as Hi.
        unfold on_error. rewrite Hc. unfold sendTransaction. rewrite next_nonce_some.
        cbn. repeat split; auto.
        -- rewrite length_alter, length_app. cbn. lia.
        -- rewrite list_lookup_alter_ne by lia.
           rewrite lookup_app_r by lia.
           now replace (length (attempts st) - length (attempts st))%nat with 0%nat by lia.
      * left. unfold on_error. rewrite Hc. cbn. apply length_alter.
  - destruct (pollers st !! j) as [p|]; [| now left].
    destruct (p_phase p), r; try now left. left. cbn. apply length_alter.
  - destruct (pollers st !! j) as [p|]; [| now left]. destruct (p_phase p); now left.
  - destruct (pollers st !! j) as [p|]; [| now left]. destruct (p_phase p); now left.
Qed.

Lemma errors_of_snoc (inputs : list input) (inp : input) :
  errors_of (inputs ++ [inp]) = errors_of inputs ++ errors_of [inp].
Proof. apply omap_app. Qed.

(** When no submission notifies two errors, every invocation but the
    last has notified its own, and invocation [k] has the nonce of the
    first one with [lastNonce + 1] taken [k] times. *)
Lemma nonces_count_up (inputs : list input) :
  NoDup (errors_of inputs) ->
  (forall k, (S k < length (attempts (submit w q inputs)))%nat -> In k (errors_of inputs)) /\
  (forall a0 c k a,
      attempts (submit w q inputs) !! 0%nat = Some a0 -> a_nonce a0 = Some c ->
      attempts (submit w q inputs) !! k = Some a ->
      a_nonce a = Some (Nat.iter k Js.add1 c)).
Proof.
  induction inputs as [|inp inputs IH] using rev_ind; intros Hnd.
  - split.
    + cbn. intros k Hk. lia.
    + intros a0 c k a H0. cbn in H0. injection H0 as <-. discriminate.
  - rewrite errors_of_snoc in Hnd. apply NoDup_app in Hnd as (Hnd & Hfresh & _).
    destruct (IH Hnd) as (A & B). clear IH.
    rewrite submit_app. cbn [run fold_left].
    set (st := submit w q inputs) in *.
    pose proof (consistent_submit w q inputs) as C. fold st in C.
    (* the nonce of an invocation of the state before *)
    assert (Hold : forall a0' c k a a',
               attempts (step w st inp) !! 0%nat = Some a0' -> a_nonce a0' = Some c ->
               attempts st !! k = Some a ->
               attempts (step w st inp) !! k = Some a' ->
               a_nonce a' = Some (Nat.iter k Js.add1 c)).
    { intros a0' c k a a' H0' Hc Hk Hk'.
      destruct (lookup_lt_is_Some_2 (attempts st) 0) as (a0 & H0);
        [apply lookup_lt_Some in Hk; lia |].
      destruct (step_evolves w st inp 0 a0 H0) as (b0 & Hb0 & (_ & _ & Hn0 & _)).
      destruct (step_evolves w st inp k a Hk) as (b & Hb & (_ & _ & Hnk & _)).
      assert (b0 = a0') by congruence. assert (b = a') by congruence. subst b0 b.
      destruct (a_nonce a0) as [c0|] eqn:Hc0.
      - assert (c0 = c) by (specialize (Hn0 c0 eq_refl); congruence). subst c0.
        apply Hnk. eapply B; eauto.
      - pose proof (awaiting_alone q _ C 0%nat a0 H0 Hc0) as Hone.
        apply lookup_lt_Some in Hk. assert (k = 0)%nat by lia. subst k.
        assert (a' = a0') by congruence. subst a'. rewrite Hc. reflexivity. }
    destruct (step_grows st inp) as [Hlen | (i & e & a & n & -> & Ha & Hn & Hlen & Hnew)].
    + split.
      * intros k Hk. rewrite Hlen in Hk. rewrite errors_of_snoc. apply in_or_app. auto.
      * intros a0' c k a' H0' Hc Hk'.
        destruct (lookup_lt_is_Some_2 (attempts st) k) as (a & Hk);
          [apply lookup_lt_Some in Hk'; lia |].
        eapply Hold; eauto.
    + pose proof (lookup_lt_Some _ _ _ Ha) as Hi.
      assert (Hlast : S i = length (attempts st)).
      { destruct (decide (S i < length (attempts st))%nat) as [Hlt | Hge]; [| lia].
        exfalso. apply (Hfresh i); [apply list_elem_of_In, A, Hlt | now left]. }
      split.
      * intros k Hk. rewrite Hlen in Hk. rewrite errors_of_snoc. apply in_or_app.
        destruct (decide (k = i)) as [-> | Hne]; [right; now left |].
        left. apply A. lia.
      * intros a0' c k a' H0' Hc Hk'.
        destruct (decide (k < length (attempts st))%nat) as [Hlt | Hge].
        -- destruct (lookup_lt_is_Some_2 (attempts st) k Hlt) as (ak & Hk).
           eapply Hold; eauto.
        -- assert (k = length (attempts st)) by (apply lookup_lt_Some in Hk'; lia).
           subst k. rewrite Hnew in Hk'. injection Hk' as <-. cbn.
           destruct (step_evolves w st (Emit i (Error e)) i a Ha)
             as (ai & Hai & (_ & _ & Hni & _)).
           pose proof (Hold a0' c i a ai H0' Hc Ha Hai) as Hci.
           rewrite (Hni n Hn) in Hci. injection Hci as ->.
           now rewrite <- Hlast.
Qed.

(** No nonce below [2^53] is used by two invocations of a logical
    request whose submissions notify at most one error each. *)
Lemma nonces_never_repeat (inputs : list input) (k k' : nat) (a a' : attempt) (m : N) :
  NoDup (errors_of inputs) -> (m < 2 ^ 53)%N ->
  attempts (submit w q inputs) !! k = Some a -> a_nonce a = Some m ->
  attempts (submit w q inputs) !! k' = Some a' -> a_nonce a' = Some m ->
  k = k'.
Proof.
  intros Hnd Hsafe Hk Hm Hk' Hm'.
  destruct (nonces_count_up inputs Hnd) as (_ & B).
  pose proof (consistent_submit w q inputs) as C.
  destruct (lookup_lt_is_Some_2 (attempts (submit w q inputs)) 0) as (a0 & H0);
    [apply lookup_lt_Some in Hk; lia |].
  destruct (a_nonce a0) as [c|] eqn:Hc.
  - pose proof (B a0 c k a H0 Hc Hk) as H1. pose proof (B a0 c k' a' H0 Hc Hk') as H2.
    rewrite Hm in H1. rewrite Hm' in H2. injection H1 as H1. injection H2 as H2.
    destruct (Nat.lt_trichotomy k k') as [Hlt | [Heq | Hgt]]; [| exact Heq |]; exfalso.
    + replace k' with (S (k' - S k) + k)%nat in H2 by lia.
      rewrite Nat.iter_add, <- H1 in H2. pose proof (iter_add1_above (k' - S k) m Hsafe). lia.
    + replace k with (S (k - S k') + k')%nat in H1 by lia.
      rewrite Nat.iter_add, <- H2 in H1. pose proof (iter_add1_above (k - S k') m Hsafe). lia.
  - pose proof (awaiting_alone q _ C 0%nat a0 H0 Hc) as Hone.
    apply lookup_lt_Some in Hk, Hk'. lia.
Qed.

End NonceSequence.

Section RetryClaim.

Import Engine Reasoning.

(** C1, as amended: a fresh logical request asks the endpoint for the
    transaction count of the account and uses the answer as its nonce.
    When an invocation that was sent with a nonce [n] below [2^53],
    where [lastNonce + 1] is exact, is notified of an
    error whose text contains "known transaction" or "underpriced" and
    does not contain the time-out pattern "within 50 blocks" (which is
    tested first), [sendTransaction] is called again with [lastNonce = n]:
    the new invocation has the operation, the arguments and the
    [immediate] flag of the request, its nonce is [n + 1], and the one
    transaction sent is the payload of the request for [n + 1].  The
    nonce [n] is not reused by the retry nor by any invocation that the
    promise of the failed one comes to stand for: their nonces are above
    [n].  If the promise of the failed invocation was still
    pending when the error arrived, it has from then on the outcome of
    the invocation at [n + 1], and so has the logical request when its
    promise stood for that of the failed invocation. *)
Theorem retry_with_next_nonce (w : web3) (q : request) (inputs : list input)
    (i : nat) (a : attempt) (n : N) (e : Js.error) :
  attempts (submit w q inputs) !! i = Some a ->
  a_nonce a = Some n ->
  (n < 2 ^ 53)%N ->
  Js.includes (Js.toString e) "within 50 blocks" = false ->
  Js.includes (Js.toString e) "known transaction"
    || Js.includes (Js.toString e) "underpriced" = true ->
  let st := submit w q inputs in
  let st' := step w st (Emit i (Error e)) in
  let k := length (attempts st) in
  trace (submit w q []) = [GetTransactionCount (address w)] /\
  (forall c, nonces (submit w q [CountReply 0 c]) = [c] /\
             sent (submit w q [CountReply 0 c]) = [build w q c]) /\
  (exists b, attempts st' !! k = Some b /\
             a_lastNonce b = Some n /\ a_nonce b = Some (n + 1)%N /\
             methodName (a_request b) = methodName q /\
             params (a_request b) = params q /\
             immediate (a_request b) = immediate q /\
             a_promise b = Pending) /\
  sent st' = sent st ++ [build w q (n + 1)] /\
  (forall more j b,
      stands_for (attempts (run w st' more)) i j -> j <> i ->
      attempts (run w st' more) !! j = Some b ->
      exists m, a_nonce b = Some m /\ (n < m)%N) /\
  (a_promise a = Pending ->
   forall more, settled (run w st' more) i = settled (run w st' more) k) /\
  (a_promise a = Pending -> stands_for (attempts st) 0 i ->
   forall more,
     result w q (inputs ++ Emit i (Error e) :: more) = settled (run w st' more) k).
Proof.
  intros Ha Hn Hsafe Ht Hr st st' k.
  pose proof (classify_retryable _ Ht Hr) as Hc.
  pose proof (add1_exact n Hsafe) as Hnext.
  pose proof (consistent_submit w q inputs) as C. fold st in C, Ha.
  pose proof (lookup_lt_Some _ _ _ Ha) as Hi. fold k in Hi.
  destruct (same_request q _ C i a Ha) as (Hm & Hps & Him).
  assert (Est : st' = _) by exact (step_retry w st i a n e Ha Hn Hc).
  assert (Hk : attempts st' !! k = Some (retry_of a n)).
  { rewrite Est. cbn [attempts]. rewrite list_lookup_alter_ne by lia.
    rewrite lookup_app_r by (unfold k; lia).
    replace (k - length (attempts st))%nat with 0%nat by (unfold k; lia).
    reflexivity. }
  assert (Hrun : forall more, run w st' more = submit w q (inputs ++ Emit i (Error e) :: more))
    by (intros; symmetry; apply submit_snoc).
  assert (Hfollow : a_promise a = Pending -> forall more,
             settled (run w st' more) i = settled (run w st' more) k).
  { intros Hp more.
    assert (Hi' : exists a', attempts st' !! i = Some a' /\ a_promise a' = Follows k).
    { rewrite Est. cbn [attempts]. rewrite list_lookup_alter_eq.
      rewrite (lookup_app_l_Some _ _ _ _ Ha). cbn.
      eexists; split; [reflexivity |]. unfold settle. now rewrite Hp. }
    destruct Hi' as (a' & Ha' & Hp').
    destruct (run_evolves w more st' i a' Ha') as (a'' & Ha'' & (_ & _ & _ & Hkeep)).
    rewrite (settled_unfold q (run w st' more) i), Ha'', Hkeep, Hp'.
    - reflexivity.
    - congruence.
    - rewrite Hrun. apply consistent_submit. }
  repeat split.
  - exists (retry_of a n). repeat split; auto. cbn. now rewrite Hnext.
  - rewrite Est. unfold sent. cbn [trace].
    rewrite !sent_of_app, sent_of_info, app_nil_r. cbn -[Js.add1].
    rewrite Hnext. do 2 f_equal. now apply build_ext.
  - intros more j b Hs Hne Hb.
    destruct (run_evolves w (Emit i (Error e) :: more) st i a Ha)
      as (a'' & Ha'' & (_ & _ & Hnonce & _)).
    change (run w st (Emit i (Error e) :: more)) with (run w st' more) in Ha''.
    assert (C' : consistent q (attempts (run w st' more)))
      by (rewrite Hrun; apply consistent_submit).
    destruct (chain_nonce q _ i j C' Hs a'' b n Ha'' (Hnonce n Hn) Hb) as (m & Hmj & _ & Hlt).
    exists m. split; [exact Hmj | apply Hlt; [congruence | exact Hsafe]].
  - exact Hfollow.
  - intros Hp Hroot more. unfold result. rewrite <- Hrun.
    rewrite <- (Hfollow Hp more).
    apply (stands_for_settled q).
    + rewrite Hrun. apply consistent_submit.
    + apply (stands_for_run w st (Emit i (Error e) :: more)). exact Hroot.
Qed.

Lemma retry_with_next_nonce_witness :
  nonces (step Examples.served (submit Examples.served Examples.store_hello [CountReply 0 7])
               (Emit 0 (Error Examples.underpriced))) = [7%N; 8%N] /\
  result Examples.served Examples.store_hello
         ([CountReply 0 7] ++ Emit 0 (Error Examples.underpriced)
                           :: [Emit 1 (TransactionHash Examples.txHash2)])
  = Some (Resolved (VHash Examples.txHash2)).
Proof.
  pose proof (retry_with_next_nonce Examples.served Examples.store_hello [CountReply 0 7] 0
                {| a_request := Examples.store_hello; a_lastNonce := None;
                   a_nonce := Some 7%N; a_txHash := None; a_promise := Pending |}
                7 Examples.underpriced eq_refl eq_refl eq_refl eq_refl eq_refl)
    as (_ & _ & _ & _ & _ & _ & Hresult).
  split; [vm_compute; reflexivity |].
  rewrite (Hresult eq_refl (stands_here _ 0%nat) [Emit 1 (TransactionHash Examples.txHash2)]).
  vm_compute. reflexivity.
Defined.

(** The claim as stated fails.  An error text with "underpriced" and the
    time-out pattern starts a poller and no retry: one transaction is
    sent.  A retryable error that arrives after the hash of a request
    made with [immediate] starts a retry whose receipt is not the outcome
    of the request, which has resolved with the hash obtained at the
    failed nonce.  A submission that notifies a second error starts
    a second retry at a nonce that has failed meanwhile.  And from
    [2^53] on, where [lastNonce + 1] gives [lastNonce] again, the retry
    of a failed nonce is sent with that very nonce. *)
Lemma retry_counterexample :
  Js.includes (Js.toString Examples.underpriced_and_late) "underpriced" = true /\
  nonces (submit Examples.served Examples.check_hello
            [CountReply 0 7; Emit 0 (Error Examples.underpriced_and_late)]) = [7%N] /\
  map nonce (sent (submit Examples.served Examples.check_hello
            [CountReply 0 7; Emit 0 (Error Examples.underpriced_and_late)])) = ["0x7"] /\
  result Examples.served Examples.store_hello
    [CountReply 0 7; Emit 0 (TransactionHash Examples.txHash1);
     Emit 0 (Error Examples.underpriced); Emit 1 (Receipt Examples.receipt2)]
  = Some (Resolved (VHash Examples.txHash1)) /\
  settled (submit Examples.served Examples.store_hello
    [CountReply 0 7; Emit 0 (TransactionHash Examples.txHash1);
     Emit 0 (Error Examples.underpriced); Emit 1 (Receipt Examples.receipt2)]) 1
  = Some (Resolved (VReceipt Examples.receipt2)) /\
  nonces (submit Examples.served Examples.check_hello
    [CountReply 0 7; Emit 0 (Error Examples.underpriced);
     Emit 1 (Error Examples.underpriced); Emit 0 (Error Examples.underpriced)])
  = [7%N; 8%N; 9%N; 8%N] /\
  map nonce (sent (submit Examples.served Examples.check_hello
    [CountReply 0 (2 ^ 53 - 1); Emit 0 (Error Examples.underpriced);
     Emit 1 (Error Examples.underpriced)]))
  = ["0x1fffffffffffff"; "0x20000000000000"; "0x20000000000000"].
Proof. vm_compute. repeat split; reflexivity. Qed.

End RetryClaim.

(** ** Fatal errors and early resolution *)

Section SettlingClaims.

Import Engine Reasoning.

(** What settles a pending promise settles the logical request whose
    promise stands for it, for good. *)
Lemma settles_request (w : web3) (q : request) (inputs : list input) (inp : input)
    (i : nat) (a' : attempt) (o : outcome) :
  stands_for (attempts (submit w q inputs)) 0 i ->
  attempts (step w (submit w q inputs) inp) !! i = Some a' ->
  settled (step w (submit w q inputs) inp) i = Some o ->
  forall more, result w q (inputs ++ inp :: more) = Some o.
Proof.
  intros Hroot Ha' Ho more. unfold result. rewrite submit_snoc.
  apply settled_kept.
  rewrite (stands_for_settled q _ 0 i).
  - exact Ho.
  - change (step w (submit w q inputs) inp) with (run w (submit w q inputs) [inp]).
    rewrite <- submit_app. apply consistent_submit.
  - now apply stands_for_step.
Qed.

Lemma omap_same {A B : Type} (f : A -> option B) (l l' : list A) :
  length l' = length l ->
  (forall i a a', l !! i = Some a -> l' !! i = Some a' -> f a' = f a) ->
  omap f l' = omap f l.
Proof.
  revert l'. induction l as [|x l IH]; intros [|x' l'] Hlen H; try discriminate;
    [reflexivity |].
  cbn. rewrite (H 0%nat x x' eq_refl eq_refl). rewrite (IH l').
  - reflexivity.
  - cbn in Hlen. lia.
  - intros i a a' Ha Ha'. exact (H (S i) a a' Ha Ha').
Qed.

(** A turn that notifies no error, when no invocation waits for the
    count, starts no invocation and gives no nonce. *)
Lemma quiet_step (w : web3) (st : state) (inp : input) :
  errored inp = None ->
  (forall i a, attempts st !! i = Some a -> is_Some (a_nonce a)) ->
  nonces (step w st inp) = nonces st /\
  (forall i a, attempts (step w st inp) !! i = Some a -> is_Some (a_nonce a)).
Proof.
  intros Hq Hall.
  assert (Hlen : length (attempts (step w st inp)) = length (attempts st)).
  { destruct (step_grows w st inp) as [H | (i & e & a & n & -> & _)];
      [exact H | discriminate]. }
  assert (Hkeep : forall i a a', attempts st !! i = Some a ->
             attempts (step w st inp) !! i = Some a' -> a_nonce a' = a_nonce a).
  { intros i a a' Ha Ha'. destruct (Hall i a Ha) as (n & Hn).
    destruct (step_evolves w st inp i a Ha) as (b & Hb & (_ & _ & Hnonce & _)).
    assert (b = a') by congruence. subst b. rewrite Hn. now apply Hnonce. }
  split.
  - unfold nonces. now apply omap_same.
  - intros i a' Ha'.
    destruct (lookup_lt_is_Some_2 (attempts st) i) as (a & Ha);
      [apply lookup_lt_Some in Ha'; lia |].
    rewrite (Hkeep i a a' Ha Ha'). eauto.
Qed.

Lemma quiet_run (w : web3) (more : list input) (st : state) :
  errors_of more = [] ->
  (forall i a, attempts st !! i = Some a -> is_Some (a_nonce a)) ->
  nonces (run w st more) = nonces st.
Proof.
  revert st. induction more as [|inp more IH]; intros st Hq Hall; [reflexivity |].
  unfold errors_of in Hq. cbn in Hq.
  destruct (errored inp) eqn:He; [discriminate |].
  destruct (quiet_step w st inp He Hall) as (Hn & Hall').
  change (run w st (inp :: more)) with (run w (step w st inp) more).
  rewrite IH; auto.
Qed.

Lemma quiet_length (w : web3) (more : list input) (st : state) :
  errors_of more = [] ->
  length (attempts (run w st more)) = length (attempts st).
Proof.
  revert st. induction more as [|inp more IH]; intros st Hq; [reflexivity |].
  unfold errors_of in Hq. cbn in Hq.
  destruct (errored inp) eqn:He; [discriminate |].
  change (run w st (inp :: more)) with (run w (step w st inp) more).
  rewrite IH by exact Hq.
  destruct (step_grows w st inp) as [H | (i & e & a & n & -> & _)];
    [exact H | discriminate].
Qed.

(** C2, as amended: when an invocation that was sent is notified of an
    error whose text contains neither "within 50 blocks" nor "known
    transaction" nor "underpriced", while its promise is pending and is
    the one the promise of the logical request stands for, the logical
    request fails, for good, with the text of the error
    ([error.toString()], which is the error itself when it is a string);
    handling the error sends nothing, starts no invocation and no poller,
    and logs nothing; and no transaction is sent afterwards, whatever is
    delivered, as long as no submission notifies a further error. *)
Theorem fatal_error_fails (w : web3) (q : request) (inputs : list input)
    (i : nat) (a : attempt) (n : N) (e : Js.error) :
  attempts (submit w q inputs) !! i = Some a ->
  a_nonce a = Some n ->
  a_promise a = Pending ->
  stands_for (attempts (submit w q inputs)) 0 i ->
  Js.includes (Js.toString e) "within 50 blocks" = false ->
  Js.includes (Js.toString e) "known transaction" = false ->
  Js.includes (Js.toString e) "underpriced" = false ->
  let st := submit w q inputs in
  let st' := step w st (Emit i (Error e)) in
  (forall more,
      result w q (inputs ++ Emit i (Error e) :: more)
      = Some (Failed (Js.Str (Js.toString e)))) /\
  (forall s, e = Js.Str s -> Js.Str (Js.toString e) = e) /\
  trace st' = trace st /\
  sent st' = sent st /\
  nonces st' = nonces st /\
  length (attempts st') = length (attempts st) /\
  pollers st' = pollers st /\
  (forall more, errors_of more = [] ->
     sent (run w st' more) = sent st /\
     length (attempts (run w st' more)) = length (attempts st)).
Proof.
  intros Ha Hn Hp Hroot H1 H2 H3 st st'.
  pose proof (classify_fatal _ H1 H2 H3) as Hc.
  assert (Est : st' = _) by exact (step_fatal w st i a n e Ha Hn Hc).
  assert (Hsame : sent st' = sent st /\ nonces st' = nonces st /\
                  length (attempts st') = length (attempts st)).
  { rewrite Est. unfold sent, nonces. cbn [trace attempts pollers].
    rewrite nonces_alter by apply nonce_settle. rewrite length_alter. auto. }
  split; [| split; [intros s ->; reflexivity |]].
  - destruct (lookup_settle (attempts st) i a (Rejected (Js.Str (Js.toString e))) Ha Hp)
      as (a' & Ha' & Hp' & _).
    assert (Hst' : attempts st' !! i = Some a') by (rewrite Est; exact Ha').
    apply (settles_request w q inputs _ i a'); auto.
    eapply settled_rejected; eauto.
  - destruct Hsame as (Hs & Hno & Hl).
    split; [now rewrite Est |]. split; [exact Hs |]. split; [exact Hno |].
    split; [exact Hl |]. split; [now rewrite Est |].
    intros more Hquiet.
    assert (Hrun : run w st' more = submit w q (inputs ++ Emit i (Error e) :: more))
      by (symmetry; apply submit_snoc).
    assert (C' : consistent q (attempts st')).
    { change st' with (run w st [Emit i (Error e)]). unfold st.
      rewrite <- submit_app. apply consistent_submit. }
    assert (Hall : forall j b, attempts st' !! j = Some b -> is_Some (a_nonce b)).
    { intros j b Hb. destruct (a_nonce b) as [m|] eqn:Hm; [eauto |].
      pose proof (awaiting_alone q _ C' j b Hb Hm) as Hone.
      pose proof (lookup_lt_Some _ _ _ Hb) as Hj.
      pose proof (lookup_lt_Some _ _ _ Ha) as Hi. fold st in Hi.
      assert (j = i) by lia. subst j.
      destruct (step_evolves w st (Emit i (Error e)) i a Ha) as (b' & Hb' & (_ & _ & Hk & _)).
      fold st' in Hb'. assert (b' = b) by congruence. subst b'.
      rewrite (Hk n Hn) in Hm. discriminate. }
    pose proof (quiet_run w more st' Hquiet Hall) as Hnonces.
    split.
    + rewrite Hrun, paired_submit, <- Hrun, Hnonces, Hno.
      unfold st. now rewrite paired_submit.
    + rewrite (quiet_length w more st' Hquiet). exact Hl.
Qed.

Lemma fatal_error_fails_witness :
  result Examples.served Examples.check_hello
    ([CountReply 0 7; Emit 0 (TransactionHash Examples.txHash1)]
       ++ Emit 0 (Error Examples.insufficient_funds) :: [Emit 0 (Receipt Examples.receipt1)])
  = Some (Failed (Js.Str "insufficient funds")).
Proof.
  exact (proj1 (fatal_error_fails Examples.served Examples.check_hello
                  [CountReply 0 7; Emit 0 (TransactionHash Examples.txHash1)] 0
                  {| a_request := Examples.check_hello; a_lastNonce := None;
                     a_nonce := Some 7%N; a_txHash := Some Examples.txHash1;
                     a_promise := Pending |}
                  7 Examples.insufficient_funds
                  eq_refl eq_refl eq_refl (stands_here _ 0%nat) eq_refl eq_refl eq_refl)
               [Emit 0 (Receipt Examples.receipt1)]).
Defined.

(** The scenario of a transport that answers with a fatal error text:
    the handler of [notarize] responds with status 500 and that text,
    and one transaction has been sent. *)
Example fatal_scenario :
  Facade.reply (Facade.notarize Examples.lib Examples.served (Facade.Text "hello")
                  [CountReply 0 7; Emit 0 (Error Examples.insufficient_funds)])
  = Facade.Responded 500 (Facade.OfError (Js.Str "insufficient funds")) /\
  nonces (submit Examples.served Examples.store_hello
            [CountReply 0 7; Emit 0 (Error Examples.insufficient_funds)]) = [7%N].
Proof. vm_compute. split; reflexivity. Qed.

(** The claim as stated fails: a request made with [immediate] has
    resolved with the hash when a fatal error follows, so it does not
    fail and the handler of [notarize] answers with the hash; an
    error that is an object reaches the caller as a string; and the
    handlers of a submission that has failed stay registered, so that a
    retryable error notified after the fatal one is retried: a second
    transaction is sent for a request that has failed. *)
Lemma fatal_error_counterexample :
  classify (Js.toString Examples.reverted) = Fatal /\
  result Examples.served Examples.store_hello
    [CountReply 0 7; Emit 0 (TransactionHash Examples.txHash1);
     Emit 0 (Error Examples.reverted)]
  = Some (Resolved (VHash Examples.txHash1)) /\
  Facade.reply (Facade.notarize Examples.lib Examples.served (Facade.Text "hello")
    [CountReply 0 7; Emit 0 (TransactionHash Examples.txHash1);
     Emit 0 (Error Examples.reverted)])
  = Facade.Responded 200 (Facade.OfEngine (VHash Examples.txHash1)) /\
  result Examples.served Examples.check_hello
    [CountReply 0 7; Emit 0 (Error Examples.reverted)]
  = Some (Failed (Js.Str "Error: Transaction has been reverted by the EVM")) /\
  Js.Str "Error: Transaction has been reverted by the EVM" <> Examples.reverted /\
  result Examples.served Examples.check_hello
    [CountReply 0 7; Emit 0 (Error Examples.insufficient_funds);
     Emit 0 (Error Examples.underpriced)]
  = Some (Failed (Js.Str "insufficient funds")) /\
  map nonce (sent (submit Examples.served Examples.check_hello
    [CountReply 0 7; Emit 0 (Error Examples.insufficient_funds);
     Emit 0 (Error Examples.underpriced)]))
  = ["0x7"; "0x8"].
Proof. vm_compute. repeat split; try reflexivity. discriminate. Qed.




End SettlingClaims.

(** ** Polling for the receipt *)

Section Polling.

Import Engine Reasoning.

Variable w : web3.

Lemma poller_eta (p : poller) :
  {| p_owner := p_owner p; p_hash := p_hash p; p_phase := p_phase p |} = p.
Proof. destruct p; reflexivity. Qed.

(** One round: the endpoint has no receipt, the poller sets its timer,
    the timer expires, the poller asks again. *)
Lemma poll_round (st : state) (j : nat) (p : poller) :
  pollers st !! j = Some p -> p_phase p = Querying ->
  let st' := run w st [ReceiptReply j None; TimerFired j] in
  attempts st' = attempts st /\
  trace st' = trace st ++ [SetTimeout 1000; GetTransactionReceipt (p_hash p)] /\
  pollers st' !! j = Some p /\
  length (pollers st') = length (pollers st).
Proof.
  intros Hj Hq. cbn [run fold_left step]. rewrite Hj, Hq.
  cbn [pollers update_poller emit]. rewrite list_lookup_alter_eq, Hj.
  cbn. repeat split.
  - now rewrite <- app_assoc.
  - rewrite list_lookup_alter_eq, list_lookup_alter_eq, Hj. cbn.
    unfold set_phase. cbn. rewrite <- Hq. now rewrite poller_eta.
  - now rewrite !length_alter.
Qed.

Lemma poll_actions_succ (h : option hash) (k : nat) :
  poll_actions h (S k) = [SetTimeout 1000; GetTransactionReceipt h] ++ poll_actions h k.
Proof. reflexivity. Qed.

(** Any number of rounds: the poller is still asking. *)
Lemma poll_rounds_run (k : nat) (st : state) (j : nat) (p : poller) :
  pollers st !! j = Some p -> p_phase p = Querying ->
  let st' := run w st (poll_rounds j k) in
  attempts st' = attempts st /\
  trace st' = trace st ++ poll_actions (p_hash p) k /\
  pollers st' !! j = Some p.
Proof.
  revert st. induction k as [|k IH]; intros st Hj Hq.
  - cbn. rewrite app_nil_r. auto.
  - change (poll_rounds j (S k))
      with ([ReceiptReply j None; TimerFired j] ++ poll_rounds j k).
    cbv zeta. rewrite run_app.
    destruct (poll_round st j p Hj Hq) as (Ha & Ht & Hp & _).
    destruct (IH _ Hp Hq) as (Ha' & Ht' & Hp').
    repeat split.
    + now rewrite Ha'.
    + rewrite Ht', Ht, poll_actions_succ. now rewrite <- app_assoc.
    + exact Hp'.
Qed.

(** The endpoint returns a receipt: the poller stops and hands it to
    [resolve]. *)
Lemma poll_finish (st : state) (j : nat) (p : poller) (r : receipt) :
  pollers st !! j = Some p -> p_phase p = Querying ->
  step w st (ReceiptReply j (Some r)) =
  {| attempts := alter (settle (Fulfilled (VReceipt r))) (p_owner p) (attempts st);
     pollers := alter (set_phase Finished) j (pollers st);
     trace := trace st |}.
Proof. intros Hj Hq. cbn [step]. now rewrite Hj, Hq. Qed.

(** What is not a notification of invocation [i] nor a receipt returned
    to a poller leaves the promise of [i] pending. *)
Lemma idle_pending (st : state) (inp : input) (i : nat) (a : attempt) (n : N) :
  attempts st !! i = Some a -> a_nonce a = Some n -> a_promise a = Pending ->
  idle i inp = true ->
  exists a', attempts (step w st inp) !! i = Some a' /\
             a_nonce a' = Some n /\ a_promise a' = Pending.
Proof.
  intros Ha Hn Hp Hidle.
  destruct inp as [i0 c | i0 e | i0 ev | j r | j e | j]; cbn [step].
  - destruct (attempts st !! i0) as [a0|] eqn:Ha0; [| eauto].
    destruct (a_nonce a0) eqn:Hn0; [eauto |].
    destruct (a_promise a0); eauto.
    cbn. rewrite list_lookup_alter_ne by congruence. eauto.
  - destruct (attempts st !! i0) as [a0|] eqn:Ha0; [| eauto].
    destruct (a_nonce a0) eqn:Hn0; [eauto |].
    cbn. rewrite list_lookup_alter_ne by congruence. eauto.
  - cbn in Hidle. apply negb_true_iff, Nat.eqb_neq in Hidle.
    destruct (attempts st !! i0) as [a0|] eqn:Ha0; [| eauto].
    destruct (a_nonce a0) as [n0|] eqn:Hn0; [| eauto].
    destruct ev as [h | r | e].
    + unfold on_transactionHash. destruct (immediate (a_request a0)); cbn;
        rewrite !list_lookup_alter_ne by congruence; eauto.
    + cbn. rewrite list_lookup_alter_ne by congruence. eauto.
    + unfold on_error. destruct (classify (Js.toString e)).
      * cbn. eauto.
      * unfold sendTransaction. rewrite next_nonce_some. cbn.
        rewrite list_lookup_alter_ne by congruence.
        rewrite (lookup_app_l_Some _ _ _ _ Ha). eauto.
      * cbn. rewrite list_lookup_alter_ne by congruence. eauto.
  - destruct r; [discriminate |].
    destruct (pollers st !! j) as [p|]; [| eauto].
    destruct (p_phase p); eauto.
  - destruct (pollers st !! j) as [p|]; [| eauto].
    destruct (p_phase p); eauto.
  - destruct (pollers st !! j) as [p|]; [| eauto].
    destruct (p_phase p); eauto.
Qed.

Lemma idle_run (more : list input) (st : state) (i : nat) (a : attempt) (n : N) :
  attempts st !! i = Some a -> a_nonce a = Some n -> a_promise a = Pending ->
  forallb (idle i) more = true ->
  settled (run w st more) i = None.
Proof.
  revert st a. induction more as [|inp more IH]; intros st a Ha Hn Hp Hall.
  - eapply settled_pending; eauto.
  - cbn in Hall. apply andb_true_iff in Hall as (Hinp & Hmore).
    destruct (idle_pending st inp i a n Ha Hn Hp Hinp) as (a' & Ha' & Hn' & Hp').
    cbn. eapply IH; eauto.
Qed.





End Polling.

Section PollingClaims.

Import Engine Reasoning.













(** An instance: a request whose time-out came before any hash stays
    pending while the endpoint answers its poller with [null], and after
    the request for the receipt has failed. *)
Example unnotified_scenario :
  result Examples.served Examples.check_hello
    [CountReply 0 7; Emit 0 (Error Examples.timed_out);
     ReceiptReply 0 None; TimerFired 0; ReceiptReply 0 None; TimerFired 0;
     ReceiptFailure 0 (Js.Str "invalid argument 0")]
  = None.
Proof. reflexivity. Qed.


End PollingClaims.

(** ** The handlers *)

Section HandlerClaims.

Import Engine Reasoning.

(** Without [immediate] a promise is fulfilled with a receipt only. *)
Lemma receipts_only_step (q : request) (l l' : list attempt) :
  immediate q = false -> consistent q l -> attempts_step l l' ->
  (forall i a v, l !! i = Some a -> a_promise a = Fulfilled v -> exists r, v = VReceipt r) ->
  (forall i a v, l' !! i = Some a -> a_promise a = Fulfilled v -> exists r, v = VReceipt r).
Proof.
  intros Him C Hs H.
  assert (Hsettle : forall p a v, (forall h, p <> Fulfilled (VHash h)) ->
             a_promise (settle p a) = Fulfilled v ->
             a_promise a = Fulfilled v \/ exists r, v = VReceipt r).
  { intros p a v Hp. unfold settle.
    destruct (a_promise a) eqn:Ha; cbn; intros Hv; try (left; congruence).
    subst p. destruct v as [h|r]; [destruct (Hp h); reflexivity | eauto]. }
  destruct Hs as [| j b n Hb Hn Hp | j p Hf | j b h Hb | j b h Hb Himm | j b n Hb Hn];
    intros i a v Ha Hv.
  - eauto.
  - apply lookup_alter_Some in Ha as (a0 & Ha0 & [[_ ->] | [_ ->]]); eauto.
  - apply lookup_alter_Some in Ha as (a0 & Ha0 & [[_ ->] | [_ ->]]); [| eauto].
    destruct (Hsettle p a0 v) as [Hold | Hr]; eauto.
    intros h ->. destruct Hf.
  - apply lookup_alter_Some in Ha as (a0 & Ha0 & [[_ ->] | [_ ->]]); eauto.
  - destruct (same_request q l C j b Hb) as (_ & _ & Hq). congruence.
  - apply lookup_alter_Some in Ha as (a0 & Ha0 & Hcase).
    assert (Hv0 : a_promise a0 = Fulfilled v \/ exists r, v = VReceipt r).
    { destruct Hcase as [[_ ->] | [_ ->]]; [| now left].
      apply (Hsettle (Follows (length l))); [discriminate | exact Hv]. }
    destruct Hv0 as [Hv0 | Hr]; [| exact Hr].
    apply lookup_app_Some in Ha0 as [Ha0 | [_ Ha0]]; [eauto |].
    apply list_lookup_singleton_Some in Ha0 as [_ <-]. discriminate.
Qed.

Lemma receipts_only (w : web3) (q : request) (inputs : list input) :
  immediate q = false ->
  forall i a v, attempts (submit w q inputs) !! i = Some a ->
                a_promise a = Fulfilled v -> exists r, v = VReceipt r.
Proof.
  intros Him. induction inputs as [|inp inputs IH] using rev_ind.
  - intros i a v Ha. cbn in Ha. apply list_lookup_singleton_Some in Ha as [_ <-].
    discriminate.
  - rewrite submit_app. cbn.
    eapply receipts_only_step; eauto using consistent_submit, step_attempts.
Qed.

Lemma settled_in_source (f : nat) (l : list attempt) (i : nat) (v : value) :
  settled_in f l i = Some (Resolved v) ->
  exists j a, l !! j = Some a /\ a_promise a = Fulfilled v.
Proof.
  revert i. induction f as [|f IH]; intros i H; [discriminate |].
  cbn in H. destruct (l !! i) as [a|] eqn:Ha; [| discriminate].
  destruct (a_promise a) eqn:Hp; try discriminate.
  - injection H as ->. eauto.
  - eauto.
Qed.

Lemma result_is_receipt (w : web3) (q : request) (inputs : list input) (v : value) :
  immediate q = false ->
  result w q inputs = Some (Resolved v) -> exists r, v = VReceipt r.
Proof.
  intros Him H. apply settled_in_source in H as (j & a & Ha & Hp).
  eapply receipts_only; eauto.
Qed.

(** Decoding the logs of the contract's [verify]. *)
Lemma notarized_of_verify (proofs : ProofOfExistence.storage) (d : string) (r : receipt) :
  logs r = map Facade.log_of (snd (fst (ProofOfExistence.verify proofs d))) ->
  Facade.notarized_of r = inr (ABool (ProofOfExistence.read proofs d)).
Proof. intros H. unfold Facade.notarized_of. rewrite H. reflexivity. Qed.

(** C6: for every text the handler of [verify] computes the digest and
    calls the engine with the operation "verify", the digest as only
    argument and no [immediate]; such a request resolves with a receipt
    only, never with a bare hash, and the handler has no answer before;
    from the receipt of the contract's [verify], whose log is the event
    [OnVerify(dataHash, notarized)], the handler decodes the boolean
    [notarized], which is what the contract read in its mapping for the
    digest, and responds with that boolean and the transaction hash of
    the receipt. *)
Theorem verify_returns_verdict (lib : Facade.shajs) (w : web3) (text : string)
    (inputs : list input) (r : receipt) (proofs : ProofOfExistence.storage) :
  result w (Facade.verify_request (Sha256.digest text)) inputs
  = Some (Resolved (VReceipt r)) ->
  logs r = map Facade.log_of
               (snd (fst (ProofOfExistence.verify proofs (Sha256.digest text)))) ->
  Facade.engine (Facade.verify lib w (Facade.Text text) inputs)
  = submit w (Facade.verify_request (Sha256.digest text)) inputs /\
  methodName (Facade.verify_request (Sha256.digest text)) = "verify" /\
  params (Facade.verify_request (Sha256.digest text)) = [PString (Sha256.digest text)] /\
  immediate (Facade.verify_request (Sha256.digest text)) = false /\
  (forall inputs' v,
      result w (Facade.verify_request (Sha256.digest text)) inputs' = Some (Resolved v) ->
      exists r', v = VReceipt r') /\
  (forall inputs',
      result w (Facade.verify_request (Sha256.digest text)) inputs' = None ->
      Facade.reply (Facade.verify lib w (Facade.Text text) inputs') = Facade.Awaiting) /\
  Facade.reply (Facade.verify lib w (Facade.Text text) inputs)
  = Facade.Responded 200
      (Facade.Verdict (ABool (ProofOfExistence.read proofs (Sha256.digest text)))
                      (transactionHash r)).
Proof.
  intros Hres Hlogs.
  assert (Hunfold : forall inputs',
             Facade.verify lib w (Facade.Text text) inputs' =
             match result w (Facade.verify_request (Sha256.digest text)) inputs' with
             | None => {| Facade.reply := Facade.Awaiting;
                          Facade.said := [Log "info" ("Verifying " +:+ Facade.quote +:+ text
                                                      +:+ Facade.quote)];
                          Facade.engine := submit w (Facade.verify_request (Sha256.digest text))
                                                  inputs' |}
             | Some o => {| Facade.reply := fst (Facade.verify_then (Facade.Text text) o);
                            Facade.said := [Log "info" ("Verifying " +:+ Facade.quote +:+ text
                                                        +:+ Facade.quote)]
                                           ++ snd (Facade.verify_then (Facade.Text text) o);
                            Facade.engine := submit w (Facade.verify_request (Sha256.digest text))
                                                    inputs' |}
             end) by reflexivity.
  repeat split.
  - rewrite Hunfold. destruct (result _ _ inputs); reflexivity.
  - intros inputs' v. now apply result_is_receipt.
  - intros inputs' Hnone. rewrite Hunfold, Hnone. reflexivity.
  - rewrite Hunfold, Hres. cbn [Facade.reply Facade.verify_then Facade.decode].
    rewrite (notarized_of_verify proofs _ r Hlogs). reflexivity.
Qed.

Lemma verify_returns_verdict_witness :
  Facade.reply
    (Facade.verify Examples.lib Examples.served (Facade.Text "hello")
       [CountReply 0 7; Emit 0 (TransactionHash Examples.txHash1);
        Emit 0 (Receipt {| transactionHash := Examples.txHash1; contractAddress := None;
                           logs := [Facade.log_of
                                      (ProofOfExistence.OnVerify (Sha256.digest "hello") true)] |})])
  = Facade.Responded 200 (Facade.Verdict (ABool true) Examples.txHash1).
Proof.
  pose proof (verify_returns_verdict Examples.lib Examples.served "hello"
    [CountReply 0 7; Emit 0 (TransactionHash Examples.txHash1);
     Emit 0 (Receipt {| transactionHash := Examples.txHash1; contractAddress := None;
                        logs := [Facade.log_of
                                   (ProofOfExistence.OnVerify (Sha256.digest "hello") true)] |})]
    {| transactionHash := Examples.txHash1; contractAddress := None;
       logs := [Facade.log_of (ProofOfExistence.OnVerify (Sha256.digest "hello") true)] |}
    (fst (ProofOfExistence.notarize ∅ (Sha256.digest "hello")))) as H.
  assert (H1 : result Examples.served (Facade.verify_request (Sha256.digest "hello"))
    [CountReply 0 7; Emit 0 (TransactionHash Examples.txHash1);
     Emit 0 (Receipt {| transactionHash := Examples.txHash1; contractAddress := None;
                        logs := [Facade.log_of
                                   (ProofOfExistence.OnVerify (Sha256.digest "hello") true)] |})]
    = Some (Resolved (VReceipt
       {| transactionHash := Examples.txHash1; contractAddress := None;
          logs := [Facade.log_of (ProofOfExistence.OnVerify (Sha256.digest "hello") true)] |})))
    by reflexivity.
  assert (H2 : logs {| transactionHash := Examples.txHash1; contractAddress := None;
          logs := [Facade.log_of (ProofOfExistence.OnVerify (Sha256.digest "hello") true)] |}
     = map Facade.log_of
         (snd (fst (ProofOfExistence.verify
                      (fst (ProofOfExistence.notarize ∅ (Sha256.digest "hello")))
                      (Sha256.digest "hello"))))).
  { cbn. unfold ProofOfExistence.read. rewrite lookup_insert_eq. reflexivity. }
  destruct (H H1 H2) as (_ & _ & _ & _ & _ & _ & Hreply).
  rewrite Hreply. unfold ProofOfExistence.read. cbn. rewrite lookup_insert_eq. reflexivity.
Defined.

(** A text that was never stored: the verdict is [false]. *)
Example verify_unknown_text :
  Facade.reply
    (Facade.verify Examples.lib Examples.served (Facade.Text "goodbye")
       [CountReply 0 7; Emit 0 (TransactionHash Examples.txHash1);
        Emit 0 (Receipt {| transactionHash := Examples.txHash1; contractAddress := None;
                           logs := map Facade.log_of
                                     (snd (fst (ProofOfExistence.verify ∅
                                                  (Sha256.digest "goodbye")))) |})])
  = Facade.Responded 200 (Facade.Verdict (ABool false) Examples.txHash1).
Proof. reflexivity. Qed.

(** A receipt without logs: decoding fails inside the [try] block. *)
Example verify_without_logs :
  Facade.reply
    (Facade.verify Examples.lib Examples.served (Facade.Text "hello")
       [CountReply 0 7; Emit 0 (Receipt Examples.receipt1)])
  = Facade.Responded 500
      (Facade.OfError (Js.Err "TypeError" "Cannot read property 'events' of undefined")).
Proof. reflexivity. Qed.



End HandlerClaims.

(** ** The facade against a ledger that accepts at once *)

Section Scenarios.

Import Engine.

Lemma remove_last_snoc (d : string) (x : ascii) :
  Examples.remove_last (d +:+ String x EmptyString) = d.
Proof.
  induction d as [|c d IH]; [reflexivity |].
  rewrite app_cons. cbn [Examples.remove_last]. rewrite IH.
  destruct d; reflexivity.
Qed.

(** The data of the two calls is read back as it was written. *)
Lemma decode_notarize (d : string) :
  Examples.decode (Examples.encode (Invocation "notarize" [PString d]))
  = Some ("notarize", d).
Proof.
  unfold Examples.encode. cbn [map Examples.show_param Js.join].
  assert (E : Examples.split_at "(" ("notarize" +:+ "(" +:+ d +:+ ")")
              = Some ("notarize", d +:+ ")")) by reflexivity.
  unfold Examples.decode. rewrite E. now rewrite remove_last_snoc.
Qed.

Lemma decode_verify (d : string) :
  Examples.decode (Examples.encode (Invocation "verify" [PString d]))
  = Some ("verify", d).
Proof.
  unfold Examples.encode. cbn [map Examples.show_param Js.join].
  assert (E : Examples.split_at "(" ("verify" +:+ "(" +:+ d +:+ ")")
              = Some ("verify", d +:+ ")")) by reflexivity.
  unfold Examples.decode. rewrite E. now rewrite remove_last_snoc.
Qed.

(** The ledger runs the function that the transaction of a request
    calls, on the digest that the request carries. *)
Lemma execute_notarize (proofs : ProofOfExistence.storage) (d : string) (c : N) :
  Examples.execute proofs (build Examples.served (Facade.notarize_request d) c)
  = ProofOfExistence.notarize proofs d.
Proof.
  unfold Examples.execute.
  change (data (build Examples.served (Facade.notarize_request d) c))
    with (Examples.encode (Invocation "notarize" [PString d])).
  rewrite decode_notarize. reflexivity.
Qed.

Lemma execute_verify (proofs : ProofOfExistence.storage) (d : string) (c : N) :
  Examples.execute proofs (build Examples.served (Facade.verify_request d) c)
  = fst (ProofOfExistence.verify proofs d).
Proof.
  unfold Examples.execute.
  change (data (build Examples.served (Facade.verify_request d) c))
    with (Examples.encode (Invocation "verify" [PString d])).
  rewrite decode_verify. reflexivity.
Qed.

(** Storing a text: the handler sends the call of [notarize] on the
    digest, the ledger records it, and the handler answers with the
    hash. *)
Lemma store_accepted (proofs : ProofOfExistence.storage) (c : N) (h : hash) (text : string) :
  Examples.store proofs c h text
  = (<[Sha256.digest text := true]> proofs,
     Facade.Responded 200 (Facade.OfEngine (VHash h))).
Proof.
  unfold Examples.store.
  change (sent (Facade.engine (Facade.notarize Examples.lib Examples.served
                                 (Facade.Text text) [CountReply 0 c])))
    with [build Examples.served (Facade.notarize_request (Sha256.digest text)) c].
  cbn iota. rewrite execute_notarize. reflexivity.
Qed.

(** Checking a text: the handler sends the call of [verify] on the
    digest, the ledger reads its storage, and the handler answers with
    what it reads. *)
Lemma check_accepted (proofs : ProofOfExistence.storage) (c : N) (h : hash) (text : string) :
  Examples.check proofs c h text
  = (proofs,
     Facade.Responded 200
       (Facade.Verdict (ABool (ProofOfExistence.read proofs (Sha256.digest text))) h)).
Proof.
  unfold Examples.check.
  change (sent (Facade.engine (Facade.verify Examples.lib Examples.served
                                 (Facade.Text text) [CountReply 0 c])))
    with [build Examples.served (Facade.verify_request (Sha256.digest text)) c].
  cbn iota. rewrite execute_verify. reflexivity.
Qed.

(** Storing a text records its digest and answers with the hash. *)
Example store_hello_scenario :
  snd (Examples.store ∅ 0 Examples.txHash1 "hello")
  = Facade.Responded 200 (Facade.OfEngine (VHash Examples.txHash1)) /\
  ProofOfExistence.read (fst (Examples.store ∅ 0 Examples.txHash1 "hello"))
                        (Sha256.digest "hello") = true /\
  dom (fst (Examples.store ∅ 0 Examples.txHash1 "hello")) = {[ Sha256.digest "hello" ]}.
Proof.
  rewrite store_accepted. split; [reflexivity |]. split.
  - cbn [fst]. unfold ProofOfExistence.read. now rewrite lookup_insert_eq.
  - cbn [fst]. now rewrite dom_insert_L, dom_empty_L, union_empty_r_L.
Qed.

(** Checking a stored text answers [true], however often it was stored. *)
Lemma check_after_store (proofs : ProofOfExistence.storage) (text : string)
    (c c' c'' : N) (h h' h'' : hash) :
  let once := fst (Examples.store proofs c h text) in
  let twice := fst (Examples.store once c' h' text) in
  twice = once /\
  snd (Examples.check once c'' h'' text)
  = Facade.Responded 200 (Facade.Verdict (ABool true) h'') /\
  snd (Examples.check twice c'' h'' text)
  = Facade.Responded 200 (Facade.Verdict (ABool true) h'').
Proof.
  cbn zeta. rewrite !store_accepted. cbn [fst].
  rewrite insert_insert_eq.
  assert (Hc : snd (Examples.check (<[Sha256.digest text := true]> proofs) c'' h'' text)
               = Facade.Responded 200 (Facade.Verdict (ABool true) h'')).
  { rewrite check_accepted. cbn [snd].
    unfold ProofOfExistence.read. rewrite lookup_insert_eq. reflexivity. }
  repeat split; exact Hc.
Qed.

(** Checking a text that was never stored answers [false]. *)
Example check_goodbye_scenario :
  snd (Examples.check ∅ 0 Examples.txHash2 "goodbye")
  = Facade.Responded 200 (Facade.Verdict (ABool false) Examples.txHash2).
Proof. rewrite check_accepted. reflexivity. Qed.

(** A transaction that calls nothing the contract has, or goes
    elsewhere, leaves the ledger as it is. *)
Example execute_elsewhere :
  Examples.execute ∅ (build Examples.unset Examples.store_hello 7) = (∅, []).
Proof. reflexivity. Qed.

End Scenarios.

(* ===================================================================== *)
(** * The contract over a sequence of calls *)
(* ===================================================================== *)

Section ContractCalls.

Import ProofOfExistence Chain.

Lemma read_notarize (proofs : storage) (d d' : string) :
  read (fst (notarize proofs d)) d' = String.eqb d d' || read proofs d'.
Proof.
  unfold read, notarize. cbn.
  destruct (String.eqb d d') eqn:E.
  - apply String.eqb_eq in E as ->. now rewrite lookup_insert_eq.
  - apply String.eqb_neq in E. now rewrite lookup_insert_ne.
Qed.

Lemma read_apply (proofs : storage) (c : call) (d : string) :
  read (fst (apply proofs c)) d = read proofs d || notarizes d c.
Proof.
  destruct c as [d' | d']; cbn [apply notarizes].
  - rewrite read_notarize. apply orb_comm.
  - cbn. now rewrite orb_false_r.
Qed.

Lemma read_run (calls : list call) (proofs : storage) (d : string) :
  read (fst (run proofs calls)) d = read proofs d || existsb (notarizes d) calls.
Proof.
  revert proofs. induction calls as [|c calls IH]; intros proofs; cbn.
  - now rewrite orb_false_r.
  - rewrite IH, read_apply. now rewrite orb_assoc.
Qed.

Lemma calls_app (xs ys : list call) (proofs : storage) :
  run proofs (xs ++ ys) =
  (fst (run (fst (run proofs xs)) ys),
   snd (run proofs xs) ++ snd (run (fst (run proofs xs)) ys)).
Proof.
  revert proofs. induction xs as [|c xs IH]; intros proofs; cbn.
  - now destruct (run proofs ys).
  - rewrite IH. cbn. now rewrite app_assoc.
Qed.

(** X1: whatever calls of the contract's two functions are executed one
    after the other, a digest reads as notarized afterwards exactly when
    it did before or one of the calls notarized it, so that no call
    clears a digest; and a call of [verify] made after them emits as
    only event [OnVerify] with the digest and that same boolean. *)
Theorem contract_history (proofs : storage) (calls : list call) (d : string) :
  read (fst (run proofs calls)) d = read proofs d || existsb (notarizes d) calls /\
  run proofs (calls ++ [Verify d]) =
  (fst (run proofs calls),
   snd (run proofs calls) ++ [OnVerify d (read proofs d || existsb (notarizes d) calls)]).
Proof.
  split; [apply read_run |].
  rewrite calls_app. cbn. now rewrite read_run.
Qed.

End ContractCalls.

(* ===================================================================== *)
(** * The engine: what a logical request does and never does *)
(* ===================================================================== *)

Section EngineFurther.

Import Engine Reasoning Script.

Variable w : web3.
Variable q : request.

(** X2: the promise of a logical request settles once: when it has
    resolved or failed after some deliveries, it has the same outcome
    after any further deliveries, whatever they are. *)
Theorem result_settles_once (inputs more : list input) (o : outcome) :
  result w q inputs = Some o -> result w q (inputs ++ more) = Some o.
Proof. intros H. unfold result. rewrite submit_app. now apply settled_kept. Qed.

Lemma counts_app (t t' : list action) : counts (t ++ t') = counts t ++ counts t'.
Proof. apply omap_app. Qed.

Lemma logged_app (t t' : list action) : logged (t ++ t') = logged t ++ logged t'.
Proof. apply omap_app. Qed.

Lemma polled_app (t t' : list action) : polled (t ++ t') = polled t ++ polled t'.
Proof. apply omap_app. Qed.

Lemma counts_info (r : request) (message : string) : counts (info r message) = [].
Proof. unfold info. destruct (silent r); reflexivity. Qed.

Lemma polled_info (r : request) (message : string) : polled (info r message) = [].
Proof. unfold info. destruct (silent r); reflexivity. Qed.

(** What a turn of the event loop adds to the trace: nothing, a
    transaction, a line of an invocation's log, a request for a receipt,
    a timer, or two of them. *)
Lemma step_trace (P : list action -> Prop) (st : state) (inp : input) :
  P [] ->
  (forall acts acts', P acts -> P acts' -> P (acts ++ acts')) ->
  (forall i a n, attempts st !! i = Some a ->
                 P [SendSignedTransaction (build w (a_request a) n)]) ->
  (forall i a message, attempts st !! i = Some a -> P (info (a_request a) message)) ->
  (forall i a, attempts st !! i = Some a -> P [GetTransactionReceipt (a_txHash a)]) ->
  (forall j p, pollers st !! j = Some p -> P [GetTransactionReceipt (p_hash p)]) ->
  P [SetTimeout 1000] ->
  exists acts, trace (step w st inp) = trace st ++ acts /\ P acts.
Proof.
  intros Hnil Happ Hsend Hinfo Hpoll Hask Htimer.
  assert (Hsame : exists acts, trace st = trace st ++ acts /\ P acts).
  { exists []. now rewrite app_nil_r. }
  destruct inp as [i n | i e | i ev | j r | j e | j].
  - cbn [step]. destruct (attempts st !! i) as [a|] eqn:Ha; [| exact Hsame].
    destruct (a_nonce a); [exact Hsame |].
    destruct (a_promise a); try exact Hsame.
    eexists. split; [reflexivity | eapply Hsend, Ha].
  - cbn [step]. destruct (attempts st !! i) as [a|]; [| exact Hsame].
    destruct (a_nonce a); exact Hsame.
  - destruct (attempts st !! i) as [a|] eqn:Ha;
      [| cbn [step]; rewrite Ha; exact Hsame].
    destruct (a_nonce a) as [n|] eqn:Hn;
      [| cbn [step]; rewrite Ha, Hn; exact Hsame].
    destruct ev as [h | r | e].
    + rewrite (step_hash w st i a n h Ha Hn). cbn [trace].
      eexists. split; [reflexivity | eapply Hinfo, Ha].
    + cbn [step]. rewrite Ha, Hn. exact Hsame.
    + destruct (classify (Js.toString e)) eqn:Hc.
      * rewrite (step_timed_out w st i a n e Ha Hn Hc). cbn [trace].
        eexists. split; [rewrite <- app_assoc; reflexivity |].
        apply Happ; [eapply Hinfo, Ha | eapply Hpoll, Ha].
      * rewrite (step_retry w st i a n e Ha Hn Hc). cbn [trace].
        eexists. split; [rewrite <- app_assoc; reflexivity |].
        apply Happ; [eapply Hinfo, Ha |].
        rewrite (build_ext w (a_request (retry_of a n)) (a_request a)) by reflexivity.
        eapply Hsend, Ha.
      * rewrite (step_fatal w st i a n e Ha Hn Hc). exact Hsame.
  - cbn [step]. destruct (pollers st !! j) as [p|]; [| exact Hsame].
    destruct (p_phase p); try exact Hsame.
    destruct r; [exact Hsame |]. eexists. split; [reflexivity | exact Htimer].
  - cbn [step]. destruct (pollers st !! j) as [p|]; [| exact Hsame].
    destruct (p_phase p); exact Hsame.
  - cbn [step]. destruct (pollers st !! j) as [p|] eqn:Hj; [| exact Hsame].
    destruct (p_phase p); try exact Hsame.
    eexists. split; [reflexivity | eapply Hask, Hj].
Qed.

Lemma step_counts (st : state) (inp : input) :
  exists acts, trace (step w st inp) = trace st ++ acts /\ counts acts = [].
Proof.
  apply (step_trace (fun acts => counts acts = [])); try reflexivity.
  - intros acts acts' H H'. now rewrite counts_app, H, H'.
  - intros. apply counts_info.
Qed.

Lemma run_trace (inputs : list input) (st : state) :
  exists acts, trace (run w st inputs) = trace st ++ acts /\ counts acts = [].
Proof.
  revert st. induction inputs as [|inp inputs IH]; intros st.
  - exists []. now rewrite app_nil_r.
  - change (run w st (inp :: inputs)) with (run w (step w st inp) inputs).
    destruct (step_counts st inp) as (acts & Ht & Hc).
    destruct (IH (step w st inp)) as (acts' & Ht' & Hc').
    exists (acts ++ acts'). split.
    + now rewrite Ht', Ht, app_assoc.
    + now rewrite counts_app, Hc, Hc'.
Qed.

(** X3: a logical request asks the endpoint for the transaction count of
    the account once, as the first thing it does, and never again: the
    retries take their nonce from the invocation they follow. *)
Theorem count_requested_once (inputs : list input) :
  counts (trace (submit w q inputs)) = [address w] /\
  head (trace (submit w q inputs)) = Some (GetTransactionCount (address w)).
Proof.
  unfold submit.
  destruct (run_trace inputs (sendTransaction w q None initial)) as (acts & -> & Hc).
  split; [| reflexivity].
  now rewrite counts_app, Hc.
Qed.

(** Once the request for the transaction count has failed, nothing that
    is delivered changes anything. *)
Lemma count_failure_inert (e : Js.error) (inp : input) :
  let st := {| attempts := [{| a_request := q; a_lastNonce := None; a_nonce := None;
                               a_txHash := None; a_promise := Rejected e |}];
               pollers := []; trace := [GetTransactionCount (address w)] |} in
  step w st inp = st.
Proof.
  destruct inp as [[|i] n | [|i] e' | [|i] ev | j r | j e' | j]; reflexivity.
Qed.

(** X4: when the request for the transaction count fails, the logical
    request fails with that very error, not with its text, and nothing
    else ever happens, whatever is delivered afterwards: no transaction
    is sent, no line is logged, no receipt is asked for and there is no
    retry. *)
Theorem count_failure_fails (e : Js.error) (more : list input) :
  result w q (CountFailure 0 e :: more) = Some (Failed e) /\
  trace (submit w q (CountFailure 0 e :: more)) = [GetTransactionCount (address w)] /\
  length (attempts (submit w q (CountFailure 0 e :: more))) = 1%nat.
Proof.
  assert (H : submit w q (CountFailure 0 e :: more) =
              {| attempts := [{| a_request := q; a_lastNonce := None; a_nonce := None;
                                 a_txHash := None; a_promise := Rejected e |}];
                 pollers := []; trace := [GetTransactionCount (address w)] |}).
  { unfold submit.
    change (run w (sendTransaction w q None initial) (CountFailure 0 e :: more))
      with (run w (step w (sendTransaction w q None initial) (CountFailure 0 e)) more).
    change (step w (sendTransaction w q None initial) (CountFailure 0 e))
      with {| attempts := [{| a_request := q; a_lastNonce := None; a_nonce := None;
                              a_txHash := None; a_promise := Rejected e |}];
              pollers := []; trace := [GetTransactionCount (address w)] |}.
    induction more as [|inp more IH]; [reflexivity |].
    change (run w ?st (inp :: more)) with (run w (step w st inp) more).
    now rewrite (count_failure_inert e inp). }
  unfold result. rewrite H. repeat split.
Qed.

(** The nonce of an invocation that was there before a turn is the count
    that this turn delivers to it, or the nonce it had. *)
Lemma nonce_step (st : state) (inp : input) (i : nat) (a' : attempt) (c : N) :
  (i < length (attempts st))%nat ->
  attempts (step w st inp) !! i = Some a' -> a_nonce a' = Some c ->
  inp = CountReply i c \/
  exists a, attempts st !! i = Some a /\ a_nonce a = Some c.
Proof.
  intros Hi Ha' Hc.
  set (ok := fun l : list attempt =>
               forall b, l !! i = Some b ->
                         exists a, attempts st !! i = Some a /\ a_nonce a = a_nonce b).
  assert (Hbase : ok (attempts st)) by (intros b Hb; eauto).
  assert (Halter : forall (f : attempt -> attempt) (i0 : nat) (l : list attempt),
             (forall a, a_nonce (f a) = a_nonce a) -> ok l -> ok (alter f i0 l)).
  { intros f i0 l Hf Hl b Hb.
    apply lookup_alter_Some in Hb as (a & Ha & [[_ ->] | [_ ->]]).
    - rewrite Hf. auto.
    - auto. }
  assert (Happ : forall x, ok (attempts st ++ [x])).
  { intros x b Hb. rewrite lookup_app_l in Hb by exact Hi. eauto. }
  assert (Hfin : forall l, ok l -> l !! i = Some a' ->
             inp = CountReply i c \/
             exists a, attempts st !! i = Some a /\ a_nonce a = Some c).
  { intros l Hl H. right. destruct (Hl _ H) as (a & Ha & Hn). exists a. split; congruence. }
  assert (Hsettle : forall p a, a_nonce (settle p a) = a_nonce a).
  { intros p a. unfold settle. now destruct (a_promise a). }
  assert (Hhash : forall h a, a_nonce (set_txHash h a) = a_nonce a) by reflexivity.
  destruct inp as [i0 n | i0 e | i0 ev | j r | j e | j].
  - cbn [step] in Ha'. destruct (attempts st !! i0) as [a|] eqn:Ha; [| eauto].
    destruct (a_nonce a) eqn:Hn; [eauto |].
    destruct (a_promise a); eauto.
    cbn in Ha'. apply lookup_alter_Some in Ha' as (b & Hb & [[-> ->] | [_ ->]]).
    + cbn in Hc. left. congruence.
    + eauto.
  - cbn [step] in Ha'. destruct (attempts st !! i0) as [a|]; [| eauto].
    destruct (a_nonce a); [eauto |].
    cbn in Ha'. eapply Hfin; [| exact Ha']. auto.
  - destruct (attempts st !! i0) as [a|] eqn:Ha;
      [| cbn [step] in Ha'; rewrite Ha in Ha'; eauto].
    destruct (a_nonce a) as [n|] eqn:Hn;
      [| cbn [step] in Ha'; rewrite Ha, Hn in Ha'; eauto].
    destruct ev as [h | r | e].
    + rewrite (step_hash w st i0 a n h Ha Hn) in Ha'. cbn [attempts] in Ha'.
      eapply Hfin; [| exact Ha'].
      destruct (immediate (a_request a)); auto.
    + cbn [step] in Ha'. rewrite Ha, Hn in Ha'. cbn in Ha'.
      eapply Hfin; [| exact Ha']. auto.
    + destruct (classify (Js.toString e)) eqn:Hcl.
      * rewrite (step_timed_out w st i0 a n e Ha Hn Hcl) in Ha'. eauto.
      * rewrite (step_retry w st i0 a n e Ha Hn Hcl) in Ha'. cbn [attempts] in Ha'.
        eapply Hfin; [| exact Ha']. auto.
      * rewrite (step_fatal w st i0 a n e Ha Hn Hcl) in Ha'. cbn [attempts] in Ha'.
        eapply Hfin; [| exact Ha']. auto.
  - cbn [step] in Ha'. destruct (pollers st !! j) as [p|]; [| eauto].
    destruct (p_phase p); eauto. destruct r; eauto.
    cbn in Ha'. eapply Hfin; [| exact Ha']. auto.
  - cbn [step] in Ha'. destruct (pollers st !! j) as [p|]; [| eauto].
    destruct (p_phase p); eauto.
  - cbn [step] in Ha'. destruct (pollers st !! j) as [p|]; [| eauto].
    destruct (p_phase p); eauto.
Qed.

(** The first invocation of a logical request stays the first one, with
    the arguments of the request and no [lastNonce]. *)
Lemma root_exists (inputs : list input) :
  exists a, attempts (submit w q inputs) !! 0%nat = Some a /\
            a_request a = q /\ a_lastNonce a = None.
Proof.
  destruct (run_evolves w inputs (sendTransaction w q None initial) 0
              {| a_request := q; a_lastNonce := None; a_nonce := None;
                 a_txHash := None; a_promise := Pending |} eq_refl)
    as (a & Ha & Hq & Hl & _).
  exists a. auto.
Qed.

(** The nonce of the first invocation is a count that the endpoint has
    returned. *)
Lemma first_nonce_counted (inputs : list input) (a : attempt) (c : N) :
  attempts (submit w q inputs) !! 0%nat = Some a -> a_nonce a = Some c ->
  In (CountReply 0 c) inputs.
Proof.
  revert a. induction inputs as [|inp inputs IH] using rev_ind; intros a Ha Hc.
  - cbn in Ha. injection Ha as <-. discriminate.
  - rewrite submit_app in Ha.
    change (run w ?st [inp]) with (step w st inp) in Ha.
    apply in_or_app.
    destruct (root_exists inputs) as (a0 & Ha0 & _).
    destruct (nonce_step _ _ _ _ _ (lookup_lt_Some _ _ _ Ha0) Ha Hc)
      as [-> | (b & Hb & Hn)].
    + right. now left.
    + left. eapply IH; eauto.
Qed.

Lemma omap_pointwise {A B : Type} (f : A -> option B) (g : nat -> B)
    (l : list A) (o : nat) :
  (forall k a, l !! k = Some a -> f a = Some (g (o + k)%nat)) ->
  omap f l = map g (seq o (length l)).
Proof.
  revert o. induction l as [|x l IH]; intros o H; [reflexivity |].
  cbn. rewrite (H 0%nat x eq_refl), Nat.add_0_r. f_equal.
  apply IH. intros k a Hk. rewrite Nat.add_succ_l, <- Nat.add_succ_r.
  now apply H.
Qed.

(** X5: when no submission notifies more than one error, the nonces of
    the invocations of a logical request are the transaction count that
    the endpoint returned, then [lastNonce + 1] taken again and again as
    the script's numbers compute it, one per invocation and in order of
    invocation, and the transactions sent carry exactly these nonces, in
    hexadecimal; as long as they stay within [2^53] they are the count
    and the numbers that follow it. *)
Theorem nonces_from_count (inputs : list input) (c : N) :
  NoDup (errors_of inputs) ->
  head (nonces (submit w q inputs)) = Some c ->
  In (CountReply 0 c) inputs /\
  nonces (submit w q inputs)
  = map (fun k => Nat.iter k Js.add1 c) (seq 0 (length (attempts (submit w q inputs)))) /\
  map nonce (sent (submit w q inputs))
  = map (fun k => Js.toHex (Nat.iter k Js.add1 c))
        (seq 0 (length (attempts (submit w q inputs)))) /\
  ((c + N.of_nat (length (attempts (submit w q inputs))) <= 2 ^ 53)%N ->
   nonces (submit w q inputs)
   = map (fun k => (c + N.of_nat k)%N) (seq 0 (length (attempts (submit w q inputs))))).
Proof.
  intros Hnd Hhead.
  destruct (root_exists inputs) as (a0 & Ha0 & _).
  pose proof (consistent_submit w q inputs) as C.
  destruct (nonces_count_up w q inputs Hnd) as (_ & B).
  assert (Hc : a_nonce a0 = Some c).
  { unfold nonces in Hhead.
    destruct (attempts (submit w q inputs)) as [|x l] eqn:El; [discriminate |].
    cbn in Ha0. injection Ha0 as ->.
    destruct (a_nonce a0) as [n|] eqn:Hn.
    - cbn in Hhead. rewrite Hn in Hhead. cbn in Hhead. congruence.
    - assert (Hlen : length (a0 :: l) = 1%nat).
      { rewrite <- El in *. apply (awaiting_alone q _ C 0%nat a0); [| exact Hn].
        now rewrite El. }
      destruct l; [| discriminate]. cbn in Hhead. rewrite Hn in Hhead. discriminate. }
  assert (Hn : nonces (submit w q inputs)
               = map (fun k => Nat.iter k Js.add1 c)
                     (seq 0 (length (attempts (submit w q inputs))))).
  { unfold nonces. apply omap_pointwise. intros k a Hk. cbn. eapply B; eauto. }
  split; [eapply first_nonce_counted; eauto |]. split; [exact Hn |]. split.
  - rewrite paired_submit, Hn, !map_map. reflexivity.
  - intros Hsafe. rewrite Hn. apply map_ext_in. intros k Hk.
    apply in_seq in Hk. apply iter_add1_exact. lia.
Qed.

(** A turn that delivers neither an error nor a failure of the count
    leaves a lone invocation alone, polls nothing, and sends a
    transaction only when it gives the invocation its nonce. *)
Lemma smooth_step (st : state) (inp : input) (a : attempt) :
  attempts st = [a] -> pollers st = [] -> smooth inp = true ->
  (a_promise a = Pending \/ exists v, a_promise a = Fulfilled v) ->
  exists a' acts,
    attempts (step w st inp) = [a'] /\ pollers (step w st inp) = [] /\
    (a_promise a' = Pending \/ exists v, a_promise a' = Fulfilled v) /\
    trace (step w st inp) = trace st ++ acts /\ polled acts = [].
Proof.
  intros Ha Hp Hs Hok. destruct st as [l ps t]. cbn in Ha, Hp. subst l ps.
  assert (Hsame : exists a' acts,
            [a] = [a'] /\ @nil poller = [] /\
            (a_promise a' = Pending \/ exists v, a_promise a' = Fulfilled v) /\
            t = t ++ acts /\ polled acts = []).
  { exists a, []. rewrite app_nil_r. auto. }
  assert (Hsettle : forall v,
            a_promise (settle (Fulfilled v) a) = Pending \/
            exists v', a_promise (settle (Fulfilled v) a) = Fulfilled v').
  { intros v. unfold settle. destruct Hok as [E | (v' & E)]; rewrite E; cbn; eauto. }
  destruct inp as [[|i] n | i e | [|i] ev | j r | j e | j]; try discriminate;
    cbn [step attempts pollers trace lookup list_lookup]; try exact Hsame.
  - destruct (a_nonce a) eqn:Hn; [exact Hsame |].
    destruct (a_promise a) eqn:Hpa; try exact Hsame.
    eexists _, _. cbn. repeat split; eauto.
  - destruct (a_nonce a) as [n|] eqn:Hn; [| exact Hsame].
    destruct ev as [h | r | e]; try discriminate.
    + unfold on_transactionHash. cbn.
      exists (if immediate (a_request a)
              then settle (Fulfilled (VHash h)) (set_txHash h a) else set_txHash h a),
             (info (a_request a) ("Function: " +:+ methodName (a_request a) +:+ "() " +:+ h)).
      rewrite polled_info.
      destruct (immediate (a_request a)); cbn; repeat split; auto.
      unfold settle. cbn. destruct Hok as [E | (v' & E)]; rewrite E; cbn; eauto.
    + unfold on_receipt. cbn. exists (settle (Fulfilled (VReceipt r)) a), [].
      rewrite app_nil_r. repeat split; auto.
Qed.

(** X6: as long as no error is notified and the count is not refused, a
    logical request keeps to a single invocation: it sends at most one
    transaction, asks for no receipt, starts no poller, and does not
    fail. *)
Theorem smooth_request (inputs : list input) :
  forallb smooth inputs = true ->
  length (attempts (submit w q inputs)) = 1%nat /\
  pollers (submit w q inputs) = [] /\
  polled (trace (submit w q inputs)) = [] /\
  (length (sent (submit w q inputs)) <= 1)%nat /\
  (result w q inputs = None \/ exists v, result w q inputs = Some (Resolved v)).
Proof.
  intros Hs.
  assert (H : exists a,
             attempts (submit w q inputs) = [a] /\ pollers (submit w q inputs) = [] /\
             (a_promise a = Pending \/ exists v, a_promise a = Fulfilled v) /\
             polled (trace (submit w q inputs)) = []).
  { induction inputs as [|inp inputs IH] using rev_ind.
    - eexists. cbn. repeat split; auto.
    - rewrite forallb_app in Hs. apply andb_true_iff in Hs as (Hs & Hinp).
      cbn in Hinp. rewrite andb_true_r in Hinp.
      destruct (IH Hs) as (a & Ha & Hp & Hok & Hpoll).
      rewrite submit_app. change (run w ?st [inp]) with (step w st inp).
      destruct (smooth_step _ inp a Ha Hp Hinp Hok)
        as (a' & acts & Ha' & Hp' & Hok' & Ht & Hpoll').
      exists a'. repeat split; auto.
      now rewrite Ht, polled_app, Hpoll, Hpoll'. }
  destruct H as (a & Ha & Hp & Hok & Hpoll).
  repeat split; auto.
  - now rewrite Ha.
  - rewrite paired_submit, length_map. unfold nonces. rewrite Ha. cbn.
    destruct (a_nonce a); cbn; lia.
  - unfold result. destruct Hok as [Hpend | (v & Hv)].
    + left. eapply settled_pending; [| exact Hpend]. now rewrite Ha.
    + right. exists v. eapply settled_fulfilled; [| exact Hv]. now rewrite Ha.
Qed.

Lemma logged_info_silent (r : request) (message : string) :
  silent r = true -> logged (info r message) = [].
Proof. intros H. unfold info. now rewrite H. Qed.

(** A turn logs nothing when every invocation is silent. *)
Lemma silent_step (st : state) (inp : input) :
  (forall i a, attempts st !! i = Some a -> silent (a_request a) = true) ->
  exists acts, trace (step w st inp) = trace st ++ acts /\ logged acts = [].
Proof.
  intros Hall. apply (step_trace (fun acts => logged acts = [])); try reflexivity.
  - intros acts acts' H H'. now rewrite logged_app, H, H'.
  - intros i a message Ha. apply logged_info_silent. eauto.
Qed.

(** Every invocation after the first one logs. *)
Lemma retries_log (inputs : list input) (i : nat) (a : attempt) :
  attempts (submit w q inputs) !! S i = Some a -> silent (a_request a) = false.
Proof.
  revert i a. induction inputs as [|inp inputs IH] using rev_ind; intros i a Ha.
  - destruct i; discriminate.
  - rewrite submit_app in Ha. change (run w ?st [inp]) with (step w st inp) in Ha.
    assert (Hold : (S i < length (attempts (submit w q inputs)))%nat ->
                   silent (a_request a) = false).
    { intros Hlt. apply lookup_lt_is_Some in Hlt as (b & Hb).
      destruct (step_evolves w _ inp _ _ Hb) as (a' & Ha' & Hq & _).
      assert (a' = a) by congruence. subst a'. rewrite Hq. eauto. }
    destruct (step_grows w (submit w q inputs) inp)
      as [Hlen | (i0 & e & b & n & _ & _ & _ & Hlen & Hnew)].
    + apply Hold. apply lookup_lt_Some in Ha. lia.
    + destruct (decide (S i = length (attempts (submit w q inputs)))) as [E | E].
      * rewrite E, Hnew in Ha. injection Ha as <-. reflexivity.
      * apply Hold. apply lookup_lt_Some in Ha. lia.
Qed.

(** A silent request logs nothing while it has a single invocation. *)
Lemma silent_logs_nothing (inputs : list input) :
  silent q = true -> length (attempts (submit w q inputs)) = 1%nat ->
  logged (trace (submit w q inputs)) = [].
Proof.
  intros Hq. induction inputs as [|inp inputs IH] using rev_ind; intros Hlen.
  - reflexivity.
  - rewrite submit_app in *. change (run w ?st [inp]) with (step w st inp) in *.
    destruct (root_exists inputs) as (a0 & Ha0 & Hq0 & _).
    assert (Hone : length (attempts (submit w q inputs)) = 1%nat).
    { pose proof (lookup_lt_Some _ _ _ Ha0).
      pose proof (evolution_length _ _ (step_evolves w (submit w q inputs) inp)).
      lia. }
    destruct (silent_step (submit w q inputs) inp) as (acts & -> & Hacts).
    + intros i a Ha. pose proof (lookup_lt_Some _ _ _ Ha).
      assert (i = 0%nat) by lia. subst i.
      assert (a = a0) by congruence. subst a. now rewrite Hq0.
    + now rewrite logged_app, (IH Hone), Hacts.
Qed.

(** X7: the fifth argument [silent] is not handed on to a retry: every
    invocation after the first one logs, whatever the caller asked for;
    and a request made silent logs nothing as long as there has been no
    retry. *)
Theorem silent_until_retry (inputs : list input) :
  (forall i a, attempts (submit w q inputs) !! S i = Some a ->
               silent (a_request a) = false) /\
  (silent q = true -> length (attempts (submit w q inputs)) = 1%nat ->
   logged (trace (submit w q inputs)) = []).
Proof. split; [apply retries_log | apply silent_logs_nothing]. Qed.

End EngineFurther.

Section EngineFurtherWitnesses.

Import Engine Reasoning Script.

Lemma result_settles_once_witness :
  result Examples.served Examples.store_hello
    ([CountReply 0 7; Emit 0 (TransactionHash Examples.txHash1)]
       ++ [Emit 0 (Error Examples.reverted); Emit 0 (Receipt Examples.receipt1)])
  = Some (Resolved (VHash Examples.txHash1)).
Proof.
  exact (result_settles_once Examples.served Examples.store_hello
           [CountReply 0 7; Emit 0 (TransactionHash Examples.txHash1)]
           [Emit 0 (Error Examples.reverted); Emit 0 (Receipt Examples.receipt1)]
           (Resolved (VHash Examples.txHash1)) eq_refl).
Defined.

Lemma nonces_from_count_witness :
  let inputs := [CountReply 0 7; Emit 0 (Error Examples.underpriced);
                 Emit 1 (Error Examples.underpriced)] in
  In (CountReply 0 7) inputs /\
  nonces (submit Examples.served Examples.store_hello inputs)
  = map (fun k => Nat.iter k Js.add1 7%N)
        (seq 0 (length (attempts (submit Examples.served Examples.store_hello inputs)))) /\
  map nonce (sent (submit Examples.served Examples.store_hello inputs))
  = map (fun k => Js.toHex (Nat.iter k Js.add1 7%N))
        (seq 0 (length (attempts (submit Examples.served Examples.store_hello inputs)))) /\
  ((7 + N.of_nat (length (attempts (submit Examples.served Examples.store_hello inputs)))
    <= 2 ^ 53)%N ->
   nonces (submit Examples.served Examples.store_hello inputs)
   = map (fun k => (7 + N.of_nat k)%N)
         (seq 0 (length (attempts (submit Examples.served Examples.store_hello inputs))))).
Proof.
  apply (nonces_from_count Examples.served Examples.store_hello
           [CountReply 0 7; Emit 0 (Error Examples.underpriced);
            Emit 1 (Error Examples.underpriced)] 7).
  - apply (bool_decide_unpack _). vm_compute. exact I.
  - reflexivity.
Defined.

Example nonces_of_two_retries :
  nonces (submit Examples.served Examples.store_hello
            [CountReply 0 7; Emit 0 (Error Examples.underpriced);
             Emit 1 (Error Examples.underpriced)])
  = [7; 8; 9]%N.
Proof. reflexivity. Qed.

Lemma smooth_request_witness :
  let inputs := [CountReply 0 7; Emit 0 (TransactionHash Examples.txHash1);
                 Emit 0 (Receipt Examples.receipt1)] in
  length (attempts (submit Examples.served Examples.check_hello inputs)) = 1%nat /\
  pollers (submit Examples.served Examples.check_hello inputs) = [] /\
  polled (trace (submit Examples.served Examples.check_hello inputs)) = [] /\
  (length (sent (submit Examples.served Examples.check_hello inputs)) <= 1)%nat /\
  (result Examples.served Examples.check_hello inputs = None \/
   exists v, result Examples.served Examples.check_hello inputs = Some (Resolved v)).
Proof.
  apply (smooth_request Examples.served Examples.check_hello
           [CountReply 0 7; Emit 0 (TransactionHash Examples.txHash1);
            Emit 0 (Receipt Examples.receipt1)]).
  reflexivity.
Defined.

(** A deployment that is retried logs the hash of the retry, although the
    task asked for silence. *)
Example retried_deployment_logs :
  logged (trace (submit Examples.unset (Facade.deploy_request "0x6080")
                   [CountReply 0 7; Emit 0 (Error Examples.underpriced);
                    Emit 1 (TransactionHash Examples.txHash2)]))
  = [("info", "Function: deploy() " +:+ Examples.txHash2)].
Proof. reflexivity. Qed.

End EngineFurtherWitnesses.

(* ===================================================================== *)
(** * The task [deploy], the text of an error and the configuration *)
(* ===================================================================== *)

Section DeployTask.

Import Engine Reasoning Script.

Variable account : string.
Variable configured : option string.
Variable encode : call -> string.
Variable bin : string.

Let w := Facade.the_web3 account configured encode.
Let q := Facade.deploy_request bin.

(** X8: the task [deploy] sends, in every invocation, the encoding of
    the deployment of the compiled contract; when the engine resolves it
    is with a receipt, whose [contractAddress] is the one thing the task
    prints; when the engine fails the task logs the text of the error at
    level [fail]; and the engine itself logs nothing as long as there has
    been no retry. *)
Theorem deploy_prints_address (inputs : list input) :
  Forall (fun tx => data tx = encode (Deployment (Some (PData bin))))
         (sent (submit w q inputs)) /\
  (forall v, result w q inputs = Some (Resolved v) ->
             exists r, v = VReceipt r /\ deploy w bin inputs = [Print (contractAddress r)]) /\
  (forall e, result w q inputs = Some (Failed e) ->
             deploy w bin inputs = [Logged "fail" (Js.toString e)]) /\
  (length (attempts (submit w q inputs)) = 1%nat -> logged (trace (submit w q inputs)) = []).
Proof.
  repeat split.
  - rewrite paired_submit. apply List.Forall_forall. intros tx Htx.
    apply in_map_iff in Htx as (n & <- & _). reflexivity.
  - intros v Hv.
    destruct (result_is_receipt w q inputs v eq_refl Hv) as (r & ->).
    exists r. split; [reflexivity |]. unfold deploy. fold q. now rewrite Hv.
  - intros e He. unfold deploy. fold q. now rewrite He.
  - apply silent_logs_nothing. reflexivity.
Qed.

End DeployTask.

Section ErrorTextFurther.

Import Engine.

(** X9: the error handler goes by what the text of the error contains,
    the time-out pattern first: it polls exactly when "within 50 blocks"
    occurs in the text; it retries exactly when that does not occur and
    "known transaction" or "underpriced" does; it rejects exactly when
    none of the three occurs. *)
Theorem classify_by_occurrence (text : string) :
  match classify text with
  | TimedOut => Js.occurs_in "within 50 blocks" text
  | Retryable =>
      ~ Js.occurs_in "within 50 blocks" text /\
      (Js.occurs_in "known transaction" text \/ Js.occurs_in "underpriced" text)
  | Fatal =>
      ~ Js.occurs_in "within 50 blocks" text /\
      ~ Js.occurs_in "known transaction" text /\
      ~ Js.occurs_in "underpriced" text
  end.
Proof.
  assert (Hyes : forall p, p <> EmptyString -> Js.includes text p = true ->
                           Js.occurs_in p text).
  { intros p Hp H. now apply includes_spec. }
  assert (Hno : forall p, p <> EmptyString -> Js.includes text p = false ->
                          ~ Js.occurs_in p text).
  { intros p Hp H Ho. apply includes_spec in Ho; [congruence | exact Hp]. }
  unfold classify.
  destruct (Js.includes text "within 50 blocks") eqn:E1.
  - apply Hyes; [discriminate | exact E1].
  - destruct (Js.includes text "known transaction") eqn:E2; cbn.
    + split; [apply Hno; [discriminate | exact E1] |].
      left. apply Hyes; [discriminate | exact E2].
    + destruct (Js.includes text "underpriced") eqn:E3.
      * split; [apply Hno; [discriminate | exact E1] |].
        right. apply Hyes; [discriminate | exact E3].
      * repeat split; apply Hno; (discriminate || assumption).
Qed.

End ErrorTextFurther.

Section ConfigFurther.

Import Config.

(** X10: when the script gets past [parseEnv], to either task, the four
    required variables are set and not empty, and the configuration holds
    their values: the provider is the one of the environment, so that the
    default of the destructuring pattern is never the provider in use;
    the contract address is the optional fifth variable, as it is set or
    not. *)
Theorem started_configuration (env : environment) (task : string) (cfg : config) :
  main env task = Serving cfg \/ main env task = Deploying cfg ->
  (main env task = Deploying cfg <-> task = "deploy") /\
  env !! "ETH_PROVIDER" = Some (provider cfg) /\ provider cfg <> EmptyString /\
  Js.truthy (address cfg) = true /\ address cfg = env !! "ETH_ADDRESS" /\
  Js.truthy (keyfile cfg) = true /\ keyfile cfg = env !! "ETH_KEYFILE" /\
  Js.truthy (password cfg) = true /\ password cfg = env !! "ETH_PASSWORD" /\
  contractAddress cfg = env !! "CONTRACT_ADDRESS".
Proof.
  intros H.
  assert (Hmiss : missingKeys env = []).
  { unfold main, parseEnv in H. destruct (missingKeys env); [reflexivity |].
    destruct H; discriminate. }
  assert (Hset : forall key, In key required -> Js.truthy (env !! key) = true).
  { intros key Hin. destruct (Js.truthy (env !! key)) eqn:E; [reflexivity |].
    assert (Hk : In key (missingKeys env)).
    { apply missingKeys_spec. split; [exact Hin |]. unfold is_missing. now rewrite E. }
    rewrite Hmiss in Hk. destruct Hk. }
  rewrite (main_starts env task Hmiss) in *.
  assert (Hcfg : cfg = destructure env).
  { destruct (String.eqb task "deploy"); destruct H; congruence. }
  subst cfg. cbn.
  pose proof (Hset "ETH_PROVIDER" ltac:(cbn; tauto)) as Hp.
  repeat split.
  - intros Hd. destruct (String.eqb task "deploy") eqn:E; [| discriminate].
    now apply String.eqb_eq.
  - intros ->. reflexivity.
  - destruct (env !! "ETH_PROVIDER"); [reflexivity | discriminate].
  - destruct (env !! "ETH_PROVIDER") as [s|]; [| discriminate]. cbn in *.
    intros ->. discriminate.
  - apply Hset. cbn. tauto.
  - apply Hset. cbn. tauto.
  - apply Hset. cbn. tauto.
Qed.

(** X11: the message of the start-up error names the missing variables
    only: a required name that is set and not empty does not occur in
    it. *)
Theorem message_names_missing_only (env : environment) (message key : string) :
  parseEnv env = inl message -> In key required -> is_missing env key = false ->
  Js.includes message key = false.
Proof.
  intros Hp Hin Hset. unfold parseEnv, missingKeys, required in Hp.
  cbn [List.filter] in Hp. cbn in Hin.
  destruct (is_missing env "ETH_ADDRESS") eqn:E1,
           (is_missing env "ETH_KEYFILE") eqn:E2,
           (is_missing env "ETH_PASSWORD") eqn:E3,
           (is_missing env "ETH_PROVIDER") eqn:E4;
    try discriminate; injection Hp as <-;
    destruct Hin as [<- | [<- | [<- | [<- | []]]]];
    first [congruence | vm_compute; reflexivity].
Qed.

End ConfigFurther.

Section ConfigFurtherWitnesses.

Import Config.

Lemma started_configuration_witness :
  let env : environment :=
    <[ "ETH_PROVIDER" := "https://ropsten.infura.io" ]>
      (<[ "ETH_PASSWORD" := "secret" ]>
         (<[ "ETH_KEYFILE" := "{}" ]> {[ "ETH_ADDRESS" := "0xb0447e3e" ]})) in
  let cfg := destructure env in
  (main env "serve" = Deploying cfg <-> "serve" = "deploy") /\
  env !! "ETH_PROVIDER" = Some (provider cfg) /\ provider cfg <> EmptyString /\
  Js.truthy (address cfg) = true /\ address cfg = env !! "ETH_ADDRESS" /\
  Js.truthy (keyfile cfg) = true /\ keyfile cfg = env !! "ETH_KEYFILE" /\
  Js.truthy (password cfg) = true /\ password cfg = env !! "ETH_PASSWORD" /\
  contractAddress cfg = env !! "CONTRACT_ADDRESS".
Proof.
  intros env cfg. apply (started_configuration env "serve" cfg).
  left. vm_compute. reflexivity.
Defined.

Lemma message_names_missing_only_witness :
  Js.includes "ETH_KEYFILE, ETH_PASSWORD, ETH_PROVIDER environment variables must be set"
              "ETH_ADDRESS" = false.
Proof.
  apply (message_names_missing_only {[ "ETH_ADDRESS" := "0xb0447e3e" ]}).
  - vm_compute. reflexivity.
  - cbn. tauto.
  - vm_compute. reflexivity.
Defined.

End ConfigFurtherWitnesses.

(* ===================================================================== *)
(** * The stand-alone server *)
(* ===================================================================== *)

Section StandaloneFacts.

Import Engine Reasoning Script.

Variable w : web3.

Lemma standalone_run_app (st : state) (xs ys : list input) :
  Standalone.run w st (xs ++ ys) = Standalone.run w (Standalone.run w st xs) ys.
Proof. unfold Standalone.run. apply fold_left_app. Qed.

Lemma standalone_retry (st : state) (q : request) (n : N) :
  exists x acts,
    Standalone.sendTransaction w q (Some n) st
    = {| attempts := attempts st ++ [x]; pollers := pollers st;
         trace := trace st ++ acts |} /\
    polled acts = [] /\ a_request x = q.
Proof.
  unfold Standalone.sendTransaction. rewrite next_nonce_some.
  destruct (Engine.deploy w (methodName q)).
  - eexists _, []. rewrite app_nil_r. auto.
  - eexists _, _. auto.
Qed.

(** Every turn keeps the invocations there are, as the engine of the
    script does. *)
Lemma standalone_step_evolves (st : state) (inp : input) (i : nat) (a : attempt) :
  attempts st !! i = Some a ->
  exists a', attempts (Standalone.step w st inp) !! i = Some a' /\ evolves a a'.
Proof.
  intros Ha.
  set (ok := fun l : list attempt => exists a', l !! i = Some a' /\ evolves a a').
  assert (Hbase : ok (attempts st)) by (exists a; auto using evolves_refl).
  assert (Halter : forall (f : attempt -> attempt) (j : nat) (l : list attempt),
             (forall x, evolves x (f x)) -> ok l -> ok (alter f j l)).
  { intros f j l Hf (b & Hb & Hab). unfold ok. rewrite list_lookup_alter.
    case_decide; subst; rewrite Hb; cbn; eauto using evolves_trans. }
  assert (Happ : forall (l : list attempt) x, ok l -> ok (l ++ [x])).
  { intros l x (b & Hb & Hab). exists b. split; [| exact Hab].
    now apply lookup_app_l_Some. }
  change (ok (attempts (Standalone.step w st inp))).
  destruct inp as [j n | j e | j ev | j r | j e | j];
    try (apply step_evolves; exact Ha); cbn [Standalone.step].
  - destruct (attempts st !! j) as [b|] eqn:Hb; [| exact Hbase].
    destruct (a_nonce b) eqn:Hn; [exact Hbase |].
    destruct (a_promise b) eqn:Hp; try exact Hbase.
    destruct (Engine.deploy w (methodName (a_request b))); cbn.
    + apply Halter; auto using evolves_settle.
    + unfold ok. rewrite list_lookup_alter. case_decide; subst.
      * rewrite Ha. cbn. eexists. split; [reflexivity |].
        apply evolves_set_nonce. congruence.
      * eauto using evolves_refl.
  - destruct (attempts st !! j) as [b|] eqn:Hb; [| exact Hbase].
    destruct (a_nonce b) as [n|] eqn:Hn; [| exact Hbase].
    destruct ev as [h | r | e].
    + unfold Standalone.on_transactionHash. cbn.
      destruct (immediate (a_request b)); cbn;
        repeat apply Halter; auto using evolves_settle, evolves_set_txHash.
    + cbn. apply Halter; auto using evolves_settle.
    + unfold Standalone.on_error. destruct (Standalone.retryable (Js.toString e)).
      * destruct (standalone_retry
                    (emit st [Log "info" ("Transaction known, retrying with nonce "
                                          +:+ Js.showN (Js.add1 n))])
                    (a_request b) n) as (x & acts & -> & _).
        cbn. apply Halter; auto using evolves_settle.
      * cbn. apply Halter; auto using evolves_settle.
Qed.

Lemma standalone_run_evolves (inputs : list input) (st : state) (i : nat) (a : attempt) :
  attempts st !! i = Some a ->
  exists a', attempts (Standalone.run w st inputs) !! i = Some a' /\ evolves a a'.
Proof.
  revert st a. induction inputs as [|inp inputs IH]; intros st a Ha.
  - eauto using evolves_refl.
  - destruct (standalone_step_evolves st inp i a Ha) as (b & Hb & Hab).
    destruct (IH _ _ Hb) as (c & Hc & Hbc).
    exists c. split; [exact Hc | eapply evolves_trans; eauto].
Qed.

(** A promise that is settled stays as it is. *)
Lemma standalone_settled_kept (st : state) (inputs : list input) (i : nat) (o : outcome) :
  settled st i = Some o -> settled (Standalone.run w st inputs) i = Some o.
Proof.
  intros H. unfold settled in *.
  assert (He : forall i a, attempts st !! i = Some a ->
                 exists a', attempts (Standalone.run w st inputs) !! i = Some a' /\
                            evolves a a')
    by (intros; now apply standalone_run_evolves).
  eapply settled_in_mono.
  - eapply settled_in_kept; eauto.
  - now apply evolution_length.
Qed.

(** The poller that a turn leaves at a position was there before, with
    its hash and its owner, or it is the one that the handler of the hash
    has just started. *)
Lemma standalone_pollers_step (st : state) (inp : input) (j : nat) (p : poller) :
  pollers (Standalone.step w st inp) !! j = Some p ->
  (exists p0, pollers st !! j = Some p0 /\ p_hash p0 = p_hash p /\ p_owner p0 = p_owner p) \/
  (exists h, inp = Emit (p_owner p) (TransactionHash h) /\ p_hash p = Some h).
Proof.
  intros Hp.
  assert (Hsame : pollers st !! j = Some p ->
            (exists p0, pollers st !! j = Some p0 /\ p_hash p0 = p_hash p /\
                        p_owner p0 = p_owner p) \/
            (exists h, inp = Emit (p_owner p) (TransactionHash h) /\ p_hash p = Some h))
    by eauto.
  assert (Hphase : forall f j0, alter (set_phase f) j0 (pollers st) !! j = Some p ->
            (exists p0, pollers st !! j = Some p0 /\ p_hash p0 = p_hash p /\
                        p_owner p0 = p_owner p) \/
            (exists h, inp = Emit (p_owner p) (TransactionHash h) /\ p_hash p = Some h)).
  { intros f j0 H. left. apply lookup_alter_Some in H as (p0 & Hp0 & [[_ ->] | [_ ->]]); eauto. }
  destruct inp as [i n | i e | i ev | j0 r | j0 e | j0];
    cbn [Standalone.step step] in Hp.
  - destruct (attempts st !! i) as [b|]; [| auto].
    destruct (a_nonce b); [auto |]. destruct (a_promise b); auto.
    destruct (Engine.deploy w (methodName (a_request b))); auto.
  - destruct (attempts st !! i) as [b|]; [| auto]. destruct (a_nonce b); auto.
  - destruct (attempts st !! i) as [b|]; [| auto].
    destruct (a_nonce b) as [n|]; [| auto].
    destruct ev as [h | r | e].
    + unfold Standalone.on_transactionHash in Hp.
      assert (Hp' : (pollers st ++ [{| p_owner := i; p_hash := Some h;
                                       p_phase := Querying |}]) !! j = Some p).
      { destruct (immediate (a_request b)); exact Hp. }
      apply lookup_app_Some in Hp' as [Hold | (_ & Hnew)]; [auto |].
      apply list_lookup_singleton_Some in Hnew as [_ <-]. right. eauto.
    + auto.
    + unfold Standalone.on_error in Hp.
      destruct (Standalone.retryable (Js.toString e)); [| auto].
      destruct (standalone_retry
                  (emit st [Log "info" ("Transaction known, retrying with nonce "
                                        +:+ Js.showN (Js.add1 n))])
                  (a_request b) n) as (x & acts & E & _).
      rewrite E in Hp. auto.
  - destruct (pollers st !! j0) as [p0|]; [| auto].
    destruct (p_phase p0); auto. destruct r; cbn in Hp; eauto.
  - destruct (pollers st !! j0) as [p0|]; [| auto].
    destruct (p_phase p0); cbn in Hp; eauto.
  - destruct (pollers st !! j0) as [p0|]; [| auto].
    destruct (p_phase p0); cbn in Hp; eauto.
Qed.

(** The receipts that a turn asks for are those of the hash of a poller
    there is, or of the hash that is being notified. *)
Lemma standalone_polled_step (st : state) (inp : input) :
  exists acts,
    trace (Standalone.step w st inp) = trace st ++ acts /\
    forall x, In x (polled acts) ->
      (exists j p, pollers st !! j = Some p /\ p_hash p = x) \/
      (exists i h, inp = Emit i (TransactionHash h) /\ x = Some h).
Proof.
  assert (Hsame : exists acts,
            trace st = trace st ++ acts /\
            forall x, In x (polled acts) ->
              (exists j p, pollers st !! j = Some p /\ p_hash p = x) \/
              (exists i h, inp = Emit i (TransactionHash h) /\ x = Some h)).
  { exists []. rewrite app_nil_r. split; [reflexivity | intros x []]. }
  destruct inp as [i n | i e | i ev | j0 r | j0 e | j0]; cbn [Standalone.step step].
  - destruct (attempts st !! i) as [b|]; [| auto].
    destruct (a_nonce b); [auto |]. destruct (a_promise b); auto.
    destruct (Engine.deploy w (methodName (a_request b))); [exact Hsame |].
    eexists. split; [reflexivity | intros x []].
  - destruct (attempts st !! i) as [b|]; [| auto]. destruct (a_nonce b); auto.
  - destruct (attempts st !! i) as [b|]; [| auto].
    destruct (a_nonce b) as [n|]; [| auto].
    destruct ev as [h | r | e].
    + unfold Standalone.on_transactionHash.
      exists ([Log "info" ("Function: " +:+ methodName (a_request b) +:+ "() " +:+ h)]
              ++ [GetTransactionReceipt (Some h)]).
      split.
      * destruct (immediate (a_request b)); cbn; now rewrite <- app_assoc.
      * intros x [<- | []]. right. eauto.
    + exact Hsame.
    + unfold Standalone.on_error.
      destruct (Standalone.retryable (Js.toString e)); [| exact Hsame].
      destruct (standalone_retry
                  (emit st [Log "info" ("Transaction known, retrying with nonce "
                                        +:+ Js.showN (Js.add1 n))])
                  (a_request b) n) as (x & acts & -> & Hacts & _).
      cbn. eexists. split; [rewrite <- app_assoc; reflexivity |].
      rewrite polled_app, Hacts. intros y [].
  - destruct (pollers st !! j0) as [p0|]; [| auto].
    destruct (p_phase p0); auto. destruct r; [exact Hsame |].
    eexists. split; [reflexivity | intros x []].
  - destruct (pollers st !! j0) as [p0|]; [| auto].
    destruct (p_phase p0); auto.
  - destruct (pollers st !! j0) as [p0|] eqn:Hp0; [| auto].
    destruct (p_phase p0); auto.
    eexists. split; [reflexivity |]. intros x [<- | []]. left. eauto.
Qed.

Variable q : request.

(** X12: in the stand-alone server a poller is started by the handler of
    the hash only, so that it always polls a hash that was notified to
    its owner: no receipt is ever asked for with an undefined hash. *)
Theorem standalone_polls_notified_hash (inputs : list input) :
  (forall j p, pollers (Standalone.submit w q inputs) !! j = Some p ->
     exists h, p_hash p = Some h /\ In (Emit (p_owner p) (TransactionHash h)) inputs) /\
  (forall x, In x (polled (trace (Standalone.submit w q inputs))) ->
     exists h, x = Some h /\ exists i, In (Emit i (TransactionHash h)) inputs).
Proof.
  induction inputs as [|inp inputs (IHp & IHt)] using rev_ind.
  - split; [intros j p H; destruct j; discriminate | intros x []].
  - unfold Standalone.submit in *. rewrite standalone_run_app.
    change (Standalone.run w ?st [inp]) with (Standalone.step w st inp).
    set (st := Standalone.run w (Standalone.sendTransaction w q None initial) inputs) in *.
    split.
    + intros j p Hp.
      destruct (standalone_pollers_step st inp j p Hp)
        as [(p0 & Hp0 & Hh & Ho) | (h & -> & Hh)].
      * destruct (IHp j p0 Hp0) as (h & Hh0 & Hin).
        exists h. split; [congruence |]. rewrite <- Ho. apply in_or_app. now left.
      * exists h. split; [exact Hh |]. apply in_or_app. right. now left.
    + intros x Hx.
      destruct (standalone_polled_step st inp) as (acts & Ht & Hacts).
      rewrite Ht, polled_app in Hx. apply in_app_or in Hx as [Hx | Hx].
      * destruct (IHt x Hx) as (h & -> & i & Hin).
        exists h. split; [reflexivity |]. exists i. apply in_or_app. now left.
      * destruct (Hacts x Hx) as [(j & p & Hp & <-) | (i & h & -> & ->)].
        -- destruct (IHp j p Hp) as (h & Hh & Hin).
           exists h. split; [exact Hh |]. eexists. apply in_or_app. left. exact Hin.
        -- exists h. split; [reflexivity |]. exists i. apply in_or_app. right. now left.
Qed.


Lemma standalone_poll_rounds (k : nat) (st : state) (j : nat) :
  Standalone.run w st (poll_rounds j k) = run w st (poll_rounds j k).
Proof.
  revert st. induction k as [|k IH]; intros st; [reflexivity |].
  change (poll_rounds j (S k))
    with (ReceiptReply j None :: TimerFired j :: poll_rounds j k).
  change (Standalone.run w st (ReceiptReply j None :: TimerFired j :: poll_rounds j k))
    with (Standalone.run w (step w (step w st (ReceiptReply j None)) (TimerFired j))
            (poll_rounds j k)).
  now rewrite IH.
Qed.

(** X14: in the stand-alone server the handler of the hash starts the
    poller itself, whether the caller asked for an early resolution or
    not: once the count is answered and the hash notified, the receipt is
    asked for at once and again after every timer of 1000 ms; the request
    of a caller that did not ask for an early resolution resolves with
    the first receipt the endpoint returns to the poller, with no
    notification of a receipt, and the request of a caller that did has
    resolved with the hash and keeps it. *)
Theorem standalone_resolves_by_polling (c : N) (h : hash) (k : nat) (r : receipt)
    (more : list input) :
  Engine.deploy w (methodName q) = false ->
  trace (Standalone.submit w q
           ([CountReply 0 c; Emit 0 (TransactionHash h)] ++ poll_rounds 0 k))
  = [GetTransactionCount (address w);
     SendSignedTransaction (Standalone.build w q c);
     Log "info" ("Function: " +:+ methodName q +:+ "() " +:+ h);
     GetTransactionReceipt (Some h)] ++ poll_actions (Some h) k /\
  Standalone.result w q
    ([CountReply 0 c; Emit 0 (TransactionHash h)] ++ poll_rounds 0 k
       ++ ReceiptReply 0 (Some r) :: more)
  = Some (Resolved (if immediate q then VHash h else VReceipt r)).
Proof.
  intros Hm.
  set (a1 := {| a_request := q; a_lastNonce := None; a_nonce := Some c;
                a_txHash := Some h;
                a_promise := if immediate q then Fulfilled (VHash h) else Pending |}).
  set (p1 := {| p_owner := 0%nat; p_hash := Some h; p_phase := Querying |}).
  set (st1 := {| attempts := [a1]; pollers := [p1];
                 trace := [GetTransactionCount (address w);
                           SendSignedTransaction (Standalone.build w q c);
                           Log "info" ("Function: " +:+ methodName q +:+ "() " +:+ h);
                           GetTransactionReceipt (Some h)] |}).
  assert (H1 : Standalone.submit w q [CountReply 0 c; Emit 0 (TransactionHash h)] = st1).
  { unfold Standalone.submit. cbn. rewrite Hm. cbn.
    unfold Standalone.on_transactionHash. cbn.
    unfold st1, a1. destruct (immediate q); reflexivity. }
  destruct (poll_rounds_run w k st1 0 p1 eq_refl eq_refl) as (Hatt & Htr & Hpoll).
  assert (H2 : Standalone.submit w q
                 ([CountReply 0 c; Emit 0 (TransactionHash h)] ++ poll_rounds 0 k)
               = run w st1 (poll_rounds 0 k)).
  { unfold Standalone.submit in *. now rewrite standalone_run_app, H1, standalone_poll_rounds. }
  split.
  - rewrite H2. exact Htr.
  - unfold Standalone.result, Standalone.submit in *.
    rewrite app_assoc, standalone_run_app, H2.
    change (Standalone.run w ?st (ReceiptReply 0 (Some r) :: more))
      with (Standalone.run w (step w st (ReceiptReply 0 (Some r))) more).
    apply standalone_settled_kept.
    rewrite (poll_finish w _ 0 p1 r Hpoll eq_refl).
    eapply settled_fulfilled.
    + cbn. rewrite Hatt. reflexivity.
    + cbn. unfold settle, a1. cbn. destruct (immediate q); reflexivity.
Qed.

End StandaloneFacts.

Section StandaloneWitnesses.

Import Engine Reasoning.


Lemma standalone_resolves_by_polling_witness :
  trace (Standalone.submit Examples.served Examples.check_hello
           ([CountReply 0 7; Emit 0 (TransactionHash Examples.txHash1)] ++ poll_rounds 0 2))
  = [GetTransactionCount (address Examples.served);
     SendSignedTransaction (Standalone.build Examples.served Examples.check_hello 7);
     Log "info" ("Function: " +:+ methodName Examples.check_hello +:+ "() "
                 +:+ Examples.txHash1);
     GetTransactionReceipt (Some Examples.txHash1)]
    ++ poll_actions (Some Examples.txHash1) 2 /\
  Standalone.result Examples.served Examples.check_hello
    ([CountReply 0 7; Emit 0 (TransactionHash Examples.txHash1)] ++ poll_rounds 0 2
       ++ ReceiptReply 0 (Some Examples.receipt1) :: [])
  = Some (Resolved (if immediate Examples.check_hello
                    then VHash Examples.txHash1 else VReceipt Examples.receipt1)).
Proof.
  exact (standalone_resolves_by_polling Examples.served Examples.check_hello
           7 Examples.txHash1 2 Examples.receipt1 [] eq_refl).
Defined.

(** The same deliveries in the script: the time-out starts a poller and
    the request resolves with the receipt the poller obtains. *)
Example script_polls_on_timeout :
  result Examples.served Examples.check_hello
    [CountReply 0 7; Emit 0 (TransactionHash Examples.txHash1);
     Emit 0 (Error Examples.timed_out); ReceiptReply 0 (Some Examples.receipt1)]
  = Some (Resolved (VReceipt Examples.receipt1)).
Proof. reflexivity. Qed.

End StandaloneWitnesses.

(* ===================================================================== *)
(** * The handlers, the poller and the log, further *)
(* ===================================================================== *)

Section HandlersFurther.

Import Engine Reasoning Script.

Variable lib : Facade.shajs.
Variable w : web3.

(** X15: a handler answers once and for all: the response of [notarize]
    or of [verify] to a value, or the exception that left the handler,
    is the same after any further deliveries of the event loop. *)
Theorem response_stands (value : Facade.supplied) (inputs more : list input)
    (status : N) (p : Facade.payload) :
  (Facade.reply (Facade.notarize lib w value inputs) = Facade.Responded status p ->
   Facade.reply (Facade.notarize lib w value (inputs ++ more)) = Facade.Responded status p) /\
  (Facade.reply (Facade.verify lib w value inputs) = Facade.Responded status p ->
   Facade.reply (Facade.verify lib w value (inputs ++ more)) = Facade.Responded status p).
Proof.
  split; intros H.
  - unfold Facade.notarize in *. destruct (Facade.valueHash lib value) as [e | h]; [exact H |].
    destruct (settled (submit w (Facade.notarize_request h) inputs) 0) as [o|] eqn:Ho;
      [| discriminate].
    rewrite submit_app, (settled_kept w _ more 0 o Ho). exact H.
  - unfold Facade.verify in *. destruct (Facade.valueHash lib value) as [e | h]; [exact H |].
    destruct (settled (submit w (Facade.verify_request h) inputs) 0) as [o|] eqn:Ho;
      [| discriminate].
    rewrite submit_app, (settled_kept w _ more 0 o Ho). exact H.
Qed.

(** What is delivered to an abandoned poller changes nothing. *)
Lemma abandoned_inert (st : state) (j : nat) (p : poller) (inp : input) :
  pollers st !! j = Some p -> p_phase p = Abandoned -> to_poller j inp = true ->
  step w st inp = st.
Proof.
  intros Hj Hp Hto.
  destruct inp as [i n | i e | i ev | j0 r | j0 e | j0]; try discriminate;
    cbn in Hto; apply Nat.eqb_eq in Hto; subst j0; cbn [step]; now rewrite Hj, Hp.
Qed.

(** X16: a poller does not survive a failure of the endpoint: when a
    request for the receipt fails, the poller asks no more, sets no
    timer and resolves nothing, whatever is delivered to it afterwards;
    the invocations and the trace stay as they were. *)
Theorem poll_failure_ends_polling (st : state) (j : nat) (p : poller) (e : Js.error)
    (more : list input) :
  pollers st !! j = Some p -> p_phase p = Querying ->
  forallb (to_poller j) more = true ->
  run w st (ReceiptFailure j e :: more)
  = {| attempts := attempts st;
       pollers := alter (set_phase Abandoned) j (pollers st);
       trace := trace st |}.
Proof.
  intros Hj Hp Hmore.
  change (run w st (ReceiptFailure j e :: more))
    with (run w (step w st (ReceiptFailure j e)) more).
  assert (H1 : step w st (ReceiptFailure j e)
               = {| attempts := attempts st;
                    pollers := alter (set_phase Abandoned) j (pollers st);
                    trace := trace st |}).
  { cbn [step]. now rewrite Hj, Hp. }
  rewrite H1. clear H1.
  induction more as [|inp more IH]; [reflexivity |].
  cbn in Hmore. apply andb_true_iff in Hmore as (Hinp & Hmore).
  change (run w ?s (inp :: more)) with (run w (step w s inp) more).
  rewrite (abandoned_inert _ j (set_phase Abandoned p) inp); auto.
  cbn. rewrite list_lookup_alter_eq, Hj. reflexivity.
Qed.

Variable q : request.

Lemma logged_levels_app (t t' : list action) :
  Forall (fun line => In (fst line) colors) (logged t) ->
  Forall (fun line => In (fst line) colors) (logged t') ->
  Forall (fun line => In (fst line) colors) (logged (t ++ t')).
Proof. intros H H'. rewrite logged_app. now apply Forall_app. Qed.

(** X17: [log] is only ever called with a level it has a colour for, so
    that [colors[level]] is a function: every line that the engine and
    the two handlers log is at level [info] or [fail]. *)
Theorem log_levels_known (value : Facade.supplied) (inputs : list input) :
  Forall (fun line => In (fst line) colors) (logged (trace (submit w q inputs))) /\
  Forall (fun line => In (fst line) colors)
         (logged (Facade.said (Facade.notarize lib w value inputs))) /\
  Forall (fun line => In (fst line) colors)
         (logged (Facade.said (Facade.verify lib w value inputs))).
Proof.
  repeat split.
  - induction inputs as [|inp inputs' IH] using rev_ind.
    + cbn. constructor.
    + rewrite submit_app. change (run w ?s [inp]) with (step w s inp).
      destruct (step_trace w (fun acts => Forall (fun line => In (fst line) colors)
                                                 (logged acts))
                  (submit w q inputs') inp) as (acts & -> & Hacts).
      * constructor.
      * intros. now apply logged_levels_app.
      * intros. constructor.
      * intros i a message _. unfold info. destruct (silent (a_request a)); cbn.
        -- constructor.
        -- constructor; [cbn; tauto | constructor].
      * intros. constructor.
      * intros. constructor.
      * constructor.
      * now apply logged_levels_app.
  - unfold Facade.notarize. destruct (Facade.valueHash lib value) as [e | h]; [constructor |].
    destruct (settled _ 0) as [[v | e] |]; cbn; repeat constructor; cbn; tauto.
  - unfold Facade.verify. destruct (Facade.valueHash lib value) as [e | h]; [constructor |].
    destruct (settled _ 0) as [[v | e] |]; cbn; [| repeat constructor; cbn; tauto ..].
    destruct (Facade.decode v) as [e | [n h']]; cbn; repeat constructor; cbn; tauto.
Qed.

End HandlersFurther.

Section HandlersFurtherWitnesses.

Import Engine Reasoning Script.

Lemma response_stands_witness :
  Facade.reply (Facade.notarize Examples.lib Examples.served (Facade.Text "hello")
                  ([CountReply 0 7; Emit 0 (TransactionHash Examples.txHash1)]
                     ++ [Emit 0 (Error Examples.reverted)]))
  = Facade.Responded 200 (Facade.OfEngine (VHash Examples.txHash1)).
Proof.
  exact (proj1 (response_stands Examples.lib Examples.served (Facade.Text "hello")
                  [CountReply 0 7; Emit 0 (TransactionHash Examples.txHash1)]
                  [Emit 0 (Error Examples.reverted)]
                  200 (Facade.OfEngine (VHash Examples.txHash1))) eq_refl).
Defined.

Lemma poll_failure_ends_polling_witness :
  let st := submit Examples.served Examples.check_hello
              [CountReply 0 7; Emit 0 (TransactionHash Examples.txHash1);
               Emit 0 (Error Examples.timed_out)] in
  run Examples.served st
      (ReceiptFailure 0 (Js.Str "connection refused")
         :: [TimerFired 0; ReceiptReply 0 (Some Examples.receipt1)])
  = {| attempts := attempts st;
       pollers := alter (set_phase Abandoned) 0 (pollers st);
       trace := trace st |}.
Proof.
  intros st.
  exact (poll_failure_ends_polling Examples.served st 0
           {| p_owner := 0; p_hash := Some Examples.txHash1; p_phase := Querying |}
           (Js.Str "connection refused")
           [TimerFired 0; ReceiptReply 0 (Some Examples.receipt1)]
           eq_refl eq_refl eq_refl).
Defined.

End HandlersFurtherWitnesses.

(* ===================================================================== *)
(** * The page *)
(* ===================================================================== *)

Section PageFacts.

Import Page.

Lemma page_run_app (p : page) (xs ys : list event) :
  Page.run p (xs ++ ys) = Page.run (Page.run p xs) ys.
Proof. unfold Page.run. apply fold_left_app. Qed.

Lemma typed_snoc (events : list event) (ev : event) :
  typed (events ++ [ev]) = match ev with Input v => v | _ => typed events end.
Proof. unfold typed. now rewrite fold_left_app. Qed.

Lemma answer_keeps (i : nat) (f : flight) (r : reply) (p : page) :
  count (answer i f r p) = count p /\
  (input (answer i f r p) = input p \/ input (answer i f r p) = EmptyString).
Proof.
  destruct r as [| [|] text [[notarized txHash]|]]; cbn; auto;
    destruct (f_kind f); cbn; auto.
Qed.

(** X18: the counter of the page is brought up to date by typing only:
    after whatever typing, clicks and answers, it shows the length of
    the text typed last, while the text area holds that text or, once an
    answer has emptied it, nothing; so that after a successful request
    the counter still shows the length of the text that is gone. *)
Theorem counter_follows_typing (events : list event) :
  count (Page.run Page.initial events) = chars (typed events) /\
  (input (Page.run Page.initial events) = typed events \/
   input (Page.run Page.initial events) = EmptyString).
Proof.
  induction events as [|ev events (IHc & IHi)] using rev_ind.
  - split; [reflexivity | now left].
  - rewrite page_run_app, typed_snoc.
    change (Page.run ?p [ev]) with (Page.step p ev).
    destruct ev as [v | k | i r]; cbn [Page.step].
    + cbn. auto.
    + cbn. auto.
    + destruct (flights (Page.run Page.initial events) !! i) as [f|]; [| auto].
      destruct (f_done f); [auto |].
      destruct (answer_keeps i f r (Page.run Page.initial events)) as (Hc & Hi).
      rewrite Hc. split; [exact IHc |].
      destruct Hi as [-> | ->]; auto.
Qed.

Example counter_is_left_behind :
  let p := Page.run Page.initial
             [Input "hello"; Click Notarize;
              Reply 0 (Response true Examples.txHash1 None)] in
  input p = EmptyString /\ count p = "5 Chars".
Proof. split; reflexivity. Qed.

(** Typing changes neither the log nor the calls in flight. *)
Lemma typing_keeps (typing : list event) (p : page) :
  forallb is_input typing = true ->
  log (Page.run p typing) = log p /\
  flights (Page.run p typing) = flights p /\
  fetches (Page.run p typing) = fetches p.
Proof.
  revert p. induction typing as [|ev typing IH]; intros p H; [auto |].
  cbn in H. apply andb_true_iff in H as (Hev & H).
  destruct ev as [v | k | i r]; try discriminate.
  change (Page.run p (Input v :: typing)) with (Page.run (Page.step p (Input v)) typing).
  destruct (IH (Page.step p (Input v)) H) as (Hl & Hf & Hq). auto.
Qed.

(** X19: a click that is answered before the next click: whatever
    happened before and whatever is typed while waiting, [fetch] is
    called with the text that the text area held at the click, put into
    the URL as it is for [verify]; when the answer is not a response
    with [ok], or its JSON cannot be read by [verify], the log is the
    two entries "Building transaction" OK and "Sending transaction"
    FAIL and the text area is left alone; otherwise the log is completed
    with "Cleaning up", for [verify] the verdict TRUE or FALSE, and the
    link to the transaction, and the text area is emptied, with what
    was typed while waiting. *)
Theorem click_then_answer (pre typing : list event) (k : kind) (r : reply) :
  forallb is_input typing = true ->
  let p0 := Page.run Page.initial pre in
  let p1 := Page.run Page.initial (pre ++ Click k :: typing) in
  let p := Page.run Page.initial (pre ++ Click k :: typing ++ [Reply (length (flights p0)) r]) in
  let building := {| message := "Building transaction"; status := "OK";
                     classes := ["status"; "load"; "ok"] |} in
  let sending (label class : string) :=
    {| message := "Sending transaction"; status := label;
       classes := ["status"; "load"; class] |} in
  let cleaning := {| message := "Cleaning up"; status := "OK";
                     classes := ["status"; "load"; "ok"] |} in
  fetches p = fetches p0 ++ [match k with
                             | Notarize => PostNotarize (input p0)
                             | Verify => GetVerify ("/verify?value=" +:+ input p0)
                             end] /\
  match k, r with
  | Notarize, Response true text _ =>
      input p = EmptyString /\
      log p = [building; sending "OK" "ok"; cleaning; tx text (createLogEntry "Complete")]
  | Verify, Response true _ (Some (notarized, txHash)) =>
      input p = EmptyString /\
      log p = [building; sending "OK" "ok"; cleaning;
               {| message := "Verified?";
                  status := if notarized then "TRUE" else "FALSE";
                  classes := ["status"; "load"; if notarized then "ok" else "fail"] |};
               tx txHash (createLogEntry "Complete")]
  | _, _ =>
      input p = input p1 /\ log p = [building; sending "FAIL" "fail"]
  end.
Proof.
  intros Htyping p0 p1 p building sending cleaning.
  assert (E1 : p1 = Page.run (click k p0) typing).
  { unfold p1, p0. rewrite page_run_app. reflexivity. }
  assert (Ep : p = Page.step p1 (Reply (length (flights p0)) r)).
  { unfold p, p1.
    replace (pre ++ Click k :: typing ++ [Reply (length (flights p0)) r])
      with ((pre ++ Click k :: typing) ++ [Reply (length (flights p0)) r])
      by (now rewrite <- app_assoc).
    rewrite page_run_app. reflexivity. }
  destruct (typing_keeps typing (click k p0) Htyping) as (Hl & Hf & Hq).
  rewrite <- E1 in Hl, Hf, Hq.
  assert (Hfl : flights p1 !! length (flights p0)
                = Some {| f_kind := k; f_entry := Some 1%nat; f_done := false |}).
  { rewrite Hf. cbn. rewrite lookup_app_r by (rewrite length_map; lia).
    rewrite length_map, Nat.sub_diag. reflexivity. }
  assert (Hstep : p = answer (length (flights p0))
                        {| f_kind := k; f_entry := Some 1%nat; f_done := false |} r p1).
  { rewrite Ep. cbn [Page.step]. now rewrite Hfl. }
  assert (Hfetch : forall i f, fetches (answer i f r p1) = fetches p1).
  { intros i f. destruct r as [| [|] text [[notarized txHash]|]]; cbn; auto;
      destruct (f_kind f); reflexivity. }
  split.
  - rewrite Hstep, Hfetch, Hq. reflexivity.
  - rewrite Hstep.
    destruct k, r as [| [|] text [[[|] txHash]|]]; cbn; rewrite Hl; cbn; auto.
Qed.

End PageFacts.

Section PageWitnesses.

Import Page.

Lemma click_then_answer_witness :
  let p := Page.run Page.initial
             ([Input "hello"] ++ Click Verify :: [Input "hello again"]
                ++ [Reply 0 (Response true EmptyString (Some (true, Examples.txHash1)))]) in
  fetches p = [GetVerify "/verify?value=hello"] /\
  input p = EmptyString /\
  log p = [{| message := "Building transaction"; status := "OK";
              classes := ["status"; "load"; "ok"] |};
           {| message := "Sending transaction"; status := "OK";
              classes := ["status"; "load"; "ok"] |};
           {| message := "Cleaning up"; status := "OK";
              classes := ["status"; "load"; "ok"] |};
           {| message := "Verified?"; status := "TRUE";
              classes := ["status"; "load"; "ok"] |};
           tx Examples.txHash1 (createLogEntry "Complete")].
Proof.
  exact (click_then_answer [Input "hello"] [Input "hello again"] Verify
           (Response true EmptyString (Some (true, Examples.txHash1))) eq_refl).
Defined.

(** An answer that arrives after the next click completes the log of
    that click, and its own entry is not in it any more. *)
Example late_answer :
  log (Page.run Page.initial
         [Click Notarize; Click Verify; Reply 0 (Response true Examples.txHash1 None)])
  = [{| message := "Building transaction"; status := "OK";
        classes := ["status"; "load"; "ok"] |};
     createLogEntry "Sending transaction";
     {| message := "Cleaning up"; status := "OK"; classes := ["status"; "load"; "ok"] |};
     tx Examples.txHash1 (createLogEntry "Complete")].
Proof. reflexivity. Qed.

End PageWitnesses.

(* ===================================================================== *)
(** * Retries without limit, and a method that is not there *)
(* ===================================================================== *)

Section RetriesFurther.

Import Engine Reasoning Script.

Variable w : web3.
Variable q : request.

Lemma refusals_app (xs ys : list Js.error) (i : nat) :
  refusals i (xs ++ ys) = refusals i xs ++ refusals (i + length xs) ys.
Proof.
  revert i. induction xs as [|x xs IH]; intros i; cbn.
  - now rewrite Nat.add_0_r.
  - rewrite IH. now rewrite Nat.add_succ_r.
Qed.

(** Against an endpoint that refuses every transaction with a retryable
    error, the invocations form a chain: each follows the next one, the
    last one is pending, and each nonce is [lastNonce + 1] of the one
    before. *)
Lemma refused_chain (c : N) (errors : list Js.error) :
  Forall (fun e => classify (Js.toString e) = Retryable) errors ->
  let st := submit w q (CountReply 0 c :: refusals 0 errors) in
  length (attempts st) = S (length errors) /\
  forall i a, attempts st !! i = Some a ->
    a_nonce a = Some (Nat.iter i Js.add1 c) /\
    ((i < length errors)%nat -> a_promise a = Follows (S i)) /\
    (i = length errors -> a_promise a = Pending).
Proof.
  induction errors as [|e errors IH] using rev_ind; intros Hall st.
  - split; [reflexivity |]. intros i a Ha.
    apply list_lookup_singleton_Some in Ha as [-> <-]. cbn.
    repeat split; intros; solve [reflexivity | lia].
  - apply Forall_app in Hall as (Hall & He). apply Forall_inv in He.
    destruct (IH Hall) as (Hlen & Hchain). clear IH.
    set (st0 := submit w q (CountReply 0 c :: refusals 0 errors)) in *.
    assert (Est : st = step w st0 (Emit (length errors) (Error e))).
    { unfold st, st0. rewrite refusals_app. cbn [refusals]. rewrite Nat.add_0_l.
      change (CountReply 0 c :: refusals 0 errors ++ [Emit (length errors) (Error e)])
        with ((CountReply 0 c :: refusals 0 errors) ++ [Emit (length errors) (Error e)]).
      now rewrite submit_app. }
    assert (Hlast : is_Some (attempts st0 !! length errors)).
    { apply lookup_lt_is_Some. lia. }
    destruct Hlast as (ak & Hak).
    destruct (Hchain _ _ Hak) as (Hnk & _ & Hpk).
    rewrite (step_retry w st0 _ ak _ e Hak Hnk He) in Est.
    rewrite Est. cbn [attempts]. rewrite length_alter, !length_app, Hlen. cbn [length].
    split; [lia |].
    intros i a Ha. apply lookup_alter_Some in Ha as (b & Hb & Hor).
    apply lookup_app_Some in Hb as [Hb | (Hge & Hb)].
    + destruct (Hchain _ _ Hb) as (Hn & Hf & Hp).
      destruct Hor as [[-> ->] | [Hne ->]].
      * unfold settle. rewrite (Hp eq_refl). cbn.
        repeat split; intros; solve [exact Hn | reflexivity | lia].
      * pose proof (lookup_lt_Some _ _ _ Hb).
        repeat split; intros; solve [exact Hn | apply Hf; lia | lia].
    + apply list_lookup_singleton_Some in Hb as [Hi <-].
      assert (i = S (length errors)) by lia. subst i.
      destruct Hor as [[Heq _] | [_ ->]]; [lia |].
      cbn [a_nonce a_promise retry_of].
      repeat split; intros; solve [reflexivity | lia].
Qed.

(** X20: the engine sets no limit to the retries: against an endpoint
    that answers every transaction with a retryable error, it sends one
    transaction more for each error, with the count as first nonce and
    then [lastNonce + 1] of the nonce before, as the script's numbers
    compute it, and the logical request neither resolves nor fails; as
    long as the nonces stay within [2^53] they are the count and the
    numbers that follow it. *)
Theorem retries_without_limit (c : N) (errors : list Js.error) :
  Forall (fun e => classify (Js.toString e) = Retryable) errors ->
  let inputs := CountReply 0 c :: refusals 0 errors in
  nonces (submit w q inputs)
  = map (fun k => Nat.iter k Js.add1 c) (seq 0 (S (length errors))) /\
  sent (submit w q inputs)
  = map (fun k => build w q (Nat.iter k Js.add1 c)) (seq 0 (S (length errors))) /\
  result w q inputs = None /\
  ((c + N.of_nat (length errors) <= 2 ^ 53)%N ->
   nonces (submit w q inputs)
   = map (fun k => (c + N.of_nat k)%N) (seq 0 (S (length errors)))).
Proof.
  intros Hall inputs.
  destruct (refused_chain c errors Hall) as (Hlen & Hchain). fold inputs in Hlen, Hchain.
  assert (Hn : nonces (submit w q inputs)
               = map (fun k => Nat.iter k Js.add1 c) (seq 0 (S (length errors)))).
  { unfold nonces. rewrite <- Hlen. apply omap_pointwise.
    intros k a Ha. now destruct (Hchain k a Ha). }
  split; [exact Hn |]. split; [now rewrite paired_submit, Hn, map_map |].
  assert (Hexact : (c + N.of_nat (length errors) <= 2 ^ 53)%N ->
            nonces (submit w q inputs)
            = map (fun k => (c + N.of_nat k)%N) (seq 0 (S (length errors)))).
  { intros Hsafe. rewrite Hn. apply map_ext_in. intros k Hk.
    apply in_seq in Hk. apply iter_add1_exact. lia. }
  split; [| exact Hexact].
  assert (Hstands : forall d, (d <= length errors)%nat ->
            stands_for (attempts (submit w q inputs)) (length errors - d) (length errors)).
  { induction d as [|d IH]; intros Hd.
    - rewrite Nat.sub_0_r. constructor.
    - assert (Hi : is_Some (attempts (submit w q inputs) !! (length errors - S d)%nat)).
      { apply lookup_lt_is_Some. lia. }
      destruct Hi as (a & Ha). destruct (Hchain _ _ Ha) as (_ & Hf & _).
      eapply stands_further; [exact Ha | apply Hf; lia |].
      replace (S (length errors - S d)) with (length errors - d)%nat by lia.
      apply IH. lia. }
  specialize (Hstands (length errors) (Nat.le_refl _)). rewrite Nat.sub_diag in Hstands.
  unfold result.
  rewrite (stands_for_settled q _ 0 (length errors) (consistent_submit w q inputs) Hstands).
  assert (Hk : is_Some (attempts (submit w q inputs) !! length errors)).
  { apply lookup_lt_is_Some. lia. }
  destruct Hk as (a & Ha). destruct (Hchain _ _ Ha) as (_ & _ & Hp).
  eapply settled_pending; [exact Ha | auto].
Qed.

(** Once the method has turned out not to be there, nothing that is
    delivered changes anything. *)
Lemma unknown_method_inert (inp : input) :
  let st := {| attempts := [{| a_request := q; a_lastNonce := None; a_nonce := None;
                               a_txHash := None;
                               a_promise := Rejected Standalone.not_a_function |}];
               pollers := []; trace := [GetTransactionCount (address w)] |} in
  Standalone.step w st inp = st.
Proof.
  destruct inp as [[|i] n | [|i] e' | [|i] ev | j r | j e' | j]; reflexivity.
Qed.

(** X21: the stand-alone server calls [contract.methods[methodName]]
    whatever the name: for a name that is no method of the contract, the
    request fails with a [TypeError] once the count is answered, and no
    transaction is ever sent, where the script would have deployed. *)
Theorem standalone_unknown_method (c : N) (more : list input) :
  Engine.deploy w (methodName q) = true ->
  Standalone.result w q (CountReply 0 c :: more) = Some (Failed Standalone.not_a_function) /\
  trace (Standalone.submit w q (CountReply 0 c :: more)) = [GetTransactionCount (address w)] /\
  sent (submit w q [CountReply 0 c])
  = [build w q c] /\ data (build w q c) = encodeABI w (Deployment (head (params q))).
Proof.
  intros Hm.
  assert (H : Standalone.submit w q (CountReply 0 c :: more) =
              {| attempts := [{| a_request := q; a_lastNonce := None; a_nonce := None;
                                 a_txHash := None;
                                 a_promise := Rejected Standalone.not_a_function |}];
                 pollers := []; trace := [GetTransactionCount (address w)] |}).
  { unfold Standalone.submit.
    change (Standalone.run w ?st (CountReply 0 c :: more))
      with (Standalone.run w (Standalone.step w st (CountReply 0 c)) more).
    assert (E : Standalone.step w (Standalone.sendTransaction w q None initial)
                  (CountReply 0 c)
                = {| attempts := [{| a_request := q; a_lastNonce := None; a_nonce := None;
                                     a_txHash := None;
                                     a_promise := Rejected Standalone.not_a_function |}];
                     pollers := []; trace := [GetTransactionCount (address w)] |}).
    { cbn. rewrite Hm. reflexivity. }
    rewrite E. clear E.
    induction more as [|inp more IH]; [reflexivity |].
    change (Standalone.run w ?st (inp :: more))
      with (Standalone.run w (Standalone.step w st inp) more).
    now rewrite (unknown_method_inert inp). }
  unfold Standalone.result. rewrite H. repeat split.
  unfold build, call_of. now rewrite Hm.
Qed.

End RetriesFurther.

Section RetriesFurtherWitnesses.

Import Engine Reasoning Script.

Lemma retries_without_limit_witness :
  let inputs := CountReply 0 7 :: refusals 0 [Examples.underpriced; Examples.underpriced] in
  nonces (submit Examples.served Examples.store_hello inputs)
  = map (fun k => Nat.iter k Js.add1 7%N) (seq 0 3) /\
  sent (submit Examples.served Examples.store_hello inputs)
  = map (fun k => build Examples.served Examples.store_hello (Nat.iter k Js.add1 7%N))
        (seq 0 3) /\
  result Examples.served Examples.store_hello inputs = None /\
  ((7 + 2 <= 2 ^ 53)%N ->
   nonces (submit Examples.served Examples.store_hello inputs)
   = map (fun k => (7 + N.of_nat k)%N) (seq 0 3)).
Proof.
  apply (retries_without_limit Examples.served Examples.store_hello 7
           [Examples.underpriced; Examples.underpriced]).
  repeat constructor.
Defined.

(** From [2^53] on the retries are sent with one and the same nonce. *)
Example retries_at_the_limit :
  map nonce (sent (submit Examples.served Examples.store_hello
                     (CountReply 0 (2 ^ 53)
                        :: refusals 0 [Examples.underpriced; Examples.underpriced])))
  = ["0x20000000000000"; "0x20000000000000"; "0x20000000000000"].
Proof. vm_compute. reflexivity. Qed.

Lemma standalone_unknown_method_witness :
  let q := Facade.deploy_request "0x6080" in
  Standalone.result Examples.served q (CountReply 0 7 :: [Emit 0 (Receipt Examples.receipt1)])
  = Some (Failed Standalone.not_a_function) /\
  trace (Standalone.submit Examples.served q
           (CountReply 0 7 :: [Emit 0 (Receipt Examples.receipt1)]))
  = [GetTransactionCount (address Examples.served)] /\
  sent (submit Examples.served q [CountReply 0 7]) = [build Examples.served q 7] /\
  data (build Examples.served q 7)
  = encodeABI Examples.served (Deployment (head (params q))).
Proof.
  intros q.
  exact (standalone_unknown_method Examples.served q 7
           [Emit 0 (Receipt Examples.receipt1)] eq_refl).
Defined.

End RetriesFurtherWitnesses.

(* ===================================================================== *)
(** * Storing and checking through the handlers *)
(* ===================================================================== *)

Section RoundTrip.

Import Engine ProofOfExistence Chain.

Lemma stored_calls (ops : list (N * hash * string)) (proofs : storage) :
  stored proofs ops
  = fst (Chain.run proofs (map (fun op => Notarize (Sha256.digest (snd op))) ops)).
Proof.
  revert proofs. induction ops as [|[[c h] text] ops IH]; intros proofs; [reflexivity |].
  unfold stored in *. cbn [fold_left map Chain.run fst snd]. rewrite store_accepted.
  cbn [fst]. apply IH.
Qed.

(** X22: storing and checking through the two handlers, against a ledger
    that executes the transaction that the handler's engine sent (the
    function its data calls, on the contract it is addressed to) and
    notifies the hash and the receipt with the logs emitted: each
    text stored is answered with status 200 and the hash of its
    transaction, and a text checked afterwards is answered with status
    200, the hash of the checking transaction, and the verdict [true]
    exactly when its digest was in the contract before or is the digest
    of one of the texts stored. *)
Theorem stored_texts_verify (proofs : storage) (ops : list (N * hash * string))
    (c : N) (h : hash) (text : string) :
  Forall (fun op => forall p,
            snd (Examples.store p (fst (fst op)) (snd (fst op)) (snd op))
            = Facade.Responded 200 (Facade.OfEngine (VHash (snd (fst op))))) ops /\
  Examples.check (stored proofs ops) c h text
  = (stored proofs ops,
     Facade.Responded 200
       (Facade.Verdict
          (ABool (read proofs (Sha256.digest text)
                  || existsb (stores (Sha256.digest text)) ops)) h)).
Proof.
  split.
  - apply List.Forall_forall. intros [[c' h'] t] _ p. now rewrite store_accepted.
  - rewrite check_accepted.
    assert (E : read (stored proofs ops) (Sha256.digest text)
                = read proofs (Sha256.digest text)
                  || existsb (stores (Sha256.digest text)) ops).
    { rewrite stored_calls, read_run. f_equal.
      induction ops as [|op ops IH]; [reflexivity |].
      cbn [map existsb]. now rewrite IH. }
    now rewrite E.
Qed.

End RoundTrip.
